(** * Pick the Round (golf/game.js): the puzzle generator and its helpers

    A shallow embedding of the pure part of [golf/game.js]: the seeded
    generator [mulberry32], the Fisher-Yates shuffle [shuffleWithRng], the CSV
    reader [parseCSV], the record filter inside [loadData], the puzzle builder
    [buildPuzzle] and the two rendering helpers [formatScore] and
    [getScoreBackgroundColor].  After them come the handlers of a session
    ([renderGrid], [pickCard], [updateScorebug], [showResults],
    [closeResultsModal], [handlePlayAgain], [initGame]) over the part of
    the page they read or write, and what the NBA roster script of [scripts/]
    makes of a parsed roster.

    Conventions.
    - A JS string is the list of its UTF-16 code units.
    - An integer-valued JS Number is the integer it denotes.  Where the source
      does arithmetic that can leave the range in which doubles are exact
      ([seed += 0x6d2b79f5], [rng() * (i + 1)]) the rounding to the nearest
      double is written out ([fl]).  [String(n)] prints the digits of the
      double ([Str.of_int]): the decimal numeral of [n] below 2^53, fewer
      digits and zeros past it, the exponent form from 10^21.
    - A JS function with captured mutable state (the closure returned by
      [mulberry32]) is a state transformer over the store that holds the
      captured variables. *)

From Stdlib Require Import ZArith QArith Qround Lia List String Ascii.
From stdpp Require Import base tactics option list numbers countable gmap.

(** ** Numbers *)

Module Num.
Local Open Scope Z_scope.

(** [fl z]: the double nearest to the integer [z], ties to even (IEEE 754
    binary64 has a 53-bit significand, so integers below 2^53 in magnitude
    are exact). *)
Definition fl_pos (z : Z) : Z :=
  if z <? 2 ^ 53 then z
  else
    let e := Z.log2 z - 52 in
    let q := Z.shiftr z e in
    let r := z - Z.shiftl q e in
    let half := 2 ^ (e - 1) in
    if r <? half then Z.shiftl q e
    else if half <? r then Z.shiftl (q + 1) e
    else if Z.even q then Z.shiftl q e
    else Z.shiftl (q + 1) e.

Definition fl (z : Z) : Z := Z.sgn z * fl_pos (Z.abs z).

(** The Number operator [a + b] on integer-valued operands. *)
Definition add (a b : Z) : Z := fl (a + b).

(** ToUint32 and ToInt32 of an integer-valued Number. *)
Definition ToUint32 (z : Z) : Z := z mod 2 ^ 32.

Definition ToInt32 (z : Z) : Z :=
  let u := z mod 2 ^ 32 in
  if 2 ^ 31 <=? u then u - 2 ^ 32 else u.

(** [a ^ b], [a | b], [a >>> n], [Math.imul(a, b)]. *)
Definition xor (a b : Z) : Z := ToInt32 (Z.lxor (ToInt32 a) (ToInt32 b)).
Definition or (a b : Z) : Z := ToInt32 (Z.lor (ToInt32 a) (ToInt32 b)).
Definition ushr (a n : Z) : Z := Z.shiftr (ToUint32 a) (ToUint32 n mod 32).
Definition imul (a b : Z) : Z := ToInt32 (ToInt32 a * ToInt32 b).

End Num.

(** ** Draws

    The value a generator returns is a double.  A finite double is a dyadic
    rational [dnum / 2^dexp]; a double has at most 53 significant bits. *)

Local Open Scope Z_scope.

Record Draw : Type := MkDraw { dnum : Z; dexp : Z }.

Definition draw_value (d : Draw) : Q := Qmake (dnum d) (Z.to_pos (2 ^ dexp d)).

(** A double in the half-open interval [0, 1). *)
Definition unit_draw (d : Draw) : Prop :=
  0 <= dexp d /\ 0 <= dnum d < 2 ^ dexp d /\ dnum d < 2 ^ 53.

(** [Math.floor(d * n)] for a draw [d] and an integer [n]: the exact product
    is [dnum * n / 2^dexp]; it is rounded to a double, then floored. *)
Definition floor_mul (d : Draw) (n : Z) : Z := Num.fl (dnum d * n) / 2 ^ dexp d.

(** ** mulberry32 *)

(** One call of the closure returned by [mulberry32]: from the captured
    [seed] to the value returned and the new [seed]. *)
Definition mulberry32_call (seed : Z) : Draw * Z :=
  let seed := Num.add seed 0x6d2b79f5 in
  let t := seed in
  let t := Num.imul (Num.xor t (Num.ushr t 15)) (Num.or t 1) in
  let t := Num.xor t (Num.add t (Num.imul (Num.xor t (Num.ushr t 7)) (Num.or t 61))) in
  (MkDraw (Num.ushr (Num.xor t (Num.ushr t 14)) 0) 32, seed).


Global Arguments mulberry32_call : simpl never.

(** The captured [seed] after [n] calls, and the value the call after those
    returns. *)
Fixpoint seed_after (n : nat) (seed : Z) : Z :=
  match n with
  | O => seed
  | S n' => (mulberry32_call (seed_after n' seed)).2
  end.

Definition nth_draw (seed : Z) (n : nat) : Draw :=
  (mulberry32_call (seed_after n seed)).1.

(** The mixing step as the specification words it, on the unsigned 32-bit
    state: two rounds of xor-shift and multiply, then a last xor-shift. *)
Definition mix32 (a : Z) : Z :=
  let t := (Z.lxor a (Z.shiftr a 15) * Z.lor a 1) mod 2 ^ 32 in
  let t := Z.lxor t ((t + (Z.lxor t (Z.shiftr t 7) * Z.lor t 61) mod 2 ^ 32) mod 2 ^ 32) in
  Z.lxor t (Z.shiftr t 14).

(** *** The store of captured variables

    Each call [mulberry32(seed)] creates a closure with its own binding of
    [seed].  The store lists these bindings in order of creation; a closure is
    identified by the position of its binding. *)

Local Close Scope Z_scope.

Abbreviation Store := (list Z).

(** A computation that reads and updates a world [W] and returns an [A]. *)
Definition State (W A : Type) : Type := W → A * W.

Global Instance State_ret {W} : MRet (State W) := λ A (a : A) w, (a, w).
Global Instance State_bind {W} : MBind (State W) :=
  λ A B (k : A → State W B) (c : State W A) w, let '(a, w') := c w in k a w'.
Global Instance State_fmap {W} : FMap (State W) :=
  λ A B (f : A → B) (c : State W A) w, let '(a, w') := c w in (f a, w').

(** A generator: a JS function of no argument returning a Number. *)
Abbreviation Rng W := (State W Draw).

(** The closure [function () { ... seed ... }] whose [seed] lives at [l]. *)
Definition mulberry32_closure (l : nat) : Rng Store := λ σ,
  let '(d, seed) := mulberry32_call (σ !!! l) in (d, <[l := seed]> σ).

Definition mulberry32 (seed : Z) : State Store (Rng Store) := λ σ,
  (mulberry32_closure (length σ), σ ++ [seed]).

(** [n] calls in a row, collecting what they return. *)
Fixpoint calls {W} (rng : Rng W) (n : nat) : State W (list Draw) :=
  match n with
  | O => mret []
  | S n' => d ← rng; ds ← calls rng n'; mret (d :: ds)
  end.

(** ** shuffleWithRng *)

Section shuffle.
Context {W T : Type}.

(** [[out[i], out[j]] = [out[j], out[i]]].  Both indices are positions of
    [out] whenever the draw lies in [0, 1) (see [floor_mul_range]); an index
    past the end, on which JS would grow the array, does not occur. *)
Definition swap (i j : nat) (out : list T) : list T :=
  match out !! i, out !! j with
  | Some a, Some b => <[j := a]> (<[i := b]> out)
  | _, _ => out
  end.

(** The loop [for (let i = ...; i > 0; i--)], entered at index [i]. *)
Fixpoint shuffle_loop (rng : Rng W) (i : nat) (out : list T) : State W (list T) :=
  match i with
  | 0 => mret out
  | S i' =>
      d ← rng;
      let j := Z.to_nat (floor_mul d (Z.of_nat i + 1)) in
      shuffle_loop rng i' (swap i j out)
  end.

Definition shuffleWithRng (arr : list T) (rng : Rng W) : State W (list T) :=
  let out := arr in
  shuffle_loop rng (length out - 1) out.

(** Fisher-Yates as the specification words it, over the draws in the order
    they are made: for [i] from the last index down to 1, the step that
    consumes draw [d] exchanges positions [i] and [floor(d * (i + 1))]. *)
Definition exchange (out : list T) (step : nat * Draw) : list T :=
  swap step.1 (Z.to_nat (floor_mul step.2 (Z.of_nat step.1 + 1))) out.

Definition fisher_yates (ds : list Draw) (arr : list T) : list T :=
  foldl exchange arr (zip (reverse (seq 1 (length arr - 1))) ds).

End shuffle.

(** The same loop on the array objects themselves.  [arrays] holds every
    array by address; [[...arr]] allocates a copy, and the loop writes only
    through the address of that copy. *)
Module InPlace.
Section in_place.
Context {W T : Type}.

Record Mem : Type := MkMem { arrays : list (list T); world : W }.

Definition read (m : Mem) (a : nat) : list T := arrays m !!! a.

Definition swap_at (out i j : nat) : State Mem unit := λ m,
  ((), MkMem (<[out := swap i j (read m out)]> (arrays m)) (world m)).

Definition call (rng : Rng W) : State Mem Draw := λ m,
  let '(d, w) := rng (world m) in (d, MkMem (arrays m) w).

Fixpoint shuffle_loop (rng : Rng W) (out i : nat) : State Mem unit :=
  match i with
  | 0 => mret ()
  | S i' =>
      d ← call rng;
      let j := Z.to_nat (floor_mul d (Z.of_nat i + 1)) in
      _ ← swap_at out i j;
      shuffle_loop rng out i'
  end.

Definition spread (arr : nat) : State Mem nat := λ m,
  (length (arrays m), MkMem (arrays m ++ [read m arr]) (world m)).

Definition length_of (a : nat) : State Mem nat := λ m, (length (read m a), m).

Definition shuffleWithRng (arr : nat) (rng : Rng W) : State Mem nat :=
  out ← spread arr;
  n ← length_of out;
  _ ← shuffle_loop rng out (n - 1);
  mret out.

End in_place.
Arguments Mem : clear implicits.
End InPlace.

(** ** Strings *)

Abbreviation jsstring := (list N).

(** A string literal of the source (all of them are ASCII). *)
Definition lit (s : string) : jsstring :=
  (λ a, N_of_ascii a) <$> list_ascii_of_string s.

Module Str.
Local Open Scope N_scope.

(** WhiteSpace and LineTerminator code units, as [trim] and [parseInt]
    strip them. *)
Definition is_space (c : N) : bool :=
  bool_decide (c ∈ [0x9; 0xA; 0xB; 0xC; 0xD; 0x20; 0xA0; 0x1680; 0x2028;
                    0x2029; 0x202F; 0x205F; 0x3000; 0xFEFF])
  || ((0x2000 <=? c) && (c <=? 0x200A)).

Fixpoint trimStart (s : jsstring) : jsstring :=
  match s with
  | c :: s' => if is_space c then trimStart s' else s
  | [] => []
  end.

Definition trimEnd (s : jsstring) : jsstring := reverse (trimStart (reverse s)).

Definition trim (s : jsstring) : jsstring := trimEnd (trimStart s).

(** Puts [c] in front of the first piece. *)
Definition cons_first (c : N) (pieces : list jsstring) : list jsstring :=
  match pieces with
  | p :: ps => (c :: p) :: ps
  | [] => [[c]]
  end.

(** [s.split(',')]. *)
Fixpoint split_comma (s : jsstring) : list jsstring :=
  match s with
  | [] => [[]]
  | c :: s' =>
      if c =? 0x2C then [] :: split_comma s' else cons_first c (split_comma s')
  end.

(** [s.split(/\r?\n/)]: a line feed separates, and takes a carriage return
    right in front of it along. *)
Fixpoint split_lines (s : jsstring) : list jsstring :=
  match s with
  | [] => [[]]
  | c :: s' =>
      if c =? 0xA then [] :: split_lines s'
      else if c =? 0xD then
        match s' with
        | c' :: s'' =>
            if c' =? 0xA then [] :: split_lines s''
            else cons_first c (split_lines s')
        | [] => cons_first c (split_lines s')
        end
      else cons_first c (split_lines s')
  end.

Definition is_digit (c : N) : bool := (0x30 <=? c) && (c <=? 0x39).

Fixpoint take_digits (s : jsstring) : jsstring :=
  match s with
  | c :: s' => if is_digit c then c :: take_digits s' else []
  | [] => []
  end.

(** The integer a string of decimal digits denotes. *)
Definition digits_value (ds : jsstring) : Z :=
  foldl (λ acc c, 10 * acc + (Z.of_N c - 0x30))%Z 0%Z ds.

(** The decimal digits of a non-negative integer. *)
Fixpoint digits_from (fuel : nat) (n : Z) (acc : jsstring) : jsstring :=
  let acc := (0x30 + Z.to_N (n mod 10)) :: acc in
  match fuel with
  | O => acc
  | S fuel' => if (n <? 10)%Z then acc else digits_from fuel' (n / 10) acc
  end.

Definition digits (n : Z) : jsstring :=
  digits_from (Z.to_nat (Z.log2 n)) n [].

(** The decimal numeral of an integer. *)
Definition numeral (n : Z) : jsstring :=
  if (n <? 0)%Z then 0x2D :: digits (- n) else digits n.

(** Number::toString in radix 10 prints, for a positive double [x], the
    integer [s] of fewest digits and the exponent [e] such that [s * 10^e]
    rounds to [x]; where two such [s] exist, the one whose [s * 10^e] is
    nearer to [x] (the even one on a tie), as the engines choose.
    [shortest e x] tries the exponents from [e] down: the fewest digits
    first.  Both neighbours of [x / 10^e] are candidates. *)
Fixpoint shortest (e : nat) (x : Z) : Z * nat :=
  let p := (10 ^ Z.of_nat e)%Z in
  let s := (x / p)%Z in
  let below := (Num.fl (s * p) =? x)%Z in
  let above := (Num.fl ((s + 1) * p) =? x)%Z in
  let nearer :=
    ((s + 1) * p - x <? x - s * p)%Z
    || (((s + 1) * p - x =? x - s * p)%Z && Z.odd s) in
  if above && (negb below || nearer) then ((s + 1)%Z, e)
  else if below then (s, e)
  else
    match e with
    | O => (x, O)
    | S e' => shortest e' x
    end.

(** A positive integer-valued double [x] as [String] prints it.  With [k]
    digits in [s] and [n = k + e]: the digits and [e] zeros while
    [n <= 21], else the exponent form [d.ddde+(n-1)].  (The first test is
    for a double just below the power of ten that rounds to it, as 1e23.) *)
Definition of_positive (x : Z) : jsstring :=
  let n := length (digits x) in
  let '(s, e) :=
    if (Num.fl (10 ^ Z.of_nat n) =? x)%Z then (1%Z, n)
    else shortest (n - 1) x in
  let ds := digits s in
  if bool_decide (length ds + e ≤ 21)%nat then ds ++ replicate e 0x30
  else
    match ds with
    | d :: rest =>
        d :: match rest with [] => [] | _ => 0x2E :: rest end
          ++ lit "e+" ++ digits (Z.of_nat (length ds + e - 1))
    | [] => []
    end.

(** [String(n)] (and [`${n}`]) for the Number that the integer [n] stands
    for: the double nearest to it, an infinity beyond the largest double.
    Below 2^53 in magnitude this is the decimal numeral of [n]
    ([of_int_numeral]); [String(2 ** 60)] is ["1152921504606847000"] and
    [String(1e21)] is ["1e+21"]. *)
Definition of_int (n : Z) : jsstring :=
  let x := Num.fl n in
  if (2 ^ 1024 <=? Z.abs x)%Z then
    if (x <? 0)%Z then lit "-Infinity" else lit "Infinity"
  else if (x =? 0)%Z then lit "0"
  else if (x <? 0)%Z then 0x2D :: of_positive (- x)
  else of_positive x.

End Str.

(** ** Numbers read from text *)

(** A Number as [parseInt] can return it. *)
Inductive Number : Type :=
  | NaN
  | Infinity (negative : bool)
  | Finite (z : Z).

Global Instance Number_eq_dec : EqDecision Number.
Proof. solve_decision. Defined.

Definition isNaN (x : Number) : bool :=
  match x with NaN => true | _ => false end.

(** The Number for a mathematical integer: the nearest double, and an
    infinity beyond the largest finite double.  (Past 20 significant digits
    ECMAScript lets [parseInt] approximate; this is the exact conversion.)  A
    negative zero is not told apart from zero. *)
Definition of_integer (z : Z) : Number :=
  let v := Num.fl z in
  if (2 ^ 1024 <=? Z.abs v)%Z then Infinity (z <? 0)%Z else Finite v.

(** A property value that may be [undefined]. *)
Abbreviation jsvalue := (option jsstring).

Definition ToString (v : jsvalue) : jsstring := default (lit "undefined") v.

(** [v || '']. *)
Definition or_empty (v : jsvalue) : jsstring := default [] v.

(** [parseInt(v, 10)]. *)
Definition parseInt (v : jsvalue) : Number :=
  let s := Str.trimStart (ToString v) in
  let '(sign, s) :=
    match s with
    | c :: s' =>
        if (c =? 0x2D)%N then ((-1)%Z, s')
        else if (c =? 0x2B)%N then (1%Z, s')
        else (1%Z, s)
    | [] => (1%Z, s)
    end in
  let ds := Str.take_digits s in
  match ds with
  | [] => NaN
  | _ => of_integer (sign * Str.digits_value ds)
  end.

(** [x >= n] and [x <= n] for an integer constant [n]. *)
Definition geb (x : Number) (n : Z) : bool :=
  match x with
  | NaN => false
  | Infinity negative => negb negative
  | Finite z => (n <=? z)%Z
  end.

Definition leb (x : Number) (n : Z) : bool :=
  match x with
  | NaN => false
  | Infinity negative => negative
  | Finite z => (z <=? n)%Z
  end.

(** ** Constants *)

Definition GOLFERS_PER_GAME : nat := 4.
Definition CARDS_PER_GOLFER : nat := 4.
Definition MIN_YEAR : Z := 2020.
Definition MAX_YEAR : Z := 2025.
Definition EXCLUDED_POSITIONS : gset jsstring :=
  list_to_set [lit "cut"; lit "wd"; lit "dq"; lit "mdf"].

(** ** Records *)

Record ResultRecord : Type := MkRecord {
  player_name : jsstring;
  event_name : jsstring;
  year : Number;
  score_to_par : Number;
}.

Record Card : Type := MkCard {
  card_event_name : jsstring;
  card_year : Number;
  card_score_to_par : Number;
}.

Record PlayerEntry : Type := MkEntry {
  entry_player_name : jsstring;
  cards : list Card;
}.

Abbreviation Puzzle := (list PlayerEntry).

(** What a call yields: the value returned, or the message of the [Error]
    thrown. *)
Inductive Outcome (A : Type) : Type :=
  | Return (a : A)
  | Throw (message : jsstring).
Arguments Return {A} a.
Arguments Throw {A} message.

(** ** A JS [Map]: entries in insertion order, one per key *)

Module JsMap.
Section jsmap.
Context {K V : Type} `{EqDecision K}.

Definition t : Type := list (K * V).

Definition has (k : K) (m : t) : bool := bool_decide (k ∈ m.*1).

Fixpoint get (k : K) (m : t) : option V :=
  match m with
  | [] => None
  | (k', v) :: m' => if decide (k' = k) then Some v else get k m'
  end.

(** An existing key keeps its place; a new key goes last. *)
Fixpoint set (k : K) (v : V) (m : t) : t :=
  match m with
  | [] => [(k, v)]
  | (k', v') :: m' =>
      if decide (k' = k) then (k, v) :: m' else (k', v') :: set k v m'
  end.

Definition entries (m : t) : list (K * V) := m.

End jsmap.
Arguments t : clear implicits.
End JsMap.

(** ** buildPuzzle *)

(** The body of [for (const r of rows)]: [get(...).push(r)] extends the array
    held in the map. *)
Definition add_row (byPlayer : JsMap.t jsstring (list ResultRecord))
    (r : ResultRecord) : JsMap.t jsstring (list ResultRecord) :=
  let byPlayer :=
    if JsMap.has (player_name r) byPlayer then byPlayer
    else JsMap.set (player_name r) [] byPlayer in
  match JsMap.get (player_name r) byPlayer with
  | Some events => JsMap.set (player_name r) (events ++ [r]) byPlayer
  | None => byPlayer (* the key is there by now *)
  end.

Definition to_card (e : ResultRecord) : Card :=
  MkCard (event_name e) (year e) (score_to_par e).

Definition not_enough_message (found : nat) : jsstring :=
  lit "Need at least " ++ Str.of_int (Z.of_nat GOLFERS_PER_GAME)
  ++ lit " golfers with " ++ Str.of_int (Z.of_nat CARDS_PER_GOLFER)
  ++ lit "+ events. Found " ++ Str.of_int (Z.of_nat found) ++ lit ".".

(** [l.map(f)] for a callback with effects: in index order. *)
Fixpoint map_st {W A B} (f : A → State W B) (l : list A) : State W (list B) :=
  match l with
  | [] => mret []
  | a :: l' => b ← f a; bs ← map_st f l'; mret (b :: bs)
  end.

(** The callback of [selected.map]. *)
Definition pick_cards {W} (rng : Rng W) (entry : jsstring * list ResultRecord)
    : State W PlayerEntry :=
  let '(player, events) := entry in
  picked ← take CARDS_PER_GOLFER <$> shuffleWithRng events rng;
  mret (MkEntry player (to_card <$> picked)).

(** The statements of [buildPuzzle] that follow [const rng = mulberry32(seed)]. *)
Definition buildPuzzle_body {W} (rng : Rng W) (rows : list ResultRecord)
    : State W (Outcome Puzzle) :=
  let byPlayer := foldl add_row [] rows in
  let playersWithEnough :=
    filter (λ entry, CARDS_PER_GOLFER ≤ length entry.2) (JsMap.entries byPlayer) in
  if bool_decide (length playersWithEnough < GOLFERS_PER_GAME) then
    mret (Throw (not_enough_message (length playersWithEnough)))
  else
    shuffled ← shuffleWithRng playersWithEnough rng;
    let selected := take GOLFERS_PER_GAME shuffled in
    puzzle ← map_st (pick_cards rng) selected;
    mret (Return puzzle).

Definition buildPuzzle (rows : list ResultRecord) (seed : Z)
    : State Store (Outcome Puzzle) :=
  rng ← mulberry32 seed;
  buildPuzzle_body rng rows.

(** The records of one player, and the condition the specification states:
    at least [GOLFERS_PER_GAME] distinct players have at least
    [CARDS_PER_GOLFER] records each. *)
Definition records_of (player : jsstring) (rows : list ResultRecord)
    : list ResultRecord :=
  filter (λ r, player_name r = player) rows.

Definition enough_players (rows : list ResultRecord) : Prop :=
  ∃ players : list jsstring,
    NoDup players ∧ length players = GOLFERS_PER_GAME
    ∧ ∀ p, p ∈ players → CARDS_PER_GOLFER ≤ length (records_of p rows).

(** The value of [playersWithEnough]. *)
Definition qualifying (rows : list ResultRecord)
    : list (jsstring * list ResultRecord) :=
  filter (λ entry, CARDS_PER_GOLFER ≤ length entry.2)
         (JsMap.entries (foldl add_row [] rows)).

(** A hand: [CARDS_PER_GOLFER] cards, the first ones of a permutation of the
    player's records. *)
Definition hand_of (events : list ResultRecord) (hand : list Card) : Prop :=
  ∃ shuffled, shuffled ≡ₚ events
              ∧ hand = to_card <$> take CARDS_PER_GOLFER shuffled.

(** A computation on the store that touches only the cell [l], and does to
    it what [pure] does to a state passed by value. *)
Definition confined {A} (l : nat) (c : State Store A) (pure : State Z A) : Prop :=
  ∀ (σ : Store) (s : Z),
    σ !! l = Some s → c σ = ((pure s).1, <[l := (pure s).2]> σ).

(** What the loop over [rows] maintains: one entry per player seen, holding
    that player's records in input order. *)
Definition grouped (m : JsMap.t jsstring (list ResultRecord))
    (rows : list ResultRecord) : Prop :=
  NoDup m.*1
  ∧ ∀ p, JsMap.get p m
         = if decide (p ∈ player_name <$> rows) then Some (records_of p rows)
           else None.

(** Sixteen records of four players and three of a fifth, to run the builder
    on. *)
Definition sample_record (player : string) (k : nat) : ResultRecord :=
  MkRecord (lit player) (lit "Masters") (Finite (2020 + Z.of_nat k))
           (Finite (Z.of_nat k - 2)).

Definition sample_rows : list ResultRecord :=
  map (sample_record "Extra") (seq 0 3)
  ++ flat_map (λ player, map (sample_record player) (seq 0 4))
              ["Ann"; "Bob"; "Cy"; "Di"]%string.

(** ** parseCSV *)

(** A row object: its own properties.  [row[h] = v] creates or overwrites the
    property [h], except for the name [__proto__], which [{}] inherits as an
    accessor whose setter ignores a string. *)
Abbreviation RowObject := (gmap jsstring jsstring).

Definition assign (h v : jsstring) (row : RowObject) : RowObject :=
  if decide (h = lit "__proto__") then row else <[h := v]> row.

(** [headers.forEach((h, j) => (row[h] = vals[j] ?? ''))], from index [j] on. *)
Fixpoint fill_row (vals : list jsstring) (j : nat) (headers : list jsstring)
    (row : RowObject) : RowObject :=
  match headers with
  | [] => row
  | h :: headers' =>
      fill_row vals (S j) headers' (assign h (default [] (vals !! j)) row)
  end.

Definition parseCSV (text : jsstring) : list RowObject :=
  let lines := Str.split_lines (Str.trim text) in
  if bool_decide (length lines < 2) then []
  else
    let headers := Str.trim <$> Str.split_comma (lines !!! 0) in
    (λ line, let vals := Str.trim <$> Str.split_comma line in
             fill_row vals 0 headers ∅) <$> drop 1 lines.

(** ** The filter of loadData *)

Section load.
(** [String.prototype.toLowerCase], whose Unicode case table is the
    platform's. *)
Variable toLowerCase : jsstring → jsstring.

Definition has_score (r : RowObject) : bool :=
  bool_decide (r !! lit "score_to_par" ≠ Some [])
  && bool_decide (r !! lit "score_to_par" ≠ None).

Definition made_cut (r : RowObject) : bool :=
  let pos := toLowerCase (Str.trim (or_empty (r !! lit "position"))) in
  negb (bool_decide (pos ∈ EXCLUDED_POSITIONS)).

Definition to_record (r : RowObject) : ResultRecord :=
  {| player_name := Str.trim (or_empty (r !! lit "player_name"));
     event_name := Str.trim (or_empty (r !! lit "event_name"));
     year := match parseInt (r !! lit "year") with
             | NaN | Finite 0 => Finite 0
             | y => y
             end;
     score_to_par := parseInt (r !! lit "score_to_par") |}.

Definition named_and_scored (r : ResultRecord) : bool :=
  negb (bool_decide (player_name r = [])) && negb (isNaN (score_to_par r)).

Definition in_years (r : ResultRecord) : bool :=
  geb (year r) MIN_YEAR && leb (year r) MAX_YEAR.

(** The last [.then] callback of [loadData]. *)
Definition loadData_filter (rows : list RowObject) : list ResultRecord :=
  filter in_years
    (filter named_and_scored
       (to_record <$> filter made_cut (filter has_score rows))).

End load.

(** [toLowerCase] on strings of ASCII code units. *)
Definition toLowerCase_ascii (s : jsstring) : jsstring :=
  (λ c, if (0x41 <=? c)%N && (c <=? 0x5A)%N then (c + 0x20)%N else c) <$> s.

(** ** Rendering helpers *)

(** [n] is an integer-valued Number; the template [`+${n}`] and [String(n)]
    print it as [Str.of_int] does. *)
Definition formatScore (n : Z) : jsstring :=
  if (n =? 0)%Z then lit "E"
  else if (0 <? n)%Z then lit "+" ++ Str.of_int n
  else Str.of_int n.

Definition greenShades : list jsstring :=
  [lit "hsl(152, 42%, 52%)"; lit "hsl(152, 38%, 58%)"; lit "hsl(152, 35%, 64%)"].
Definition yellowShades : list jsstring :=
  [lit "hsl(48, 52%, 62%)"; lit "hsl(48, 48%, 68%)"; lit "hsl(48, 44%, 74%)"].
Definition redShades : list jsstring :=
  [lit "hsl(0, 48%, 58%)"; lit "hsl(0, 52%, 54%)"; lit "hsl(0, 55%, 50%)"].

Definition getScoreBackgroundColor (scoreToPar : Z) : jsstring :=
  if (scoreToPar <=? -10)%Z then greenShades !!! 0
  else if (scoreToPar <=? -4)%Z then greenShades !!! 1
  else if (scoreToPar <=? -1)%Z then greenShades !!! 2
  else if (scoreToPar <=? 0)%Z then yellowShades !!! 0
  else if (scoreToPar <=? 2)%Z then yellowShades !!! 1
  else if (scoreToPar <=? 5)%Z then yellowShades !!! 2
  else if (scoreToPar <=? 9)%Z then redShades !!! 2
  else if (scoreToPar <=? 15)%Z then redShades !!! 1
  else redShades !!! 0.

(** The band of a shade: 0 for green, 1 for yellow, 2 for red. *)
Definition band (color : jsstring) : nat :=
  if decide (color ∈ greenShades) then 0
  else if decide (color ∈ yellowShades) then 1
  else 2.

(** [ds] is the decimal numeral of the positive integer [n]: digits only,
    no leading zero, value [n]. *)
Definition decimal_of (n : Z) (ds : jsstring) : Prop :=
  Forall (λ c, Str.is_digit c = true) ds
  ∧ head ds ≠ Some 0x30%N
  ∧ Str.digits_value ds = n.

(** ** Statements about parseCSV and the filter *)

(** The positional reading of the specification: every header name is mapped
    to the field at the header's own position. *)
Definition maps_positionally (headers fields : list jsstring) (row : RowObject)
    : Prop :=
  ∀ j h, headers !! j = Some h → row !! h = Some (default [] (fields !! j)).

(** What the code does: a header name other than [__proto__] is mapped to
    the field at the position of the name's last occurrence, and the row has
    no other property. *)
Definition maps_last (headers fields : list jsstring) (row : RowObject) : Prop :=
  (∀ j h, headers !! j = Some h → h ≠ lit "__proto__" →
          (∀ j', j < j' → headers !! j' ≠ Some h) →
          row !! h = Some (default [] (fields !! j)))
  ∧ (∀ h, is_Some (row !! h) → h ∈ headers ∧ h ≠ lit "__proto__").

(** The clauses of the filtering policy, on a row as [parseCSV] yields it. *)
Definition score_missing (r : RowObject) : Prop :=
  r !! lit "score_to_par" = None ∨ r !! lit "score_to_par" = Some [].

Definition score_non_numeric (r : RowObject) : Prop :=
  parseInt (r !! lit "score_to_par") = NaN.

Definition position_excluded (toLowerCase : jsstring → jsstring) (r : RowObject)
    : Prop :=
  toLowerCase (Str.trim (or_empty (r !! lit "position"))) ∈ EXCLUDED_POSITIONS.

Definition year_in_range (r : RowObject) : Prop :=
  match parseInt (r !! lit "year") with
  | Finite y => (MIN_YEAR ≤ y ≤ MAX_YEAR)%Z
  | _ => False
  end.

Definition player_named (r : RowObject) : Prop :=
  Str.trim (or_empty (r !! lit "player_name")) ≠ [].

(** The survivors by the clauses the specification lists (score, position,
    year), and with the clause on the player name that the code adds. *)
Definition survives_listed (toLowerCase : jsstring → jsstring) (r : RowObject)
    : Prop :=
  ¬ score_missing r ∧ ¬ score_non_numeric r
  ∧ ¬ position_excluded toLowerCase r ∧ year_in_range r.

Definition survives (toLowerCase : jsstring → jsstring) (r : RowObject) : Prop :=
  survives_listed toLowerCase r ∧ player_named r.

Global Instance year_in_range_dec r : Decision (year_in_range r).
Proof. unfold year_in_range. destruct (parseInt _); apply _. Defined.

Global Instance survives_listed_dec lower r : Decision (survives_listed lower r).
Proof.
  unfold survives_listed, score_missing, score_non_numeric, position_excluded.
  apply _.
Defined.

Global Instance survives_dec lower r : Decision (survives lower r).
Proof. unfold survives, player_named. apply _. Defined.

(** A survivor's record: trimmed names, an integer year inside the range,
    and the score [parseInt] read. *)
Definition record_of_row (r : RowObject) (rec : ResultRecord) : Prop :=
  player_name rec = Str.trim (or_empty (r !! lit "player_name"))
  ∧ event_name rec = Str.trim (or_empty (r !! lit "event_name"))
  ∧ (∃ y, year rec = Finite y ∧ parseInt (r !! lit "year") = Finite y
          ∧ (MIN_YEAR ≤ y ≤ MAX_YEAR)%Z)
  ∧ score_to_par rec = parseInt (r !! lit "score_to_par")
  ∧ score_to_par rec ≠ NaN.

(** ** Further definitions *)

(** The distinct elements of a list, each at its first occurrence. *)
Definition first_seen {A} `{EqDecision A} (l : list A) : list A :=
  reverse (remove_dups (reverse l)).

(** A string with no white space at either end. *)
Definition trimmed (s : jsstring) : Prop :=
  (∀ c, head s = Some c → Str.is_space c = false)
  ∧ (∀ c, last s = Some c → Str.is_space c = false).

(** Joining the pieces with commas gives the string back. *)
Fixpoint join_comma (ps : list jsstring) : jsstring :=
  match ps with
  | [] => []
  | [p] => p
  | p :: ps' => p ++ 0x2C%N :: join_comma ps'
  end.

(** What [initGame] computes once the CSV text is there: [loadData]'s
    [.then(parseCSV).then(filter)] and then [buildPuzzle(rows, seed)]. *)
Definition load_and_build (toLowerCase : jsstring → jsstring) (text : jsstring)
    (seed : Z) : State Store (Outcome Puzzle) :=
  buildPuzzle (loadData_filter toLowerCase (parseCSV text)) seed.

(** A CSV text with four rows for each of four players, one row of a player
    who missed the cut and one row out of the year range. *)
Definition sample_csv_line (player : string) (k : nat) : jsstring :=
  lit player ++ lit " , Masters ," ++ Str.of_int (2020 + Z.of_nat k) ++ lit ","
  ++ Str.of_int (Z.of_nat k - 2) ++ lit ",T" ++ Str.of_int (Z.of_nat k + 1).

Definition sample_csv : jsstring :=
  lit "player_name,event_name,year,score_to_par,position"
  ++ concat ((λ line, [13; 10]%N ++ line)
               <$> (lit "Ed,Open,2021,+4,CUT" :: lit "Ann,Open,2019,-1,T3"
                    :: flat_map (λ player, map (sample_csv_line player) (seq 0 4))
                                ["Ann"; "Bob"; "Cy"; "Di"]%string)).

(** ** The session: picks, scorebug and results

    The part of the page that the handlers of [golf/game.js] read or write.
    An element that the script looks up with [getElementById] and guards with
    [if (el)] may be absent ([None]); [grid], [finalTotal], [vsPar] and
    [playAgainBtn] are used unguarded and taken to exist.  Of an element whose
    classes come from the page, the class list is a set of names; the rows and
    cards of the grid are built by [renderGrid] alone, and carry the classes it
    and [pickCard] give them.  The text inside a card is written once and
    never read, and is left out. *)

Module Game.

(** *** Numbers: [a + b], [a === b], [x < 0], [x > 0] on scores *)

Definition plus (a b : Number) : Number :=
  match a, b with
  | NaN, _ | _, NaN => NaN
  | Infinity s, Infinity s' => if bool_decide (s = s') then Infinity s else NaN
  | Infinity s, Finite _ | Finite _, Infinity s => Infinity s
  | Finite x, Finite y => of_integer (x + y)
  end.

Definition strict_eq (a b : Number) : bool :=
  match a, b with
  | NaN, _ | _, NaN => false
  | _, _ => bool_decide (a = b)
  end.

Definition negative (x : Number) : bool :=
  match x with NaN => false | Infinity s => s | Finite z => (z <? 0)%Z end.

Definition positive (x : Number) : bool :=
  match x with NaN => false | Infinity s => negb s | Finite z => (0 <? z)%Z end.

(** [formatScore] on any Number a score can be. *)
Definition format (n : Number) : jsstring :=
  match n with
  | Finite z => formatScore z
  | Infinity false => lit "+Infinity"
  | Infinity true => lit "-Infinity"
  | NaN => lit "NaN"
  end.

(** *** The array [state.picks]: [None] is a hole. *)

Definition read (picks : list (option Number)) (i : nat) : option Number :=
  mjoin (picks !! i).

(** [picks[i] = v]: past the end the array grows, leaving holes. *)
Definition write (i : nat) (v : Number) (picks : list (option Number))
    : list (option Number) :=
  if bool_decide (i < length picks) then <[i := Some v]> picks
  else picks ++ replicate (i - length picks) None ++ [Some v].

(** [picks.filter((p) => p !== undefined)]; [reduce] visits the same
    elements. *)
Definition defined (picks : list (option Number)) : list Number := omap id picks.

Definition total (picks : list (option Number)) : Number :=
  foldl plus (Finite 0) (defined picks).

(** *** State and page *)

Record State : Type := MkState {
  puzzle : option Puzzle;
  picks : list (option Number);
  seed : Z;
}.

(** A card of the grid: its classes beside [card], and the score its click
    listener passes to [pickCard], when it has a listener. *)
Record CardEl : Type := MkCardEl {
  flipped : bool;
  picked : bool;
  listener : option Number;
}.

(** A row of the grid: class [row-picked] beside [grid-row], and its cards. *)
Record RowEl : Type := MkRowEl {
  row_picked : bool;
  row_cards : list CardEl;
}.

Inductive GridContent : Type :=
  | Rows (rows : list RowEl)
  | LoadError (message : jsstring).

Record Page : Type := MkPage {
  grid : GridContent;
  resultsModal : option (gset jsstring);
  finalTotal : jsstring;
  vsPar : jsstring;
  playAgainBtn_focused : bool;
  scorebugEl : option (gset jsstring);
  scorebugValue : option jsstring;
  scorebugPlayAgain : option (gset jsstring);
}.

Record World : Type := MkWorld {
  state : State;
  page : Page;
  store : Store;
}.

Definition set_grid (g : GridContent) (p : Page) : Page :=
  MkPage g (resultsModal p) (finalTotal p) (vsPar p) (playAgainBtn_focused p)
         (scorebugEl p) (scorebugValue p) (scorebugPlayAgain p).

(** [classList.toggle(name, force)]. *)
Definition toggle (name : jsstring) (force : bool) (classes : gset jsstring)
    : gset jsstring :=
  if force then classes ∪ {[name]} else classes ∖ {[name]}.

(** *** updateScorebug, showResults, closeResultsModal *)

(** The three classes of the scorebug that tell the sign of the sum. *)
Definition sign_classes : gset jsstring :=
  {[lit "scorebug--under"; lit "scorebug--over"; lit "scorebug--even"]}.

Definition sign_class (sum : Number) : jsstring :=
  if negative sum then lit "scorebug--under"
  else if positive sum then lit "scorebug--over"
  else lit "scorebug--even".

Definition updateScorebug (st : State) (p : Page) : Page :=
  match scorebugEl p, scorebugValue p with
  | Some classes, Some _ =>
      let defined := defined (picks st) in
      let classes := classes ∖ sign_classes in
      let playAgain :=
        toggle (lit "hidden") (negb (bool_decide (length defined = 4)))
          <$> scorebugPlayAgain p in
      if bool_decide (length defined = 0) then
        MkPage (grid p) (resultsModal p) (finalTotal p) (vsPar p)
               (playAgainBtn_focused p) (Some classes) (Some [0x2014%N]) playAgain
      else
        let sum := foldl plus (Finite 0) defined in
        MkPage (grid p) (resultsModal p) (finalTotal p) (vsPar p)
               (playAgainBtn_focused p) (Some (classes ∪ {[sign_class sum]}))
               (Some (format sum)) playAgain
  | _, _ => p
  end.

Definition showResults (st : State) (p : Page) : Page :=
  let total := total (picks st) in
  MkPage (grid p) ((λ classes, classes ∖ {[lit "hidden"]}) <$> resultsModal p)
         (format total) (lit "Sum of your 4 picks (vs par 288 for 4 rounds)")
         true (scorebugEl p) (scorebugValue p) (scorebugPlayAgain p).

Definition closeResultsModal (p : Page) : Page :=
  MkPage (grid p) ((λ classes, classes ∪ {[lit "hidden"]}) <$> resultsModal p)
         (finalTotal p) (vsPar p) (playAgainBtn_focused p)
         (scorebugEl p) (scorebugValue p) (scorebugPlayAgain p).

(** *** pickCard *)

(** What [pickCard] does to the grid: the card clicked gets [picked] and
    [flipped], its row gets [row-picked], every card of the row gets
    [flipped]. *)
Definition mark_card (c : CardEl) : CardEl := MkCardEl true true (listener c).
Definition flip_card (c : CardEl) : CardEl := MkCardEl true (picked c) (listener c).

Definition mark_row (col : nat) (r : RowEl) : RowEl :=
  MkRowEl true (flip_card <$> alter mark_card col (row_cards r)).

Definition mark_grid (cardEl : nat * nat) (g : GridContent) : GridContent :=
  match g with
  | Rows rows => Rows (alter (mark_row cardEl.2) cardEl.1 rows)
  | LoadError message => LoadError message
  end.

Definition pickCard (rowIndex : nat) (scoreToPar : Number) (cardEl : nat * nat)
    (w : World) : World :=
  if bool_decide (is_Some (read (picks (state w)) rowIndex)) then w
  else
    let st := MkState (puzzle (state w)) (write rowIndex scoreToPar (picks (state w)))
                      (seed (state w)) in
    let p := set_grid (mark_grid cardEl (grid (page w))) (page w) in
    let p := updateScorebug st p in
    let definedCount := length (defined (picks st)) in
    let p := if bool_decide (definedCount = 4) then showResults st p else p in
    MkWorld st p (store w).

(** *** renderGrid *)

Definition render_card (pick : option Number) (card : Card) : CardEl :=
  let picked := bool_decide (is_Some pick) in
  let isThisPicked :=
    picked && from_option (λ v, strict_eq v (card_score_to_par card)) false pick in
  MkCardEl picked isThisPicked
           (if picked then None else Some (card_score_to_par card)).

Definition render_row (picks : list (option Number)) (rowIndex : nat)
    (golfer : PlayerEntry) : RowEl :=
  MkRowEl (bool_decide (is_Some (read picks rowIndex)))
          (render_card (read picks rowIndex) <$> cards golfer).

(** The message of the TypeError of [null.forEach] (V8's wording). *)
Definition null_forEach : jsstring :=
  lit "Cannot read properties of null (reading 'forEach')".

(** With [state.puzzle] null, [forEach] throws once the grid is emptied. *)
Definition renderGrid (st : State) (p : Page) : Outcome Page :=
  match puzzle st with
  | Some puzzle => Return (set_grid (Rows (imap (render_row (picks st)) puzzle)) p)
  | None => Throw null_forEach
  end.

(** The score that the click listener of the card at [cardEl] holds. *)
Definition listener_at (cardEl : nat * nat) (g : GridContent) : option Number :=
  match g with
  | Rows rows =>
      r ← rows !! cardEl.1; c ← row_cards r !! cardEl.2; listener c
  | LoadError _ => None
  end.

(** *** initGame and the events of a session *)

Section events.
Variable toLowerCase : jsstring → jsstring.

(** The synchronous part of [initGame]: the state is reset, with the seed
    [getSeed()] returned. *)
Definition initGame (now : Z) (w : World) : World :=
  MkWorld (MkState None [] now) (page w) (store w).

(** The [.catch] handler. *)
Definition load_failed (message : jsstring) (w : World) : World :=
  let p := page w in
  MkWorld (state w)
          (MkPage (LoadError message) (resultsModal p) (finalTotal p) (vsPar p)
                  (playAgainBtn_focused p) (scorebugEl p)
                  ((λ _, [0x2014%N]) <$> scorebugValue p) (scorebugPlayAgain p))
          (store w).

(** The [.then((rows) => ...)] handler of the [initGame] call that drew
    [seed], run when the CSV text has arrived; what it throws goes to the
    [.catch] handler. *)
Definition loaded (seed : Z) (text : jsstring) (w : World) : World :=
  let '(outcome, σ) := load_and_build toLowerCase text seed (store w) in
  match outcome with
  | Return puzzle =>
      let st := MkState (Some puzzle) (picks (state w)) (Game.seed (state w)) in
      let p := updateScorebug st (page w) in
      match renderGrid st p with
      | Return p => MkWorld st p σ
      | Throw message => load_failed message (MkWorld st p σ)
      end
  | Throw message => load_failed message (MkWorld (state w) (page w) σ)
  end.

Definition handlePlayAgain (now : Z) (w : World) : World :=
  initGame now (MkWorld (state w) (closeResultsModal (page w)) (store w)).

(** A click on the card at [cardEl]: its listener, if the grid has such a
    card and the card has one. *)
Definition click (cardEl : nat * nat) (w : World) : World :=
  match listener_at cardEl (grid (page w)) with
  | Some scoreToPar => pickCard cardEl.1 scoreToPar cardEl w
  | None => w
  end.

(** What can happen: the script starts ([initGame()] at the end of the
    file), a card is clicked, the results are closed, a play-again button is
    clicked, a fetch started by [initGame] with [seed] ends with the CSV text,
    with a status that is not ok, or with a rejection. *)
Inductive Event : Type :=
  | Start (now : Z)
  | Click (cardEl : nat * nat)
  | CloseModal
  | PlayAgain (now : Z)
  | Loaded (seed : Z) (text : jsstring)
  | NotOk (status : Z)
  | Rejected (message : jsstring).

Definition step (w : World) (e : Event) : World :=
  match e with
  | Start now => initGame now w
  | Click cardEl => click cardEl w
  | CloseModal => MkWorld (state w) (closeResultsModal (page w)) (store w)
  | PlayAgain now => handlePlayAgain now w
  | Loaded seed text => loaded seed text w
  | NotOk status =>
      load_failed (lit "Failed to load data/golf_results.csv: " ++ Str.of_int status) w
  | Rejected message => load_failed message w
  end.

Definition run (w : World) (events : list Event) : World := foldl step w events.

End events.

(** The events that do not start a new game. *)
Definition keeps_game (e : Event) : Prop :=
  match e with
  | Start _ | PlayAgain _ => False
  | _ => True
  end.

(** A page with every element there, the results hidden. *)
Definition sample_page : Page :=
  MkPage (Rows []) (Some {[lit "modal"; lit "hidden"]}) [] [] false
         (Some {[lit "scorebug"]}) (Some []) (Some {[lit "hidden"]}).

(** The scorebug: its classes, its text and the classes of its play-again
    button. *)
Definition scorebug_part (p : Page)
    : option (gset jsstring) * option jsstring * option (gset jsstring) :=
  (scorebugEl p, scorebugValue p, scorebugPlayAgain p).

(** The puzzle dealt from [sample_csv] with seed 1. *)
Definition sample_puzzle : Puzzle :=
  match (load_and_build toLowerCase_ascii sample_csv 1 []).1 with
  | Return puzzle => puzzle
  | Throw _ => []
  end.

(** A card as [renderGrid] makes it in a row without a pick. *)
Definition face_down (card : Card) : CardEl :=
  MkCardEl false false (Some (card_score_to_par card)).

(** *** What a run of clicks is measured against *)

(** The card of the puzzle that the grid shows at [cardEl]. *)
Definition card_at (puzzle : Puzzle) (cardEl : nat * nat) : option Card :=
  e ← puzzle !! cardEl.1; cards e !! cardEl.2.

(** The score of the first card clicked in row [r]. *)
Fixpoint first_pick (puzzle : Puzzle) (clicks : list (nat * nat)) (r : nat)
    : option Number :=
  match clicks with
  | [] => None
  | cardEl :: clicks' =>
      match card_at puzzle cardEl with
      | Some card =>
          if decide (cardEl.1 = r) then Some (card_score_to_par card)
          else first_pick puzzle clicks' r
      | None => first_pick puzzle clicks' r
      end
  end.

(** Every card of the grid has a listener, holding the score of the card of
    the puzzle at its place. *)
Definition listening (puzzle : Puzzle) (g : GridContent) : Prop :=
  ∀ cardEl, listener_at cardEl g = card_score_to_par <$> card_at puzzle cardEl.

End Game.

(** ** The NBA roster script (fetch-nba-roster.js, the second script of
    scripts/fetch-mlb-roster.js)

    What the script does with the roster once it is parsed: the id it reads
    off each player's image URL, and the lookup from names to ids that it
    writes. *)

Module Roster.

(** A property of an element of the parsed roster: it may be absent, and of
    any JSON type.  Of a number, an array or an object only what the script
    can tell is kept: whether it is truthy, and the property key it converts
    to. *)
Inductive Value : Type :=
  | Undefined
  | Null
  | Boolean (b : bool)
  | Text (s : jsstring)
  | Opaque (truthy : bool) (key : jsstring).

(** [ToBoolean]. *)
Definition truthy (v : Value) : bool :=
  match v with
  | Undefined | Null => false
  | Boolean b => b
  | Text s => bool_decide (s ≠ [])
  | Opaque t _ => t
  end.

(** [ToPropertyKey]. *)
Definition key_of (v : Value) : jsstring :=
  match v with
  | Undefined => lit "undefined"
  | Null => lit "null"
  | Boolean b => if b then lit "true" else lit "false"
  | Text s => s
  | Opaque _ k => k
  end.

(** [/\/(\d+)\.png$/] tried at one place: a slash, then digits, as many as
    there are ([\d+] is greedy, and no shorter run is followed by a dot), then
    [.png] and the end of the string.  The result is the group. *)
Definition match_here (s : jsstring) : option jsstring :=
  match s with
  | c :: s' =>
      if (c =? 0x2F)%N then
        let ds := Str.take_digits s' in
        if bool_decide (ds ≠ [] ∧ drop (length ds) s' = lit ".png") then Some ds
        else None
      else None
  | [] => None
  end.

(** [s.match(/\/(\d+)\.png$/)]: the leftmost place where it matches. *)
Fixpoint regex_match (s : jsstring) : option jsstring :=
  match match_here s with
  | Some group => Some group
  | None =>
      match s with
      | _ :: s' => regex_match s'
      | [] => None
      end
  end.

(** [None] is [null]. *)
Definition extractPersonIdFromImgUrl (imgURL : Value) : option jsstring :=
  match imgURL with
  | Text s => if bool_decide (s = []) then None else regex_match s
  | _ => None
  end.

Definition NAME_OVERRIDES : list (jsstring * jsstring) :=
  [(lit "Giannis Antetokounmpo", lit "203507")].

(** What the script reads of an element [p] of [players]: [p.name] and
    [p.imgURL]. *)
Record Player : Type := MkPlayer {
  name : Value;
  imgURL : Value;
}.

(** One turn of the loop, on an element that is not [null]. *)
Definition add_player (lookup : RowObject) (p : Player) : RowObject :=
  match extractPersonIdFromImgUrl (imgURL p) with
  | Some id => if truthy (name p) then assign (key_of (name p)) id lookup else lookup
  | None => lookup
  end.

(** The loop; on a [null] element [p.name] throws a TypeError. *)
Fixpoint add_players (lookup : RowObject) (players : list (option Player))
    : option RowObject :=
  match players with
  | [] => Some lookup
  | Some p :: players' => add_players (add_player lookup p) players'
  | None :: _ => None
  end.

(** [Object.assign(target, source)] on objects with string values. *)
Definition Object_assign (target : RowObject) (source : list (jsstring * jsstring))
    : RowObject :=
  foldl (λ target kv, assign kv.1 kv.2 target) target source.

(** The fields of [out] that come from the roster. *)
Record Output : Type := MkOutput {
  count : nat;
  players : RowObject;
}.

(** The message of the TypeError of [null.name] (V8's wording). *)
Definition null_name : jsstring :=
  lit "Cannot read properties of null (reading 'name')".

(** The [.then((json) => ...)] handler, up to [out], on [json.players]:
    [None] is anything but an array. *)
Definition main_then (json_players : option (list (option Player)))
    : Outcome Output :=
  match json_players with
  | None =>
      Throw (lit "Expected " ++ [0x22%N] ++ lit "players" ++ [0x22%N]
             ++ lit " array in roster JSON")
  | Some players =>
      match add_players ∅ players with
      | None => Throw null_name
      | Some lookup =>
          let lookup := Object_assign lookup NAME_OVERRIDES in
          Return (MkOutput (size lookup) lookup)
      end
  end.

(** The id that the lookup holds for [key] after the loop: that of the last
    element with that name and an id. *)
Definition named (key : jsstring) (p : Player) : option jsstring :=
  if truthy (name p) && bool_decide (key_of (name p) = key)
  then extractPersonIdFromImgUrl (imgURL p) else None.

End Roster.

(** ** Writing a CSV text *)

(** The lines joined with line feeds. *)
Fixpoint join_lines (ls : list jsstring) : jsstring :=
  match ls with
  | [] => []
  | [l] => l
  | l :: ls' => l ++ 0xA%N :: join_lines ls'
  end.

(** A field that can be written as it is: no white space at either end, no
    comma, no line feed. *)
Definition clean (f : jsstring) : Prop :=
  trimmed f ∧ (0x2C%N ∉ f) ∧ (0xA%N ∉ f).

Definition is_clean (f : jsstring) : bool :=
  from_option (λ c, negb (Str.is_space c)) true (head f)
  && from_option (λ c, negb (Str.is_space c)) true (last f)
  && bool_decide (0x2C%N ∉ f) && bool_decide (0xA%N ∉ f).

(** The text of a table: the header line, then one line per row. *)
Definition to_csv (header : list jsstring) (rows : list (list jsstring)) : jsstring :=
  join_lines (join_comma header :: (join_comma <$> rows)).

(** The header line of [golf_results.csv]. *)
Definition HEADER : list jsstring :=
  [lit "player_name"; lit "event_name"; lit "year"; lit "score_to_par"; lit "position"].

(** A result as the file holds it, and its fields. *)
Record Written : Type := MkWritten {
  w_player : jsstring;
  w_event : jsstring;
  w_year : Z;
  w_score : Z;
  w_position : jsstring;
}.

(** The fields of its line, the numbers as [String] prints them. *)
Definition fields_of (w : Written) : list jsstring :=
  [w_player w; w_event w; Str.of_int (w_year w); Str.of_int (w_score w); w_position w].

(** The record it is to be read back as. *)
Definition read_back (w : Written) : ResultRecord :=
  MkRecord (w_player w) (w_event w) (Finite (w_year w)) (of_integer (w_score w)).

(** ** More on the shuffle and the builder *)

(** A draw [d] with [Math.floor(d * (i + 1)) = j], for [j <= i < 2^26]: the
    least multiple of 2^-26 that is at least [j / (i + 1)]. *)
Definition draw_to (i j : nat) : Draw :=
  MkDraw ((Z.of_nat j * 2 ^ 26 + Z.of_nat i) / (Z.of_nat i + 1)) 26.

(** A generator that returns the draws of a list in turn, and 0 after the
    last. *)
Definition replay : Rng (list Draw) := λ ds,
  match ds with
  | d :: ds' => (d, ds')
  | [] => (MkDraw 0 0, [])
  end.

(** The records of the players that have at least [CARDS_PER_GOLFER]. *)
Definition of_qualifying (rows : list ResultRecord) : list ResultRecord :=
  filter (λ r, CARDS_PER_GOLFER ≤ length (records_of (player_name r) rows)) rows.

(** ** The session: what the grid shows *)

Module Shown.
Import Game.

(** The column of the first card clicked in row [r]. *)
Fixpoint first_click (puzzle : Puzzle) (clicks : list (nat * nat)) (r : nat)
    : option nat :=
  match clicks with
  | [] => None
  | cardEl :: clicks' =>
      match card_at puzzle cardEl with
      | Some _ =>
          if decide (cardEl.1 = r) then Some cardEl.2
          else first_click puzzle clicks' r
      | None => first_click puzzle clicks' r
      end
  end.

(** The row of a golfer in which no card has been clicked (cards face down),
    or in which the card in column [col] was the first clicked (cards
    flipped, that card picked). *)
Definition shown_row (golfer : PlayerEntry) (click : option nat) : RowEl :=
  match click with
  | None => MkRowEl false (face_down <$> cards golfer)
  | Some col =>
      MkRowEl true
        (imap (λ c card, MkCardEl true (bool_decide (c = col))
                                  (Some (card_score_to_par card)))
              (cards golfer))
  end.

End Shown.

(** * Properties *)

(** ** Runs on concrete inputs *)

Example fl_ties_to_even :
  (Num.fl (2 ^ 53 + 1), Num.fl (2 ^ 53 + 3), Num.fl (- (2 ^ 53 + 3)))
  = (2 ^ 53, 2 ^ 53 + 4, - (2 ^ 53 + 4))%Z.
Proof. reflexivity. Qed.

(** The first five values of [mulberry32(42)], times 2^32; the first one is
    0.6011037519201636. *)
Example mulberry32_seed_42 :
  dnum <$> (nth_draw 42 <$> seq 0 5)
  = [2581720956; 1925393290; 3661312704; 2876485805; 750819978]%Z.
Proof. reflexivity. Qed.

(** Past 2^53 the rounding of the product decides the index: the exact
    quotient here is 2^30 - 1. *)
Example floor_mul_rounds :
  floor_mul (MkDraw (2 ^ 31 - 1) 32) (2 ^ 31 + 1) = (2 ^ 30)%Z
  ∧ ((2 ^ 31 - 1) * (2 ^ 31 + 1) / 2 ^ 32 = 2 ^ 30 - 1)%Z.
Proof. split; reflexivity. Qed.

Example shuffle_seed_42 :
  (shuffleWithRng [1; 2; 3; 4; 5; 6; 7] mulberry32_call 42%Z).1
  = [4; 2; 1; 6; 7; 3; 5].
Proof. reflexivity. Qed.

Example buildPuzzle_sample :
  ∃ puzzle,
    (buildPuzzle sample_rows 1234 []).1 = Return puzzle
    ∧ map entry_player_name puzzle = [lit "Di"; lit "Bob"; lit "Cy"; lit "Ann"]
    ∧ map (λ e, map card_year (cards e)) puzzle
      = map (map Finite)
            [[2021; 2022; 2020; 2023]; [2021; 2023; 2022; 2020];
             [2022; 2023; 2021; 2020]; [2022; 2020; 2021; 2023]]%Z.
Proof. eexists. split; [vm_compute; reflexivity|]. split; reflexivity. Qed.

Example buildPuzzle_three_players :
  buildPuzzle (take 15 sample_rows) 1234 []
  = (Throw (lit "Need at least 4 golfers with 4+ events. Found 3."), [1234%Z]).
Proof. vm_compute. reflexivity. Qed.

Example parseInt_runs :
  (parseInt (Some (lit " -12abc")), parseInt (Some (lit "+7")),
   parseInt (Some (lit "0x10")), parseInt (Some (lit "abc")), parseInt None,
   parseInt (Some (lit "9007199254740993")))
  = (Finite (-12), Finite 7, Finite 0, NaN, NaN, Finite 9007199254740992).
Proof. vm_compute. reflexivity. Qed.

(** A numeral beyond the range of doubles. *)
Example parseInt_overflow :
  parseInt (Some (lit "-1" ++ replicate 400 0x30%N)) = Infinity true.
Proof. vm_compute. reflexivity. Qed.

Example parseCSV_run :
  parseCSV (lit "name , year" ++ [13; 10]%N ++ lit "Ann,2021,x" ++ [10]%N
            ++ lit " Bob " ++ [10; 10]%N)
  = [ {[ lit "name" := lit "Ann"; lit "year" := lit "2021" ]};
      {[ lit "name" := lit "Bob"; lit "year" := [] ]} ].
Proof. vm_compute. reflexivity. Qed.

Example formatScore_runs :
  (formatScore 0, formatScore 12, formatScore (-3))
  = (lit "E", lit "+12", lit "-3").
Proof. reflexivity. Qed.

(** [String] past the safe integers: the digits of the double, and the
    exponent form from 10^21. *)
Example String_runs :
  (Str.of_int 0, Str.of_int (-12), Str.of_int (2 ^ 53), Str.of_int (2 ^ 60),
   Str.of_int (10 ^ 21), Str.of_int (- 2 ^ 70), Str.of_int (10 ^ 23),
   Str.of_int (2 ^ 1024))
  = (lit "0", lit "-12", lit "9007199254740992", lit "1152921504606847000",
     lit "1e+21", lit "-1.1805916207174113e+21", lit "1e+23", lit "Infinity").
Proof. vm_compute. reflexivity. Qed.

Example getScoreBackgroundColor_runs :
  (getScoreBackgroundColor (-12), getScoreBackgroundColor 0,
   getScoreBackgroundColor 7, getScoreBackgroundColor 16)
  = (lit "hsl(152, 42%, 52%)", lit "hsl(48, 52%, 62%)",
     lit "hsl(0, 55%, 50%)", lit "hsl(0, 48%, 58%)").
Proof. reflexivity. Qed.

(** ** Number arithmetic *)

Module NumFacts.
Import Num.
Local Open Scope Z_scope.

Lemma ToUint32_range z : 0 <= ToUint32 z < 2 ^ 32.
Proof. unfold ToUint32. apply Z.mod_pos_bound. lia. Qed.

Lemma ToUint32_small z : 0 <= z < 2 ^ 32 -> ToUint32 z = z.
Proof. intros. unfold ToUint32. by apply Z.mod_small. Qed.

Lemma ToInt32_range z : - 2 ^ 31 <= ToInt32 z < 2 ^ 31.
Proof.
  unfold ToInt32. pose proof (Z.mod_pos_bound z (2 ^ 32) ltac:(lia)).
  case_match; lia.
Qed.

Lemma ToUint32_ToInt32 z : ToUint32 (ToInt32 z) = ToUint32 z.
Proof.
  unfold ToUint32, ToInt32. case_match.
  - rewrite <-(Z.mod_add _ 1 (2 ^ 32)) by lia.
    rewrite <-(Z.mod_mod z (2 ^ 32)) at 2 by lia. f_equal. lia.
  - apply Z.mod_mod. lia.
Qed.

Lemma mod_lxor a b :
  Z.lxor a b mod 2 ^ 32 = Z.lxor (a mod 2 ^ 32) (b mod 2 ^ 32).
Proof.
  apply Z.bits_inj'. intros i Hi.
  rewrite Z.lxor_spec, !Z.testbit_mod_pow2, Z.lxor_spec by lia.
  by destruct (i <? 32).
Qed.

Lemma mod_lor a b :
  Z.lor a b mod 2 ^ 32 = Z.lor (a mod 2 ^ 32) (b mod 2 ^ 32).
Proof.
  apply Z.bits_inj'. intros i Hi.
  rewrite Z.lor_spec, !Z.testbit_mod_pow2, Z.lor_spec by lia.
  by destruct (i <? 32).
Qed.

Lemma ToUint32_xor a b :
  ToUint32 (xor a b) = Z.lxor (ToUint32 a) (ToUint32 b).
Proof.
  unfold xor. rewrite ToUint32_ToInt32. unfold ToUint32 at 1.
  rewrite mod_lxor. fold (ToUint32 (ToInt32 a)) (ToUint32 (ToInt32 b)).
  by rewrite !ToUint32_ToInt32.
Qed.

Lemma ToUint32_or a b :
  ToUint32 (or a b) = Z.lor (ToUint32 a) (ToUint32 b).
Proof.
  unfold or. rewrite ToUint32_ToInt32. unfold ToUint32 at 1.
  rewrite mod_lor. fold (ToUint32 (ToInt32 a)) (ToUint32 (ToInt32 b)).
  by rewrite !ToUint32_ToInt32.
Qed.

Lemma ToUint32_imul a b :
  ToUint32 (imul a b) = (ToUint32 a * ToUint32 b) mod 2 ^ 32.
Proof.
  unfold imul. rewrite ToUint32_ToInt32. unfold ToUint32 at 1.
  rewrite Z.mul_mod by lia.
  fold (ToUint32 (ToInt32 a)) (ToUint32 (ToInt32 b)).
  by rewrite !ToUint32_ToInt32.
Qed.

Lemma shiftr_range a n : 0 <= a < 2 ^ 32 -> 0 <= n -> 0 <= Z.shiftr a n < 2 ^ 32.
Proof.
  intros Ha Hn. rewrite Z.shiftr_div_pow2 by done. split.
  - apply Z.div_pos; lia.
  - apply Z.le_lt_trans with a; [|lia].
    apply Z.div_le_upper_bound; [lia|]. nia.
Qed.

Lemma ushr_range a n : 0 <= ushr a n < 2 ^ 32.
Proof.
  apply shiftr_range; [apply ToUint32_range|]. apply Z.mod_pos_bound. lia.
Qed.

(** Integers below 2^53 in magnitude are doubles. *)
Lemma fl_exact z : Z.abs z < 2 ^ 53 -> fl z = z.
Proof.
  intros Hz. unfold fl, fl_pos.
  destruct (Z.ltb_spec (Z.abs z) (2 ^ 53)); lia.
Qed.

Lemma add_exact a b : Z.abs (a + b) < 2 ^ 53 -> add a b = a + b.
Proof. apply fl_exact. Qed.

(** Rounding an integer to a double moves it by at most half a unit in
    the last place: a relative error of at most 2^-53. *)
Lemma fl_pos_bounds z :
  0 <= z -> 0 <= fl_pos z /\ fl_pos z * 2 ^ 53 <= z * (2 ^ 53 + 1).
Proof.
  intros Hz. unfold fl_pos.
  destruct (Z.ltb_spec z (2 ^ 53)) as [|Hbig]; [lia|].
  pose proof (Z.log2_spec z ltac:(lia)) as [Hlo _].
  assert (53 <= Z.log2 z) as Hlog by (apply Z.log2_le_pow2; lia).
  set (e := Z.log2 z - 52) in *.
  replace (Z.log2 z) with (52 + (e - 1) + 1) in Hlo by lia.
  rewrite !Z.pow_add_r in Hlo by lia.
  rewrite !Z.shiftl_mul_pow2, Z.shiftr_div_pow2 by lia.
  replace (2 ^ e) with (2 * 2 ^ (e - 1))
    by (rewrite <-Z.pow_succ_r by lia; f_equal; lia).
  assert (0 < 2 ^ (e - 1)) as Hhalf by (apply Z.pow_pos_nonneg; lia).
  generalize dependent (2 ^ (e - 1)). intros half Hlo Hhalf.
  pose proof (Z.div_mod z (2 * half) ltac:(lia)) as Hdm.
  pose proof (Z.mod_pos_bound z (2 * half) ltac:(lia)) as Hr.
  assert (0 <= z / (2 * half)) as Hq by (apply Z.div_pos; lia).
  generalize dependent (z / (2 * half)). intros q Hdm Hq.
  repeat case_match; split; nia.
Qed.

Lemma fl_nonneg z : 0 <= z -> 0 <= fl z.
Proof.
  intros Hz. unfold fl. pose proof (fl_pos_bounds (Z.abs z) ltac:(lia)). nia.
Qed.

Lemma fl_bound z : 0 <= z -> fl z * 2 ^ 53 <= z * (2 ^ 53 + 1).
Proof.
  intros Hz. unfold fl.
  destruct (decide (z = 0)) as [->|]; [done|].
  rewrite Z.sgn_pos, Z.abs_eq by lia.
  rewrite Z.mul_1_l. by apply fl_pos_bounds.
Qed.

(** Rounding does not come below 2^53 from above. *)
Lemma fl_large z : 2 ^ 53 <= z -> 2 ^ 53 <= fl z.
Proof.
  intros Hz. unfold fl. rewrite Z.sgn_pos, Z.abs_eq, Z.mul_1_l by lia.
  unfold fl_pos. destruct (Z.ltb_spec z (2 ^ 53)) as [|_]; [lia|].
  pose proof (Z.log2_spec z ltac:(lia)) as [Hlo _].
  assert (53 <= Z.log2 z) as Hlog by (apply Z.log2_le_pow2; lia).
  set (e := Z.log2 z - 52) in *.
  replace (Z.log2 z) with (52 + (e - 1) + 1) in Hlo by lia.
  rewrite !Z.pow_add_r in Hlo by lia.
  rewrite !Z.shiftl_mul_pow2, Z.shiftr_div_pow2 by lia.
  replace (2 ^ e) with (2 * 2 ^ (e - 1))
    by (rewrite <-Z.pow_succ_r by lia; f_equal; lia).
  assert (0 < 2 ^ (e - 1)) as Hhalf by (apply Z.pow_pos_nonneg; lia).
  generalize dependent (2 ^ (e - 1)). intros half Hlo Hhalf.
  pose proof (Z.div_mod z (2 * half) ltac:(lia)) as Hdm.
  pose proof (Z.mod_pos_bound z (2 * half) ltac:(lia)) as Hr.
  assert (0 <= z / (2 * half)) as Hq by (apply Z.div_pos; lia).
  generalize dependent (z / (2 * half)). intros q Hdm Hq.
  repeat case_match; nia.
Qed.

(** Only a safe integer itself rounds to it. *)
Lemma fl_safe x w : 0 <= x < 2 ^ 53 -> 0 <= w -> fl w = x -> w = x.
Proof.
  intros Hx Hw Hfl. destruct (Z.lt_ge_cases w (2 ^ 53)) as [Hlt|Hge].
  - rewrite fl_exact in Hfl by lia. done.
  - pose proof (fl_large w Hge). lia.
Qed.

End NumFacts.

(** ** Draws *)

Section draws.
Local Open Scope Z_scope.

(** [Math.floor(rng() * (i + 1))] is an index in [0, i]. *)
Lemma floor_mul_range d n :
  unit_draw d -> 1 <= n -> 0 <= floor_mul d n < n.
Proof.
  intros (Hexp & [Hlo Hhi] & Hdouble) Hn. unfold floor_mul.
  assert (0 < 2 ^ dexp d) as Hpow by (apply Z.pow_pos_nonneg; lia).
  pose proof (NumFacts.fl_nonneg (dnum d * n) ltac:(nia)) as Hfl0.
  pose proof (NumFacts.fl_bound (dnum d * n) ltac:(nia)) as Hfl.
  split; [apply Z.div_pos; lia|].
  apply Z.div_lt_upper_bound; [done|].
  generalize dependent (Num.fl (dnum d * n)). intros f Hf0 Hf.
  generalize dependent (2 ^ dexp d). intros p Hhi Hp.
  nia.
Qed.

(** [floor_mul d n] is the floor of the rounded product; while the product
    needs no rounding it is the floor of [d * n]. *)
Lemma floor_mul_floor d n :
  unit_draw d -> 1 <= n ->
  (floor_mul d n * 2 ^ dexp d <= Num.fl (dnum d * n)
   < (floor_mul d n + 1) * 2 ^ dexp d)
  ∧ (dnum d * n < 2 ^ 53 ->
     floor_mul d n = Qfloor (draw_value d * inject_Z n)).
Proof.
  intros (Hexp & [Hlo Hhi] & Hdouble) Hn. unfold floor_mul.
  assert (0 < 2 ^ dexp d) as Hpow by (apply Z.pow_pos_nonneg; lia).
  split.
  - pose proof (Z.div_mod (Num.fl (dnum d * n)) (2 ^ dexp d) ltac:(lia)).
    pose proof (Z.mod_pos_bound (Num.fl (dnum d * n)) (2 ^ dexp d) Hpow). lia.
  - intros Hsmall. rewrite NumFacts.fl_exact by nia.
    unfold draw_value, Qfloor, Qmult, inject_Z. simpl.
    by rewrite Pos.mul_1_r, Z2Pos.id.
Qed.

Lemma unit_draw_value d :
  unit_draw d -> (0 <= draw_value d)%Q /\ (draw_value d < 1)%Q.
Proof.
  intros (Hexp & [Hlo Hhi] & _). unfold draw_value, Qle, Qlt. simpl.
  rewrite Z2Pos.id by (apply Z.pow_pos_nonneg; lia). lia.
Qed.

End draws.

(** ** mulberry32 *)

Section mulberry32_facts.
Local Open Scope Z_scope.
Import Num NumFacts.

Lemma mulberry32_call_seed seed :
  (mulberry32_call seed).2 = Num.add seed 0x6d2b79f5.
Proof. done. Qed.

(** The value returned is an unsigned 32-bit integer over 2^32. *)
Lemma mulberry32_call_uint32 seed :
  dexp (mulberry32_call seed).1 = 32
  /\ 0 <= dnum (mulberry32_call seed).1 < 2 ^ 32.
Proof. split; [done|]. apply ushr_range. Qed.

Lemma mulberry32_call_unit seed : unit_draw (mulberry32_call seed).1.
Proof.
  destruct (mulberry32_call_uint32 seed) as [He Hn].
  unfold unit_draw. rewrite He. lia.
Qed.

(** The source's signed 32-bit operators compute the mixing of the
    unsigned 32-bit state. *)
Lemma mulberry32_call_mix seed :
  dnum (mulberry32_call seed).1 = mix32 (ToUint32 (Num.add seed 0x6d2b79f5)).
Proof.
  unfold mulberry32_call, mix32. cbn [fst dnum].
  generalize (Num.add seed 0x6d2b79f5). intros t0.
  assert (∀ a n, 0 <= n < 32 -> ToUint32 (ushr a n) = Z.shiftr (ToUint32 a) n)
    as Hushr.
  { intros a n Hn. rewrite ToUint32_small by apply ushr_range.
    unfold ushr. by rewrite (ToUint32_small n), (Z.mod_small n) by lia. }
  set (t1 := imul (xor t0 (ushr t0 15)) (or t0 1)).
  assert (ToUint32 t1
          = (Z.lxor (ToUint32 t0) (Z.shiftr (ToUint32 t0) 15)
             * Z.lor (ToUint32 t0) 1) mod 2 ^ 32) as H1.
  { unfold t1. by rewrite ToUint32_imul, ToUint32_xor, ToUint32_or, Hushr. }
  set (m := imul (xor t1 (ushr t1 7)) (or t1 61)).
  assert (ToUint32 m
          = (Z.lxor (ToUint32 t1) (Z.shiftr (ToUint32 t1) 7)
             * Z.lor (ToUint32 t1) 61) mod 2 ^ 32) as Hm.
  { unfold m. by rewrite ToUint32_imul, ToUint32_xor, ToUint32_or, Hushr. }
  assert (Num.add t1 m = t1 + m) as ->.
  { apply add_exact.
    assert (∀ a b, - 2 ^ 31 <= imul a b < 2 ^ 31) as Himul
      by (intros; apply ToInt32_range).
    pose proof (Himul (xor t0 (ushr t0 15)) (or t0 1)) as Ht1.
    pose proof (Himul (xor t1 (ushr t1 7)) (or t1 61)) as Hm'.
    change (- 2 ^ 31 <= t1 < 2 ^ 31) in Ht1.
    change (- 2 ^ 31 <= m < 2 ^ 31) in Hm'. lia. }
  set (t2 := xor t1 (t1 + m)).
  assert (ToUint32 t2
          = Z.lxor (ToUint32 t1) ((ToUint32 t1 + ToUint32 m) mod 2 ^ 32)) as H2.
  { unfold t2. rewrite ToUint32_xor. f_equal.
    unfold ToUint32. apply Z.add_mod. lia. }
  unfold ushr at 1. change (ToUint32 0 mod 32) with 0. rewrite Z.shiftr_0_r.
  rewrite ToUint32_xor, Hushr, H2, Hm, H1 by lia. done.
Qed.

(** While the state stays below 2^53 every addition is exact. *)
Lemma seed_after_exact seed n :
  0 <= seed ->
  seed + Z.of_nat n * 0x6d2b79f5 < 2 ^ 53 ->
  seed_after n seed = seed + Z.of_nat n * 0x6d2b79f5.
Proof.
  intros Hseed. induction n as [|n IH]; intros Hn; cbn [seed_after]; [lia|].
  rewrite mulberry32_call_seed, IH by lia.
  rewrite add_exact; lia.
Qed.

Lemma seed_after_shift n seed :
  seed_after n (mulberry32_call seed).2 = seed_after (S n) seed.
Proof. induction n as [|n IH]; [done|]. simpl in *. by rewrite IH. Qed.

Lemma nth_draw_shift n seed :
  nth_draw (mulberry32_call seed).2 n = nth_draw seed (S n).
Proof. unfold nth_draw. by rewrite seed_after_shift. Qed.

(** The closure created for [seed] returns [nth_draw seed 0],
    [nth_draw seed 1], ... whatever else the store holds. *)
Lemma closure_calls l seed n (σ : Store) :
  σ !! l = Some seed ->
  calls (mulberry32_closure l) n σ
  = (nth_draw seed <$> seq 0 n, <[l := seed_after n seed]> σ).
Proof.
  revert seed σ. induction n as [|n IH]; intros seed σ Hl.
  - simpl. unfold mret, State_ret. by rewrite list_insert_id.
  - cbn [calls]. unfold mbind, State_bind, mulberry32_closure at 1.
    rewrite (list_lookup_total_correct _ _ _ Hl).
    destruct (mulberry32_call seed) as [d seed'] eqn:Hcall.
    rewrite (IH seed').
    2:{ apply list_lookup_insert_eq. by eapply lookup_lt_Some. }
    unfold mret, State_ret. rewrite list_insert_insert_eq.
    replace seed' with (mulberry32_call seed).2 by by rewrite Hcall.
    rewrite seed_after_shift. f_equal.
    cbn [seq fmap list_fmap]. f_equal.
    + unfold nth_draw. cbn [seed_after]. by rewrite Hcall.
    + rewrite <-fmap_S_seq, <-list_fmap_compose. apply list_fmap_ext.
      intros _ k _. unfold compose. by rewrite nth_draw_shift.
Qed.

Lemma mulberry32_cell seed (σ : Store) :
  (mulberry32 seed σ).1 = mulberry32_closure (length σ)
  /\ (mulberry32 seed σ).2 = σ ++ [seed]
  /\ (mulberry32 seed σ).2 !! length σ = Some seed.
Proof. repeat split. simpl. apply list_lookup_middle. done. Qed.

(** C5.  For a 32-bit unsigned seed, the value of every call of the
    generator is an unsigned 32-bit integer divided by 2^32, hence in
    [0, 1).  Each call adds 0x6d2b79f5 to the captured state (exactly, as
    long as the state is below 2^53) and returns the mixing [mix32] of the
    state's low 32 bits.  The draws of the closure made by
    [mulberry32 seed] are [nth_draw seed 0], [nth_draw seed 1], ... in any
    store: a function of the seed alone. *)
Theorem mulberry32_draws (seed : Z) (n : nat) :
  0 <= seed < 2 ^ 32 ->
  ((0 <= draw_value (nth_draw seed n))%Q /\ (draw_value (nth_draw seed n) < 1)%Q)
  /\ (dexp (nth_draw seed n) = 32 /\ 0 <= dnum (nth_draw seed n) < 2 ^ 32)
  /\ seed_after (S n) seed = Num.add (seed_after n seed) 0x6d2b79f5
  /\ dnum (nth_draw seed n) = mix32 (Num.ToUint32 (seed_after (S n) seed))
  /\ (seed + Z.of_nat (S n) * 0x6d2b79f5 < 2 ^ 53 ->
      seed_after (S n) seed = seed + Z.of_nat (S n) * 0x6d2b79f5)
  /\ (∀ (σ : Store) (k : nat),
        (calls (mulberry32 seed σ).1 k (mulberry32 seed σ).2).1
        = nth_draw seed <$> seq 0 k).
Proof.
  intros Hseed. unfold nth_draw. split_and!.
  - apply unit_draw_value, mulberry32_call_unit.
  - apply unit_draw_value, mulberry32_call_unit.
  - apply mulberry32_call_uint32.
  - apply mulberry32_call_uint32.
  - apply mulberry32_call_uint32.
  - done.
  - by rewrite mulberry32_call_mix.
  - intros Hn. apply seed_after_exact; lia.
  - intros σ k. destruct (mulberry32_cell seed σ) as (-> & _ & Hcell).
    by rewrite (closure_calls _ _ _ _ Hcell).
Qed.

Lemma mulberry32_draws_witness :
  (draw_value (nth_draw 42 0) < 1)%Q
  /\ seed_after 3 42 = 42 + 3 * 0x6d2b79f5.
Proof.
  pose proof (mulberry32_draws 42 0 ltac:(lia)) as H0.
  pose proof (mulberry32_draws 42 2 ltac:(lia)) as H2.
  split; [apply H0|]. apply H2. done.
Defined.

End mulberry32_facts.

(** ** shuffleWithRng *)

Section shuffle_facts.
Context {W T : Type}.
Implicit Types (out arr : list T) (rng : Rng W) (w : W).

Lemma insert_head_Permutation out j (x b : T) :
  out !! j = Some b -> b :: <[j := x]> out ≡ₚ x :: out.
Proof.
  revert j. induction out as [|y out IH]; intros [|j] Hj; simplify_eq/=.
  - apply Permutation_swap.
  - rewrite Permutation_swap, (IH _ Hj). apply Permutation_swap.
Qed.

Lemma swap_Permutation i j out : swap i j out ≡ₚ out.
Proof.
  unfold swap. destruct (out !! i) as [a|] eqn:Hi; [|done].
  destruct (out !! j) as [b|] eqn:Hj; [|done].
  revert i j Hi Hj. induction out as [|y out IH]; intros [|i] [|j] Hi Hj;
    simplify_eq/=.
  - done.
  - by apply insert_head_Permutation.
  - by apply insert_head_Permutation.
  - by rewrite (IH _ _ Hi Hj).
Qed.

Lemma swap_length i j out : length (swap i j out) = length out.
Proof. apply Permutation_length, swap_Permutation. Qed.

(** [swap] exchanges what is at [i] and at [j] and leaves the rest. *)
Lemma swap_lookup i j out :
  i < length out -> j < length out ->
  swap i j out !! i = out !! j
  ∧ swap i j out !! j = out !! i
  ∧ ∀ k, k ≠ i -> k ≠ j -> swap i j out !! k = out !! k.
Proof.
  intros Hi Hj. unfold swap.
  destruct (lookup_lt_is_Some_2 out i Hi) as [a Ha].
  destruct (lookup_lt_is_Some_2 out j Hj) as [b Hb].
  rewrite Ha, Hb. split_and!.
  - destruct (decide (i = j)) as [->|Hne].
    + rewrite list_lookup_insert_eq by (by rewrite length_insert). congruence.
    + rewrite list_lookup_insert_ne, list_lookup_insert_eq by done. done.
  - by rewrite list_lookup_insert_eq by (by rewrite length_insert).
  - intros k Hki Hkj. by rewrite !list_lookup_insert_ne.
Qed.

Lemma calls_length rng n w : length (calls rng n w).1 = n.
Proof.
  revert w. induction n as [|n IH]; intros w; [done|].
  cbn [calls]. unfold mbind, State_bind. destruct (rng w) as [d w'].
  specialize (IH w'). destruct (calls rng n w') as [ds w'']. simpl in *. lia.
Qed.

Lemma calls_unit rng n w :
  (∀ w, unit_draw (rng w).1) -> Forall unit_draw (calls rng n w).1.
Proof.
  intros Hrng. revert w. induction n as [|n IH]; intros w; [by constructor|].
  cbn [calls]. unfold mbind, State_bind. specialize (Hrng w).
  destruct (rng w) as [d w']. specialize (IH w').
  destruct (calls rng n w') as [ds w'']. simpl in *. by constructor.
Qed.

(** The loop entered at [i] performs the exchanges for [i], [i - 1], ..., 1
    with the next [i] draws, in this order. *)
Lemma shuffle_loop_exchanges rng i out w :
  shuffle_loop rng i out w
  = (foldl exchange out (zip (reverse (seq 1 i)) (calls rng i w).1),
     (calls rng i w).2).
Proof.
  revert out w. induction i as [|i IH]; intros out w; [done|].
  cbn [shuffle_loop calls]. unfold mbind, State_bind.
  destruct (rng w) as [d w']. rewrite IH.
  destruct (calls rng i w') as [ds w'']. cbn [fst snd mret State_ret].
  rewrite seq_S, reverse_app. simpl. done.
Qed.

Lemma foldl_exchange_Permutation (steps : list (nat * Draw)) out :
  foldl exchange out steps ≡ₚ out.
Proof.
  revert out. induction steps as [|s steps IH]; intros out; [done|].
  simpl. rewrite IH. apply swap_Permutation.
Qed.

Lemma shuffleWithRng_fisher_yates arr rng w :
  shuffleWithRng arr rng w
  = (fisher_yates (calls rng (length arr - 1) w).1 arr,
     (calls rng (length arr - 1) w).2).
Proof. apply shuffle_loop_exchanges. Qed.

Lemma shuffleWithRng_Permutation arr rng w : (shuffleWithRng arr rng w).1 ≡ₚ arr.
Proof. rewrite shuffleWithRng_fisher_yates. apply foldl_exchange_Permutation. Qed.

Lemma shuffleWithRng_length arr rng w :
  length (shuffleWithRng arr rng w).1 = length arr.
Proof. apply Permutation_length, shuffleWithRng_Permutation. Qed.


Lemma read_last (h : list (list T)) cur w :
  InPlace.read (InPlace.MkMem (h ++ [cur]) w) (length h) = cur.
Proof.
  unfold InPlace.read. simpl. apply list_lookup_total_correct.
  by apply list_lookup_middle.
Qed.

(** The loop on the array object at [out] changes that array exactly as the
    loop on values does, and nothing else. *)
Lemma in_place_loop rng i (h : list (list T)) cur w :
  InPlace.shuffle_loop rng (length h) i (InPlace.MkMem (h ++ [cur]) w)
  = ((), InPlace.MkMem (h ++ [(shuffle_loop rng i cur w).1])
                       (shuffle_loop rng i cur w).2).
Proof.
  revert cur w. induction i as [|i IH]; intros cur w; [done|].
  cbn [InPlace.shuffle_loop shuffle_loop].
  unfold mbind, State_bind, InPlace.call, InPlace.swap_at. simpl.
  destruct (rng w) as [d w']. rewrite read_last. simpl.
  rewrite insert_app_r_alt, Nat.sub_diag by done. simpl. apply IH.
Qed.

Lemma in_place_shuffleWithRng rng (arr : nat) (m : InPlace.Mem W T) :
  InPlace.shuffleWithRng arr rng m
  = (length (InPlace.arrays m),
     InPlace.MkMem
       (InPlace.arrays m
        ++ [(shuffleWithRng (InPlace.read m arr) rng (InPlace.world m)).1])
       (shuffleWithRng (InPlace.read m arr) rng (InPlace.world m)).2).
Proof.
  destruct m as [h w]. unfold InPlace.shuffleWithRng, InPlace.spread,
    InPlace.length_of, mbind, State_bind. cbn [InPlace.arrays InPlace.world].
  rewrite read_last, in_place_loop. done.
Qed.

(** The arrays between the steps of a run of exchanges. *)
Lemma exchange_trace (steps : list (nat * Draw)) out :
  ∃ outs : list (list T),
    length outs = S (length steps)
    ∧ outs !! 0 = Some out
    ∧ outs !! length steps = Some (foldl exchange out steps)
    ∧ ∀ t step before after,
        steps !! t = Some step -> outs !! t = Some before ->
        outs !! S t = Some after ->
        length before = length out ∧ after = exchange before step.
Proof.
  revert out. induction steps as [|s steps IH]; intros out.
  - exists [out]. split_and!; done.
  - destruct (IH (exchange out s)) as (outs & Hlen & Hfirst & Hlast & Hstep).
    exists (out :: outs). split_and!; [simpl; lia|done|done|].
    intros [|t] step before after Hs Hb Ha; simpl in Hs, Hb, Ha.
    + by simplify_eq.
    + destruct (Hstep _ _ _ _ Hs Hb Ha) as [Hl ->]. split; [|done].
      rewrite Hl. apply swap_length.
Qed.

Lemma exchange_steps_range (ds : list Draw) n :
  Forall unit_draw ds ->
  Forall (λ step : nat * Draw,
            1 ≤ step.1 < n
            ∧ (0 <= floor_mul step.2 (Z.of_nat step.1 + 1) <= Z.of_nat step.1)%Z)
         (zip (reverse (seq 1 (n - 1))) ds).
Proof.
  intros Hds. apply Forall_forall. intros [i d] Hin.
  pose proof (elem_of_zip_l _ _ _ _ Hin) as Hi.
  pose proof (elem_of_zip_r _ _ _ _ Hin) as Hd.
  rewrite elem_of_reverse, elem_of_seq in Hi.
  rewrite Forall_forall in Hds. specialize (Hds _ Hd). simpl.
  pose proof (floor_mul_range d (Z.of_nat i + 1) Hds ltac:(lia)). lia.
Qed.

End shuffle_facts.

(** C4.  Called on an existing array [arr] with a generator whose draws lie in
    [0, 1), [shuffleWithRng] returns a new array (a fresh address) and leaves
    every array that existed, [arr] included, as it was.  The new array is a
    permutation of [arr].  The generator is called exactly [length - 1]
    times, once per index [i] from the last down to 1, and the step for [i]
    exchanges positions [i] and [floor(draw * (i + 1))], an index in [0, i].
    The last part spells the steps out on the arrays [outs] between them:
    step [t] works at [i = length - 1 - t] with draw [d]; its index [j] is
    the floor of the product [d * (i + 1)] as a double (of the exact
    product while that is below 2^53); the array after the step has at [i]
    what was at [j], at [j] what was at [i], and everywhere else what was
    there. *)
Theorem shuffleWithRng_permutes {W T} (rng : Rng W) (arr : nat)
    (m : InPlace.Mem W T) :
  (∀ w, unit_draw (rng w).1) ->
  arr < length (InPlace.arrays m) ->
  let items := InPlace.read m arr in
  let out := (InPlace.shuffleWithRng arr rng m).1 in
  let m' := (InPlace.shuffleWithRng arr rng m).2 in
  let ds := (calls rng (length items - 1) (InPlace.world m)).1 in
  (out ≠ arr ∧ out = length (InPlace.arrays m)
   ∧ InPlace.arrays m' = InPlace.arrays m ++ [InPlace.read m' out]
   ∧ InPlace.read m' arr = items)
  ∧ InPlace.read m' out ≡ₚ items
  ∧ (length ds = length items - 1
     ∧ InPlace.world m' = (calls rng (length items - 1) (InPlace.world m)).2)
  ∧ (InPlace.read m' out = fisher_yates ds items
     ∧ Forall (λ step : nat * Draw,
                 1 ≤ step.1 < length items
                 ∧ (0 <= floor_mul step.2 (Z.of_nat step.1 + 1) <= Z.of_nat step.1)%Z)
              (zip (reverse (seq 1 (length items - 1))) ds))
  ∧ shuffleWithRng items rng (InPlace.world m)
    = (InPlace.read m' out, InPlace.world m')
  ∧ ∃ outs : list (list T),
      length outs = S (length ds)
      ∧ outs !! 0 = Some items
      ∧ outs !! length ds = Some (InPlace.read m' out)
      ∧ ∀ (t : nat) (d : Draw) (before after : list T),
          ds !! t = Some d -> outs !! t = Some before ->
          outs !! S t = Some after ->
          let i := length items - 1 - t in
          ∃ j : nat,
            (Z.of_nat j * 2 ^ dexp d <= Num.fl (dnum d * (Z.of_nat i + 1))
             < (Z.of_nat j + 1) * 2 ^ dexp d)%Z
            ∧ ((dnum d * (Z.of_nat i + 1) < 2 ^ 53)%Z ->
               Z.of_nat j = Qfloor (draw_value d * inject_Z (Z.of_nat i + 1)))
            ∧ j ≤ i < length before
            ∧ length after = length before
            ∧ after !! i = before !! j
            ∧ after !! j = before !! i
            ∧ ∀ k, k ≠ i -> k ≠ j -> after !! k = before !! k.
Proof.
  intros Hrng Harr items out m' ds. subst out m'.
  rewrite in_place_shuffleWithRng. cbn [fst snd InPlace.arrays InPlace.world].
  fold items. rewrite read_last.
  split_and!.
  - lia.
  - done.
  - done.
  - unfold items, InPlace.read. simpl.
    by rewrite !list_lookup_total_alt, lookup_app_l.
  - apply shuffleWithRng_Permutation.
  - apply calls_length.
  - by rewrite shuffleWithRng_fisher_yates.
  - by rewrite shuffleWithRng_fisher_yates.
  - apply exchange_steps_range, calls_unit, Hrng.
  - by destruct (shuffleWithRng items rng (InPlace.world m)).
  - assert (length ds = length items - 1) as Hlen by apply calls_length.
    assert (Forall unit_draw ds) as Hunit by apply calls_unit, Hrng.
    destruct (exchange_trace (zip (reverse (seq 1 (length items - 1))) ds) items)
      as (outs & Houts & Hfirst & Hlast & Hstep).
    rewrite length_zip, length_reverse, length_seq, Hlen, Nat.min_id in Houts, Hlast.
    exists outs. rewrite Hlen. split_and!; [done|done| |].
    { rewrite shuffleWithRng_fisher_yates. exact Hlast. }
    intros t d before after Hd Hb Ha. set (i := length items - 1 - t).
    pose proof (lookup_lt_Some _ _ _ Hd) as Ht.
    assert (zip (reverse (seq 1 (length items - 1))) ds !! t = Some (i, d)) as Hs.
    { rewrite lookup_zip_with, reverse_lookup by (rewrite length_seq; lia).
      rewrite length_seq, lookup_seq_lt by lia. rewrite Hd. simpl.
      do 2 f_equal. lia. }
    destruct (Hstep _ _ _ _ Hs Hb Ha) as [Hl ->].
    pose proof (proj1 (Forall_lookup _ _) Hunit _ _ Hd) as Hu.
    pose proof (floor_mul_range d (Z.of_nat i + 1) Hu ltac:(lia)) as Hr.
    destruct (floor_mul_floor d (Z.of_nat i + 1) Hu ltac:(lia)) as [Hfl Hq].
    unfold exchange. cbn [fst snd].
    set (j := Z.to_nat (floor_mul d (Z.of_nat i + 1))) in *.
    assert (Z.of_nat j = floor_mul d (Z.of_nat i + 1)) as Hj by lia.
    assert (i < length before) by lia.
    destruct (swap_lookup i j before ltac:(lia) ltac:(lia)) as (Hi & Hj' & Hk).
    exists j. rewrite Hj. split_and!.
    + apply Hfl.
    + apply Hfl.
    + exact Hq.
    + lia.
    + lia.
    + apply swap_length.
    + exact Hi.
    + exact Hj'.
    + exact Hk.
Qed.


Lemma mulberry32_closure_unit l (σ : Store) :
  unit_draw (mulberry32_closure l σ).1.
Proof.
  unfold mulberry32_closure.
  pose proof (mulberry32_call_unit (σ !!! l)) as H.
  by destruct (mulberry32_call (σ !!! l)).
Qed.

Lemma shuffleWithRng_permutes_witness :
  let m := InPlace.MkMem [[1; 2; 3; 4; 5]] [42%Z] in
  InPlace.read (InPlace.shuffleWithRng 0 (mulberry32_closure 0) m).2
               (InPlace.shuffleWithRng 0 (mulberry32_closure 0) m).1
  ≡ₚ [1; 2; 3; 4; 5]
  ∧ InPlace.read (InPlace.shuffleWithRng 0 (mulberry32_closure 0) m).2 0
    = [1; 2; 3; 4; 5].
Proof.
  intros m.
  pose proof (shuffleWithRng_permutes (mulberry32_closure 0) 0 m
                (mulberry32_closure_unit 0) ltac:(simpl; lia)) as H.
  split; [apply H|]. apply H.
Defined.

(** ** buildPuzzle *)

Section jsmap_facts.
Context {K V : Type} `{EqDecision K}.
Implicit Types (m : JsMap.t K V) (k : K) (v : V).

Lemma get_None k m : JsMap.get k m = None ↔ k ∉ m.*1.
Proof.
  induction m as [|[k' v'] m IH]; simpl.
  - split; [intros _; apply not_elem_of_nil|done].
  - rewrite not_elem_of_cons, <-IH. case_decide; intuition congruence.
Qed.

Lemma has_false k m : JsMap.has k m = false ↔ JsMap.get k m = None.
Proof. unfold JsMap.has. rewrite bool_decide_eq_false. by rewrite get_None. Qed.

Lemma has_true k m : JsMap.has k m = true ↔ is_Some (JsMap.get k m).
Proof.
  rewrite <-not_eq_None_Some, <-has_false. by destruct (JsMap.has k m).
Qed.

Lemma get_set_eq k v m : JsMap.get k (JsMap.set k v m) = Some v.
Proof.
  induction m as [|[k' v'] m IH]; simpl; repeat (case_decide; simpl); done.
Qed.

Lemma get_set_ne k k' v m : k ≠ k' → JsMap.get k' (JsMap.set k v m) = JsMap.get k' m.
Proof.
  intros Hne. induction m as [|[k0 v0] m IH]; simpl;
    repeat (case_decide; simplify_eq/=); done.
Qed.

Lemma keys_set_old k v m : k ∈ m.*1 → (JsMap.set k v m).*1 = m.*1.
Proof.
  induction m as [|[k0 v0] m IH]; simpl.
  - by intros ?%elem_of_nil.
  - intros Hk. case_decide; simplify_eq/=; [done|].
    apply elem_of_cons in Hk as [?|Hk]; [done|]. by rewrite IH.
Qed.

Lemma keys_set_new k v m : k ∉ m.*1 → (JsMap.set k v m).*1 = m.*1 ++ [k].
Proof.
  induction m as [|[k0 v0] m IH]; simpl; [done|].
  intros [? Hk]%not_elem_of_cons. case_decide; simplify_eq/=. by rewrite IH.
Qed.

Lemma elem_of_get k v m : NoDup m.*1 → (k, v) ∈ m ↔ JsMap.get k m = Some v.
Proof.
  induction m as [|[k0 v0] m IH]; simpl; intros Hnd.
  - split; [by intros ?%elem_of_nil|done].
  - apply NoDup_cons in Hnd as [Hk0 Hnd]. rewrite elem_of_cons, (IH Hnd).
    case_decide; simplify_eq/=.
    + split; [intros [?|Hget]; simplify_eq/=; [done|]|by intros [= ->]; left].
      exfalso. apply Hk0. apply dec_stable. intros Hk%get_None. congruence.
    + split; [intros [[= ? ?]|?]; [congruence|done]|by right].
Qed.

End jsmap_facts.

Lemma records_of_snoc p rows r :
  records_of p (rows ++ [r])
  = records_of p rows ++ (if decide (player_name r = p) then [r] else []).
Proof.
  unfold records_of. by rewrite filter_app.
Qed.

Lemma records_of_not_elem p rows :
  p ∉ player_name <$> rows → records_of p rows = [].
Proof.
  intros Hp. unfold records_of. induction rows as [|r rows IH]; [done|].
  rewrite fmap_cons, not_elem_of_cons in Hp. destruct Hp as [Hne Hp].
  rewrite filter_cons. case_decide; [congruence|]. by apply IH.
Qed.

Lemma grouped_add m rows r : grouped m rows → grouped (add_row m r) (rows ++ [r]).
Proof.
  intros [Hnd Hget]. unfold add_row.
  set (name := player_name r).
  set (m1 := if JsMap.has name m then m else JsMap.set name [] m).
  assert (NoDup m1.*1 ∧ JsMap.get name m1 = Some (records_of name rows)
          ∧ ∀ p, p ≠ name → JsMap.get p m1 = JsMap.get p m) as (Hnd1 & Hname & Hother).
  { unfold m1. destruct (JsMap.has name m) eqn:Hhas.
    - apply has_true in Hhas as [events Hev]. split_and!; [done| |done].
      rewrite Hget in Hev |- *. by case_decide.
    - pose proof Hhas as Hnone. apply has_false in Hnone.
      pose proof Hnone as Hkey. apply get_None in Hkey.
      split_and!.
      + rewrite keys_set_new by done. apply NoDup_app. split_and!.
        * done.
        * by intros k Hk ->%list_elem_of_singleton.
        * apply NoDup_singleton.
      + rewrite get_set_eq. rewrite Hget in Hnone. case_decide; [done|].
        by rewrite records_of_not_elem.
      + intros p Hp. by rewrite get_set_ne. }
  rewrite Hname. split.
  - rewrite keys_set_old; [done|]. apply dec_stable. intros Hk%get_None. congruence.
  - intros p. rewrite fmap_app, records_of_snoc. simpl.
    destruct (decide (name = p)) as [<-|Hne].
    + rewrite get_set_eq, (decide_True (P := player_name r = name)) by done.
      rewrite decide_True; [done|].
      apply elem_of_app. right. by apply list_elem_of_singleton.
    + rewrite get_set_ne, Hother, Hget by done.
      rewrite (decide_False (P := player_name r = p)) by done.
      rewrite app_nil_r. unfold name in Hne.
      destruct (decide (p ∈ player_name <$> rows)) as [Hin|Hout].
      * rewrite decide_True; [done|]. apply elem_of_app. by left.
      * rewrite decide_False; [done|].
        intros [?|?%list_elem_of_singleton]%elem_of_app; congruence.
Qed.

Lemma foldl_add_row_grouped rows : grouped (foldl add_row [] rows) rows.
Proof.
  induction rows as [|r rows IH] using rev_ind.
  - split; [constructor|]. intros p. case_decide as Hp; [|done].
    by apply elem_of_nil in Hp.
  - rewrite foldl_snoc. by apply grouped_add.
Qed.

Section build_facts.
Context {W : Type}.
Implicit Types (rng : Rng W) (w : W) (rows : list ResultRecord).

Lemma qualifying_NoDup rows : NoDup (qualifying rows).*1.
Proof.
  destruct (foldl_add_row_grouped rows) as [Hnd _].
  eapply sublist_NoDup; [exact Hnd|].
  apply fmap_sublist, sublist_filter.
Qed.

Lemma elem_of_qualifying rows p events :
  (p, events) ∈ qualifying rows
  ↔ events = records_of p rows ∧ CARDS_PER_GOLFER ≤ length events.
Proof.
  destruct (foldl_add_row_grouped rows) as [Hnd Hget].
  unfold qualifying, JsMap.entries. rewrite list_elem_of_filter. simpl.
  rewrite (elem_of_get _ _ _ Hnd), Hget. split.
  - intros [Hlen Hev]. case_decide; by simplify_eq.
  - intros [-> Hlen]. split; [done|]. case_decide as Hp; [done|].
    rewrite records_of_not_elem in Hlen by done. simpl in Hlen.
    unfold CARDS_PER_GOLFER in Hlen. lia.
Qed.

Lemma enough_players_qualifying rows :
  enough_players rows ↔ GOLFERS_PER_GAME ≤ length (qualifying rows).
Proof.
  split.
  - intros (players & Hnd & Hlen & Hall). rewrite <-Hlen.
    rewrite <-(length_fmap fst (qualifying rows)).
    apply submseteq_length, NoDup_submseteq; [done|].
    intros p Hp. apply list_elem_of_fmap. exists (p, records_of p rows).
    split; [done|]. apply elem_of_qualifying. auto.
  - intros Hlen. exists (take GOLFERS_PER_GAME (qualifying rows).*1). split_and!.
    + eapply sublist_NoDup; [apply qualifying_NoDup|apply sublist_take].
    + rewrite length_take, length_fmap. lia.
    + intros p Hp%subseteq_take.
      apply list_elem_of_fmap in Hp as ([p' events] & -> & Hin).
      apply elem_of_qualifying in Hin as [-> Hlen']. done.
Qed.

Lemma buildPuzzle_body_Throw rng rows w :
  length (qualifying rows) < GOLFERS_PER_GAME →
  buildPuzzle_body rng rows w
  = (Throw (not_enough_message (length (qualifying rows))), w).
Proof.
  intros Hlt. unfold buildPuzzle_body. fold (qualifying rows).
  by rewrite bool_decide_eq_true_2.
Qed.

Lemma buildPuzzle_body_Return rng rows w :
  GOLFERS_PER_GAME ≤ length (qualifying rows) →
  buildPuzzle_body rng rows w
  = (shuffled ← shuffleWithRng (qualifying rows) rng;
     puzzle ← map_st (pick_cards rng) (take GOLFERS_PER_GAME shuffled);
     mret (Return puzzle)) w.
Proof.
  intros Hle. unfold buildPuzzle_body. fold (qualifying rows).
  rewrite bool_decide_eq_false_2 by lia. done.
Qed.

Lemma map_st_Forall2 {A B} (P : A → B → Prop) (f : A → State W B) l w :
  (∀ a w, a ∈ l → P a (f a w).1) → Forall2 P l (map_st f l w).1.
Proof.
  revert w. induction l as [|a l IH]; intros w Hf; [constructor|].
  cbn [map_st]. unfold mbind, State_bind.
  pose proof (Hf a w ltac:(left)) as Ha. destruct (f a w) as [b w1].
  specialize (IH w1 ltac:(intros; apply Hf; by right)).
  destruct (map_st f l w1) as [bs w2]. by constructor.
Qed.

Lemma pick_cards_spec rng p events w :
  entry_player_name (pick_cards rng (p, events) w).1 = p
  ∧ hand_of events (cards (pick_cards rng (p, events) w).1).
Proof.
  unfold pick_cards, mbind, State_bind, fmap, State_fmap.
  pose proof (shuffleWithRng_Permutation events rng w) as Hperm.
  destruct (shuffleWithRng events rng w) as [shuffled w1]. simpl.
  split; [done|]. by exists shuffled.
Qed.

(** What a returned puzzle is made of. *)
Lemma buildPuzzle_body_puzzle rng rows w puzzle :
  (buildPuzzle_body rng rows w).1 = Return puzzle →
  ∃ selected,
    length selected = GOLFERS_PER_GAME
    ∧ NoDup selected.*1
    ∧ selected ⊆ qualifying rows
    ∧ Forall2 (λ entry e, entry_player_name e = entry.1 ∧ hand_of entry.2 (cards e))
              selected puzzle.
Proof.
  destruct (decide (length (qualifying rows) < GOLFERS_PER_GAME)) as [Hlt|Hle].
  { by rewrite buildPuzzle_body_Throw. }
  rewrite buildPuzzle_body_Return by lia. unfold mbind, State_bind.
  pose proof (shuffleWithRng_Permutation (qualifying rows) rng w) as Hperm.
  destruct (shuffleWithRng (qualifying rows) rng w) as [shuffled w1].
  simpl in Hperm.
  pose proof (map_st_Forall2
    (λ entry e, entry_player_name e = entry.1 ∧ hand_of entry.2 (cards e))
    (pick_cards rng) (take GOLFERS_PER_GAME shuffled) w1) as Hmap.
  destruct (map_st (pick_cards rng) (take GOLFERS_PER_GAME shuffled) w1)
    as [puzzle' w2]. simpl. intros [= <-].
  exists (take GOLFERS_PER_GAME shuffled). split_and!.
  - rewrite length_take, (Permutation_length Hperm). lia.
  - eapply sublist_NoDup; [|apply fmap_sublist, sublist_take].
    rewrite Hperm. apply qualifying_NoDup.
  - intros e He%subseteq_take. by rewrite <-Hperm.
  - apply Hmap. intros [p events] w' _. apply pick_cards_spec.
Qed.

End build_facts.


Section confined_facts.
Implicit Types (l : nat) (σ : Store).

Lemma confined_ret {A} l (a : A) : confined l (mret a) (mret a).
Proof. intros σ s Hl. unfold mret, State_ret. simpl. by rewrite list_insert_id. Qed.

Lemma confined_bind {A B} l (c : State Store A) (c' : State Z A)
    (k : A → State Store B) (k' : A → State Z B) :
  confined l c c' → (∀ a, confined l (k a) (k' a)) →
  confined l (c ≫= k) (c' ≫= k').
Proof.
  intros Hc Hk σ s Hl. unfold mbind, State_bind. rewrite (Hc σ s Hl).
  destruct (c' s) as [a s1]. simpl.
  rewrite (Hk a _ s1).
  2:{ apply list_lookup_insert_eq. by eapply lookup_lt_Some. }
  by rewrite list_insert_insert_eq.
Qed.

Lemma confined_fmap {A B} l (f : A → B) (c : State Store A) (c' : State Z A) :
  confined l c c' → confined l (f <$> c) (f <$> c').
Proof.
  intros Hc σ s Hl. unfold fmap, State_fmap. rewrite (Hc σ s Hl).
  by destruct (c' s).
Qed.

Lemma confined_closure l : confined l (mulberry32_closure l) mulberry32_call.
Proof.
  intros σ s Hl. unfold mulberry32_closure.
  rewrite (list_lookup_total_correct _ _ _ Hl). by destruct (mulberry32_call s).
Qed.

Lemma confined_shuffle_loop {T} l i (out : list T) :
  confined l (shuffle_loop (mulberry32_closure l) i out)
             (shuffle_loop mulberry32_call i out).
Proof.
  revert out. induction i as [|i IH]; intros out; cbn [shuffle_loop].
  - apply confined_ret.
  - apply confined_bind; [apply confined_closure|]. intros d. apply IH.
Qed.

Lemma confined_shuffleWithRng {T} l (arr : list T) :
  confined l (shuffleWithRng arr (mulberry32_closure l))
             (shuffleWithRng arr mulberry32_call).
Proof. apply confined_shuffle_loop. Qed.

Lemma confined_map_st {A B} l (f : A → State Store B) (f' : A → State Z B) xs :
  (∀ a, confined l (f a) (f' a)) → confined l (map_st f xs) (map_st f' xs).
Proof.
  intros Hf. induction xs as [|a xs IH]; cbn [map_st].
  - apply confined_ret.
  - apply confined_bind; [apply Hf|]. intros b.
    apply confined_bind; [apply IH|]. intros bs. apply confined_ret.
Qed.

Lemma confined_pick_cards l entry :
  confined l (pick_cards (mulberry32_closure l) entry)
             (pick_cards mulberry32_call entry).
Proof.
  destruct entry as [p events]. unfold pick_cards.
  apply confined_bind; [|intros; apply confined_ret].
  apply confined_fmap, confined_shuffleWithRng.
Qed.

Lemma confined_buildPuzzle_body l rows :
  confined l (buildPuzzle_body (mulberry32_closure l) rows)
             (buildPuzzle_body mulberry32_call rows).
Proof.
  unfold buildPuzzle_body. case_bool_decide; [apply confined_ret|].
  apply confined_bind; [apply confined_shuffleWithRng|]. intros shuffled.
  apply confined_bind; [|intros; apply confined_ret].
  apply confined_map_st, confined_pick_cards.
Qed.

(** A call creates one cell, for its own generator, and leaves the rest of
    the store alone; what it returns does not depend on the store. *)
Lemma buildPuzzle_store rows seed σ :
  buildPuzzle rows seed σ
  = ((buildPuzzle_body mulberry32_call rows seed).1,
     σ ++ [(buildPuzzle_body mulberry32_call rows seed).2]).
Proof.
  unfold buildPuzzle, mbind, State_bind, mulberry32.
  rewrite (confined_buildPuzzle_body (length σ) rows (σ ++ [seed]) seed)
    by by apply list_lookup_middle.
  f_equal. rewrite insert_app_r_alt, Nat.sub_diag by done. done.
Qed.

End confined_facts.

Section buildPuzzle_facts.
Implicit Types (rows : list ResultRecord) (seed : Z) (σ : Store).

Lemma buildPuzzle_unfold rows seed σ :
  buildPuzzle rows seed σ
  = buildPuzzle_body (mulberry32_closure (length σ)) rows (σ ++ [seed]).
Proof. done. Qed.

(** C1.  Two calls with the same records and seed return the same outcome,
    whatever the store holds when each is made, in particular when the second
    call follows the first.  A call creates exactly one generator cell, from
    [seed], and touches no other; its outcome is that of the body run on a
    generator state passed by value, starting from [seed]. *)
Theorem buildPuzzle_deterministic rows seed (σ1 σ2 : Store) :
  (buildPuzzle rows seed σ1).1 = (buildPuzzle rows seed σ2).1
  ∧ (buildPuzzle rows seed (buildPuzzle rows seed σ1).2).1
    = (buildPuzzle rows seed σ1).1
  ∧ (∃ s, (buildPuzzle rows seed σ1).2 = σ1 ++ [s])
  ∧ (buildPuzzle rows seed σ1).1 = (buildPuzzle_body mulberry32_call rows seed).1.
Proof.
  rewrite !buildPuzzle_store. simpl. eauto.
Qed.

(** C2.  [buildPuzzle] throws exactly when fewer than [GOLFERS_PER_GAME]
    distinct players have at least [CARDS_PER_GOLFER] records, and returns a
    puzzle otherwise.  The entries counted are those of the players with at
    least [CARDS_PER_GOLFER] records; when it throws, no draw has been made
    and nothing but the error comes out. *)
Theorem buildPuzzle_throws_iff rows seed σ :
  ((∃ message, (buildPuzzle rows seed σ).1 = Throw message)
   ↔ ¬ enough_players rows)
  ∧ ((∃ puzzle, (buildPuzzle rows seed σ).1 = Return puzzle)
     ↔ enough_players rows)
  ∧ (∀ p events,
       (p, events) ∈ qualifying rows
       ↔ events = records_of p rows ∧ CARDS_PER_GOLFER ≤ length events)
  ∧ (¬ enough_players rows ↔ length (qualifying rows) < GOLFERS_PER_GAME)
  ∧ (∀ message,
       (buildPuzzle rows seed σ).1 = Throw message →
       buildPuzzle rows seed σ
       = (Throw (not_enough_message (length (qualifying rows))), σ ++ [seed])).
Proof.
  rewrite buildPuzzle_unfold, enough_players_qualifying.
  destruct (decide (length (qualifying rows) < GOLFERS_PER_GAME)) as [Hlt|Hle].
  - rewrite buildPuzzle_body_Throw by done. simpl. split_and!.
    + split; [lia|eauto].
    + split; [by intros [? ?]|lia].
    + apply elem_of_qualifying.
    + lia.
    + done.
  - rewrite buildPuzzle_body_Return by lia. unfold mbind, State_bind.
    destruct (shuffleWithRng _ _ _) as [shuffled σ1].
    destruct (map_st _ _ _) as [puzzle σ2]. simpl. split_and!.
    + split; [by intros [? ?]|lia].
    + split; [lia|eauto].
    + apply elem_of_qualifying.
    + lia.
    + done.
Qed.

Lemma hand_of_length events hand :
  CARDS_PER_GOLFER ≤ length events → hand_of events hand →
  length hand = CARDS_PER_GOLFER.
Proof.
  intros Hlen (shuffled & Hperm & ->).
  rewrite length_fmap, length_take, (Permutation_length Hperm). lia.
Qed.

(** C3.  A puzzle that [buildPuzzle] returns has exactly [GOLFERS_PER_GAME]
    entries, each with exactly [CARDS_PER_GOLFER] cards. *)
Theorem buildPuzzle_cardinality rows seed σ puzzle :
  (buildPuzzle rows seed σ).1 = Return puzzle →
  length puzzle = GOLFERS_PER_GAME
  ∧ Forall (λ e, length (cards e) = CARDS_PER_GOLFER) puzzle.
Proof.
  rewrite buildPuzzle_unfold.
  intros (selected & Hlen & _ & Hsub & Hall)%buildPuzzle_body_puzzle. split.
  - by rewrite <-(Forall2_length _ _ _ Hall).
  - apply Forall_forall. intros e He.
    destruct (proj1 (list_elem_of_lookup _ _) He) as [i Hi].
    destruct (Forall2_lookup_r _ _ _ _ _ Hall Hi) as ([p events] & Hsel & _ & Hhand).
    eapply hand_of_length; [|exact Hhand].
    apply list_elem_of_lookup_2, Hsub, elem_of_qualifying in Hsel. by destruct Hsel.
Qed.

(** C7.  The players of a returned puzzle are pairwise distinct. *)
Theorem buildPuzzle_distinct_players rows seed σ puzzle :
  (buildPuzzle rows seed σ).1 = Return puzzle →
  NoDup (entry_player_name <$> puzzle).
Proof.
  rewrite buildPuzzle_unfold.
  intros (selected & _ & Hnd & _ & Hall)%buildPuzzle_body_puzzle.
  replace (entry_player_name <$> puzzle) with selected.*1; [done|].
  clear Hnd. induction Hall as [|entry e selected puzzle [Hname _] _ IH]; [done|].
  rewrite !fmap_cons. by f_equal.
Qed.

End buildPuzzle_facts.

Lemma buildPuzzle_cardinality_witness :
  ∃ puzzle, (buildPuzzle sample_rows 1234 []).1 = Return puzzle
            ∧ length puzzle = GOLFERS_PER_GAME
            ∧ Forall (λ e, length (cards e) = CARDS_PER_GOLFER) puzzle.
Proof.
  eexists. split; [vm_compute; reflexivity|].
  apply (buildPuzzle_cardinality sample_rows 1234 []). vm_compute. reflexivity.
Defined.

Lemma buildPuzzle_distinct_players_witness :
  ∃ puzzle, (buildPuzzle sample_rows 7 [5%Z]).1 = Return puzzle
            ∧ NoDup (entry_player_name <$> puzzle).
Proof.
  eexists. split; [vm_compute; reflexivity|].
  apply (buildPuzzle_distinct_players sample_rows 7 [5%Z]). vm_compute. reflexivity.
Defined.

(** ** Rendering helpers *)

Section color_facts.
Local Open Scope Z_scope.

Lemma getScoreBackgroundColor_cases s :
  (s <= -10 ∧ getScoreBackgroundColor s = greenShades !!! 0%nat)
  ∨ (-10 < s <= -4 ∧ getScoreBackgroundColor s = greenShades !!! 1%nat)
  ∨ (-4 < s <= -1 ∧ getScoreBackgroundColor s = greenShades !!! 2%nat)
  ∨ (s = 0 ∧ getScoreBackgroundColor s = yellowShades !!! 0%nat)
  ∨ (0 < s <= 2 ∧ getScoreBackgroundColor s = yellowShades !!! 1%nat)
  ∨ (2 < s <= 5 ∧ getScoreBackgroundColor s = yellowShades !!! 2%nat)
  ∨ (5 < s <= 9 ∧ getScoreBackgroundColor s = redShades !!! 2%nat)
  ∨ (9 < s <= 15 ∧ getScoreBackgroundColor s = redShades !!! 1%nat)
  ∨ (15 < s ∧ getScoreBackgroundColor s = redShades !!! 0%nat).
Proof.
  unfold getScoreBackgroundColor.
  repeat (match goal with |- context [(?a <=? ?b)] => destruct (Z.leb_spec a b) end);
    lia || (intuition lia).
Qed.

Ltac decide_color :=
  match goal with
  | |- _ ∈ _ => by apply (bool_decide_unpack _)
  | |- NoDup _ => by apply (bool_decide_unpack _)
  | H : _ ∈ _ |- _ => by apply (bool_decide_pack _) in H
  | |- (_ <= _)%nat => vm_compute; lia
  end.

Ltac on_band s H :=
  destruct (getScoreBackgroundColor_cases s) as [H|H];
  repeat (destruct H as [H|H]).

Ltac band_iff :=
  split; [intros Hin; try lia; decide_color|intros; try lia; decide_color].

(** C8.  For every integer score the colour is one of nine fixed, pairwise
    distinct strings: a green shade exactly for scores up to -1, a yellow
    shade exactly for scores from 0 to 5, a red shade exactly for scores from
    6 on.  The band never gets cooler as the score grows. *)
Theorem getScoreBackgroundColor_bands (s : Z) :
  (getScoreBackgroundColor s ∈ greenShades ++ yellowShades ++ redShades
   ∧ NoDup (greenShades ++ yellowShades ++ redShades)
   ∧ length (greenShades ++ yellowShades ++ redShades) = 9%nat)
  ∧ (getScoreBackgroundColor s ∈ greenShades ↔ s <= -1)
  ∧ (getScoreBackgroundColor s ∈ yellowShades ↔ 0 <= s <= 5)
  ∧ (getScoreBackgroundColor s ∈ redShades ↔ 6 <= s)
  ∧ (∀ s', s <= s' →
       (band (getScoreBackgroundColor s) ≤ band (getScoreBackgroundColor s'))%nat).
Proof.
  split_and!.
  - on_band s H; destruct H as [_ ->]; decide_color.
  - decide_color.
  - done.
  - on_band s H; destruct H as [Hs ->]; band_iff.
  - on_band s H; destruct H as [Hs ->]; band_iff.
  - on_band s H; destruct H as [Hs ->]; band_iff.
  - intros s' Hle.
    on_band s H; destruct H as [Hs ->];
      on_band s' H'; destruct H' as [Hs' ->]; try lia; decide_color.
Qed.

End color_facts.

Section format_facts.
Local Open Scope Z_scope.

Lemma digits_from_acc fuel n acc :
  Str.digits_from fuel n acc = Str.digits_from fuel n [] ++ acc.
Proof.
  revert n acc. induction fuel as [|fuel IH]; intros n acc; simpl; [done|].
  case_match; [done|]. rewrite IH, (IH _ [_]). by rewrite <-app_assoc.
Qed.

Lemma digits_from_S fuel n :
  Str.digits_from (S fuel) n []
  = if n <? 10 then [(0x30 + Z.to_N (n mod 10))%N]
    else Str.digits_from fuel (n / 10) [] ++ [(0x30 + Z.to_N (n mod 10))%N].
Proof. simpl. case_match; [done|]. apply digits_from_acc. Qed.

Lemma digits_value_snoc ds c :
  Str.digits_value (ds ++ [c]) = 10 * Str.digits_value ds + (Z.of_N c - 0x30).
Proof. unfold Str.digits_value. by rewrite foldl_snoc. Qed.

Lemma digit_code n :
  0 <= n ->
  Str.is_digit (0x30 + Z.to_N (n mod 10)) = true
  ∧ Z.of_N (0x30 + Z.to_N (n mod 10)) - 0x30 = n mod 10.
Proof.
  intros Hn. pose proof (Z.mod_pos_bound n 10 ltac:(lia)).
  unfold Str.is_digit. split; [|lia].
  apply andb_true_iff. split; apply N.leb_le; lia.
Qed.

Lemma digits_from_nonempty fuel n : Str.digits_from fuel n [] ≠ [].
Proof.
  destruct fuel; [done|]. rewrite digits_from_S. case_match; [done|].
  by destruct (Str.digits_from fuel (n / 10) []).
Qed.

Lemma digits_from_spec fuel n :
  0 <= n < 2 ^ (Z.of_nat fuel + 1) ->
  Forall (λ c, Str.is_digit c = true) (Str.digits_from fuel n [])
  ∧ Str.digits_value (Str.digits_from fuel n []) = n
  ∧ (0 < n -> head (Str.digits_from fuel n []) ≠ Some 0x30%N).
Proof.
  revert n. induction fuel as [|fuel IH]; intros n Hn.
  - destruct (digit_code n ltac:(lia)) as [Hd Hv].
    change (2 ^ (Z.of_nat 0 + 1)) with 2 in Hn.
    assert (n mod 10 = n) as Hsmall by (apply Z.mod_small; lia).
    cbn [Str.digits_from]. split_and!.
    + by repeat constructor.
    + unfold Str.digits_value. simpl. lia.
    + intros Hpos [= Hz]. lia.
  - destruct (digit_code n ltac:(lia)) as [Hd Hv].
    rewrite digits_from_S. destruct (Z.ltb_spec n 10) as [Hlt|Hge].
    + assert (n mod 10 = n) as Hsmall by (apply Z.mod_small; lia).
      split_and!.
      * by repeat constructor.
      * unfold Str.digits_value. simpl. lia.
      * intros Hpos [= Hz]. lia.
    + assert (0 < n / 10 < 2 ^ (Z.of_nat fuel + 1)) as Hq.
      { replace (Z.of_nat (S fuel) + 1) with (Z.succ (Z.of_nat fuel + 1)) in Hn by lia.
        rewrite Z.pow_succ_r in Hn by lia.
        assert (0 < 2 ^ (Z.of_nat fuel + 1)) by (apply Z.pow_pos_nonneg; lia).
        split.
        - apply Z.div_str_pos. lia.
        - apply Z.div_lt_upper_bound; lia. }
      destruct (IH (n / 10) ltac:(lia)) as (Hall & Hval & Hhead). split_and!.
      * apply Forall_app. split; [done|]. by repeat constructor.
      * rewrite digits_value_snoc, Hval, Hv. symmetry. apply Z.div_mod. lia.
      * intros _. specialize (Hhead ltac:(lia)).
        pose proof (digits_from_nonempty fuel (n / 10)).
        by destruct (Str.digits_from fuel (n / 10) []).
Qed.

Lemma digits_spec n :
  0 <= n ->
  Forall (λ c, Str.is_digit c = true) (Str.digits n)
  ∧ Str.digits_value (Str.digits n) = n
  ∧ (0 < n -> head (Str.digits n) ≠ Some 0x30%N).
Proof.
  intros Hn. apply digits_from_spec.
  destruct (decide (n = 0)) as [->|]; [done|].
  rewrite Z2Nat.id by apply Z.log2_nonneg.
  pose proof (Z.log2_spec n ltac:(lia)). rewrite Z.add_1_r. lia.
Qed.

Lemma decimal_of_digits n : 0 < n -> decimal_of n (Str.digits n).
Proof. intros Hn. destruct (digits_spec n ltac:(lia)) as (? & ? & ?). split_and!; auto. Qed.

(** *** String on the safe integers *)

Lemma digit_range c : Str.is_digit c = true -> 0 <= Z.of_N c - 0x30 <= 9.
Proof.
  unfold Str.is_digit. intros [H1 H2]%andb_true_iff.
  apply N.leb_le in H1, H2. lia.
Qed.

Lemma digits_value_range ds :
  Forall (λ c, Str.is_digit c = true) ds ->
  0 <= Str.digits_value ds < 10 ^ Z.of_nat (length ds).
Proof.
  induction ds as [|c ds IH] using rev_ind; intros Hds; [done|].
  apply Forall_app in Hds as [Hds Hc]. rewrite Forall_singleton in Hc.
  specialize (IH Hds). pose proof (digit_range c Hc).
  rewrite digits_value_snoc, length_app, Nat2Z.inj_add, Z.pow_add_r by lia.
  change (10 ^ Z.of_nat (length [c])) with 10. lia.
Qed.

Lemma digits_value_least ds :
  Forall (λ c, Str.is_digit c = true) ds ->
  head ds ≠ Some 0x30%N -> ds ≠ [] ->
  10 ^ (Z.of_nat (length ds) - 1) <= Str.digits_value ds.
Proof.
  induction ds as [|c ds IH] using rev_ind; intros Hds Hhead Hne; [done|].
  apply Forall_app in Hds as [Hds Hc]. rewrite Forall_singleton in Hc.
  pose proof (digit_range c Hc) as Hr.
  rewrite digits_value_snoc, length_app, Nat2Z.inj_add.
  change (Z.of_nat (length [c])) with 1. rewrite Z.add_simpl_r.
  destruct ds as [|c' ds'].
  - simpl in *. unfold Str.digits_value. simpl.
    assert (c ≠ 0x30%N) by congruence. lia.
  - specialize (IH Hds Hhead ltac:(done)).
    replace (Z.of_nat (length (c' :: ds')))
      with (Z.succ (Z.of_nat (length (c' :: ds')) - 1)) at 1 by lia.
    rewrite Z.pow_succ_r by (simpl; lia). lia.
Qed.

(** An integer has one decimal numeral. *)
Lemma decimal_of_unique n ds1 ds2 :
  decimal_of n ds1 -> decimal_of n ds2 -> ds1 = ds2.
Proof.
  revert n ds2. induction ds1 as [|c1 ds1 IH] using rev_ind; intros n ds2.
  - intros (_ & _ & <-) (Hd & Hh & Hv).
    destruct ds2 as [|c ds2]; [done|].
    pose proof (digits_value_least _ Hd Hh ltac:(done)) as Hl.
    assert (0 < 10 ^ (Z.of_nat (length (c :: ds2)) - 1))
      by (apply Z.pow_pos_nonneg; simpl; lia).
    unfold Str.digits_value in Hv at 2. simpl in Hv. lia.
  - intros (Hd1 & Hh1 & Hv1) (Hd2 & Hh2 & Hv2).
    destruct ds2 as [|c2 ds2 _] using rev_ind.
    { pose proof (digits_value_least _ Hd1 Hh1 ltac:(by destruct ds1)) as Hl.
      assert (0 < 10 ^ (Z.of_nat (length (ds1 ++ [c1])) - 1))
        by (apply Z.pow_pos_nonneg; [lia|rewrite length_app; simpl; lia]).
      unfold Str.digits_value in Hv2. simpl in Hv2. lia. }
    apply Forall_app in Hd1 as [Hd1 Hc1]. rewrite Forall_singleton in Hc1.
    apply Forall_app in Hd2 as [Hd2 Hc2]. rewrite Forall_singleton in Hc2.
    pose proof (digit_range c1 Hc1). pose proof (digit_range c2 Hc2).
    rewrite digits_value_snoc in Hv1, Hv2.
    pose proof (digits_value_range ds1 Hd1). pose proof (digits_value_range ds2 Hd2).
    assert (c1 = c2) as -> by lia.
    f_equal. apply (IH (Str.digits_value ds1)).
    + split_and!; [done| |done]. by destruct ds1.
    + split_and!; [done| |lia]. by destruct ds2.
Qed.

Lemma digits_value_zeros ds (e : nat) :
  Str.digits_value (ds ++ replicate e 0x30%N) = Str.digits_value ds * 10 ^ Z.of_nat e.
Proof.
  induction e as [|e IH]; [rewrite app_nil_r; simpl; lia|].
  rewrite replicate_S_end, app_assoc, digits_value_snoc, IH.
  rewrite Nat2Z.inj_succ, Z.pow_succ_r by lia. lia.
Qed.

(** The numeral of [s * 10^e] is the numeral of [s], then [e] zeros. *)
Lemma digits_zeros s (e : nat) :
  0 < s -> Str.digits (s * 10 ^ Z.of_nat e) = Str.digits s ++ replicate e 0x30%N.
Proof.
  intros Hs. assert (0 < 10 ^ Z.of_nat e) by (apply Z.pow_pos_nonneg; lia).
  apply (decimal_of_unique (s * 10 ^ Z.of_nat e)).
  - apply decimal_of_digits. lia.
  - destruct (decimal_of_digits s Hs) as (Hd & Hh & Hv). split_and!.
    + apply Forall_app. split; [done|]. by apply Forall_replicate.
    + pose proof (digits_from_nonempty (Z.to_nat (Z.log2 s)) s) as Hne.
      fold (Str.digits s) in Hne. by destruct (Str.digits s).
    + by rewrite digits_value_zeros, Hv.
Qed.

Lemma digits_above x : 0 <= x -> x < 10 ^ Z.of_nat (length (Str.digits x)).
Proof.
  intros Hx. destruct (digits_spec x Hx) as (Hd & Hv & _).
  pose proof (digits_value_range _ Hd). lia.
Qed.

Lemma digits_length x (k : nat) :
  0 < x < 10 ^ Z.of_nat k -> (length (Str.digits x) ≤ k)%nat.
Proof.
  intros Hx. destruct (decimal_of_digits x ltac:(lia)) as (Hd & Hh & Hv).
  pose proof (digits_from_nonempty (Z.to_nat (Z.log2 x)) x) as Hne.
  fold (Str.digits x) in Hne.
  pose proof (digits_value_least _ Hd Hh Hne) as Hl. rewrite Hv in Hl.
  assert (10 ^ (Z.of_nat (length (Str.digits x)) - 1) < 10 ^ Z.of_nat k) as Hlt by lia.
  apply Z.pow_lt_mono_r_iff in Hlt; lia.
Qed.

(** On a safe integer the search ends on [x] itself, written without its
    zeros at the end. *)
Lemma shortest_exact x (e : nat) :
  0 < x < 2 ^ 53 ->
  0 < (Str.shortest e x).1
  ∧ (Str.shortest e x).1 * 10 ^ Z.of_nat (Str.shortest e x).2 = x.
Proof.
  intros Hx. induction e as [|e IH].
  - cbn [Str.shortest]. change (10 ^ Z.of_nat 0) with 1.
    rewrite Z.div_1_r, !Z.mul_1_r.
    destruct (Z.eqb_spec (Num.fl (x + 1)) x) as [Habove|_]; cbn [andb].
    { apply (NumFacts.fl_safe x (x + 1)) in Habove; lia. }
    destruct (Z.eqb_spec (Num.fl x) x); simpl; lia.
  - cbn [Str.shortest].
    assert (0 < 10 ^ Z.of_nat (S e)) as Hp by (apply Z.pow_pos_nonneg; lia).
    set (p := 10 ^ Z.of_nat (S e)) in *.
    assert (0 <= x / p) as Hs by (apply Z.div_pos; lia).
    set (s := x / p) in *.
    destruct (Z.eqb_spec (Num.fl ((s + 1) * p)) x) as [Habove|_];
      destruct (Z.eqb_spec (Num.fl (s * p)) x) as [Hbelow|_]; cbn [andb negb orb].
    + apply NumFacts.fl_safe in Habove, Hbelow; nia.
    + apply NumFacts.fl_safe in Habove; [|lia|nia]. simpl. lia.
    + apply NumFacts.fl_safe in Hbelow; [|lia|nia]. simpl.  nia.
    + apply IH.
Qed.

Lemma of_positive_exact x : 0 < x < 2 ^ 53 -> Str.of_positive x = Str.digits x.
Proof.
  intros Hx. unfold Str.of_positive.
  pose proof (digits_above x ltac:(lia)) as Hn.
  destruct (Z.eqb_spec (Num.fl (10 ^ Z.of_nat (length (Str.digits x)))) x) as [Hfl|_].
  { apply NumFacts.fl_safe in Hfl; lia. }
  destruct (shortest_exact x (length (Str.digits x) - 1) Hx) as [Hs Hv].
  destruct (Str.shortest (length (Str.digits x) - 1) x) as [s e]. simpl in Hs, Hv.
  pose proof (digits_zeros s e Hs) as Hz. rewrite Hv in Hz.
  rewrite bool_decide_eq_true_2; [done|].
  pose proof (digits_length x 16 ltac:(lia)) as Hlen.
  rewrite Hz, length_app, length_replicate in Hlen. lia.
Qed.

(** [String(n)] is the decimal numeral of [n] on the safe integers. *)
Lemma of_int_numeral n : Z.abs n < 2 ^ 53 -> Str.of_int n = Str.numeral n.
Proof.
  intros Hn. unfold Str.of_int, Str.numeral. rewrite NumFacts.fl_exact by done.
  rewrite (proj2 (Z.leb_gt _ _)) by (change (2 ^ 1024) with (2 ^ 53 * 2 ^ 971); lia).
  destruct (Z.eqb_spec n 0) as [->|Hne]; [done|].
  destruct (Z.ltb_spec n 0).
  - by rewrite of_positive_exact by lia.
  - by rewrite of_positive_exact by lia.
Qed.

Lemma formatScore_numeral n :
  Z.abs n < 2 ^ 53 ->
  formatScore n
  = if n =? 0 then lit "E"
    else if 0 <? n then lit "+" ++ Str.digits n
    else 0x2D%N :: Str.digits (- n).
Proof.
  intros Hn. unfold formatScore. rewrite of_int_numeral by done.
  unfold Str.numeral. destruct (Z.eqb_spec n 0) as [->|Hne]; [done|].
  destruct (Z.ltb_spec 0 n).
  - by rewrite (proj2 (Z.ltb_ge n 0)) by lia.
  - by rewrite (proj2 (Z.ltb_lt n 0)) by lia.
Qed.

(** C9.  For an integer [n] below 2^53 in magnitude, [formatScore n] is
    ["E"] exactly when [n = 0], a plus sign followed by the decimal numeral
    of [n] exactly when [n > 0], and a minus sign followed by the decimal
    numeral of [-n] exactly when [n < 0]. *)
Theorem formatScore_cases (n : Z) :
  Z.abs n < 2 ^ 53 ->
  (formatScore n = lit "E" ↔ n = 0)
  ∧ ((∃ ds, formatScore n = lit "+" ++ ds ∧ decimal_of n ds) ↔ 0 < n)
  ∧ ((∃ ds, formatScore n = lit "-" ++ ds ∧ decimal_of (- n) ds) ↔ n < 0).
Proof.
  intros Hsafe. rewrite formatScore_numeral by done.
  destruct (Z.eqb_spec n 0) as [->|Hne].
  { split_and!; [done| |]; (split; [|lia]); by intros (ds & [=] & _). }
  destruct (Z.ltb_spec 0 n) as [Hpos|Hneg].
  - split_and!.
    + split; [|lia]. by intros [=].
    + split; [done|]. intros _. exists (Str.digits n). split; [done|].
      by apply decimal_of_digits.
    + split; [|lia]. by intros (ds & [=] & _).
  - split_and!.
    + split; [|lia]. by intros [=].
    + split; [|lia]. by intros (ds & [=] & _).
    + split; [lia|]. intros _. exists (Str.digits (- n)). split; [done|].
      apply decimal_of_digits. lia.
Qed.

End format_facts.

Lemma formatScore_cases_witness :
  (formatScore (-3) = lit "E" ↔ (-3 = 0)%Z)
  ∧ ((∃ ds, formatScore (-3) = lit "+" ++ ds ∧ decimal_of (-3) ds) ↔ (0 < -3)%Z)
  ∧ ((∃ ds, formatScore (-3) = lit "-" ++ ds ∧ decimal_of (- -3) ds) ↔ (-3 < 0)%Z).
Proof. apply (formatScore_cases (-3)). lia. Defined.

(** Past 2^53 the digits that [String] prints are those of the double, cut
    short: [formatScore(2 ** 60)] is not the numeral of 2^60. *)
Lemma formatScore_past_safe :
  formatScore (2 ^ 60) = lit "+1152921504606847000"
  ∧ ¬ ((∃ ds, formatScore (2 ^ 60) = lit "+" ++ ds ∧ decimal_of (2 ^ 60) ds)
       ↔ (0 < 2 ^ 60)%Z).
Proof.
  assert (formatScore (2 ^ 60) = lit "+1152921504606847000") as Hrun
    by (vm_compute; reflexivity).
  split; [done|]. intros [_ Hex].
  destruct (Hex ltac:(done)) as (ds & Hds & _ & _ & Hval).
  rewrite Hrun in Hds. injection Hds as <-. by vm_compute in Hval.
Qed.

(** ** parseCSV *)

Section csv_facts.
Implicit Types (headers vals : list jsstring) (row : RowObject) (h : jsstring).

Lemma split_lines_nonempty s : Str.split_lines s ≠ [].
Proof.
  assert (∀ c ps, Str.cons_first c ps ≠ []) as Hcons by by intros c [|p ps].
  destruct s as [|c s]; [done|]. simpl. repeat case_match; done || apply Hcons.
Qed.

Lemma assign_lookup h v row h' :
  assign h v row !! h'
  = if decide (h = h' ∧ h ≠ lit "__proto__") then Some v else row !! h'.
Proof.
  unfold assign. case_decide as Hp.
  - rewrite decide_False; [done|]. by intros [_ ?].
  - destruct (decide (h = h')) as [->|Hne].
    + rewrite lookup_insert_eq. by rewrite decide_True.
    + rewrite lookup_insert_ne by done. rewrite decide_False; [done|]. by intros [? _].
Qed.

Lemma fill_row_other vals j0 headers row h :
  h ∉ headers ∨ h = lit "__proto__" →
  fill_row vals j0 headers row !! h = row !! h.
Proof.
  revert j0 row. induction headers as [|h0 headers IH]; intros j0 row Hh; [done|].
  simpl. rewrite IH.
  - rewrite assign_lookup, decide_False; [done|].
    intros [-> Hp]. destruct Hh as [Hh|Hh]; [|done]. apply Hh. by left.
  - destruct Hh as [Hh|Hh]; [left|by right]. intros ?. apply Hh. by right.
Qed.

Lemma fill_row_last vals j0 headers row j h :
  headers !! j = Some h → h ≠ lit "__proto__" →
  (∀ j', j < j' → headers !! j' ≠ Some h) →
  fill_row vals j0 headers row !! h = Some (default [] (vals !! (j0 + j))).
Proof.
  revert j0 row j. induction headers as [|h0 headers IH]; intros j0 row j Hj Hp Hlast;
    [done|].
  simpl. destruct j as [|j]; simplify_eq/=.
  - rewrite fill_row_other.
    + rewrite assign_lookup, decide_True by done. by rewrite Nat.add_0_r.
    + left. intros [j' Hj']%list_elem_of_lookup.
      by apply (Hlast (S j') ltac:(lia)).
  - rewrite (IH _ _ j) by (try done; intros j' ?; apply (Hlast (S j')); lia).
    do 3 f_equal. lia.
Qed.

Lemma fill_row_dom vals j0 headers row h :
  is_Some (fill_row vals j0 headers row !! h) →
  is_Some (row !! h) ∨ (h ∈ headers ∧ h ≠ lit "__proto__").
Proof.
  intros Hsome. destruct (decide (h ∈ headers ∧ h ≠ lit "__proto__")) as [|Hn];
    [by right|left].
  rewrite fill_row_other in Hsome; [done|].
  destruct (decide (h = lit "__proto__")); [by right|left]. naive_solver.
Qed.

Lemma fill_row_maps_last vals headers : maps_last headers vals (fill_row vals 0 headers ∅).
Proof.
  split.
  - intros j h Hj Hp Hlast. by rewrite (fill_row_last _ _ _ _ j).
  - intros h [Hsome|?]%fill_row_dom; [|done].
    rewrite lookup_empty in Hsome. by destruct Hsome.
Qed.

(** With pairwise distinct header names, none of them [__proto__], every
    header is mapped to the field at its own position. *)
Lemma maps_last_positionally headers vals row :
  NoDup headers → lit "__proto__" ∉ headers →
  maps_last headers vals row → maps_positionally headers vals row.
Proof.
  intros Hnd Hproto [Hlast _] j h Hj. apply Hlast; [done| |].
  - intros ->. apply Hproto. by eapply list_elem_of_lookup_2.
  - intros j' Hlt Hj'. pose proof (NoDup_lookup _ _ _ _ Hnd Hj Hj'). lia.
Qed.

(** C10.  [parseCSV] returns no row when the trimmed text has fewer
    than two lines.  Otherwise it returns one row per line after the header
    line, in order; the row of a line maps every header name other than
    [__proto__] to the trimmed field at the position of the name's last
    occurrence among the headers (the empty string when the line has no field
    there), and has no other property. *)
Theorem parseCSV_rows (text : jsstring) :
  let lines := Str.split_lines (Str.trim text) in
  let headers := Str.trim <$> Str.split_comma (lines !!! 0) in
  (length lines < 2 → parseCSV text = [])
  ∧ (2 ≤ length lines →
     length (parseCSV text) = length lines - 1
     ∧ ∀ i line,
         lines !! S i = Some line →
         ∃ row, parseCSV text !! i = Some row
                ∧ maps_last headers (Str.trim <$> Str.split_comma line) row).
Proof.
  intros lines headers. unfold parseCSV. fold lines. split.
  - intros Hlt. by rewrite bool_decide_eq_true_2.
  - intros Hge. rewrite bool_decide_eq_false_2 by lia. fold headers. split.
    + by rewrite length_fmap, length_drop.
    + intros i line Hline. eexists. split.
      * rewrite list_lookup_fmap, lookup_drop. simpl. by rewrite Hline.
      * apply fill_row_maps_last.
Qed.

Lemma parseCSV_rows_witness :
  length (parseCSV (lit "a,b" ++ [10%N] ++ lit "1,2" ++ [10%N] ++ lit "3")) = 2
  ∧ parseCSV (lit "a,b") = [].
Proof.
  pose proof (parseCSV_rows (lit "a,b" ++ [10%N] ++ lit "1,2" ++ [10%N] ++ lit "3"))
    as [_ H].
  pose proof (parseCSV_rows (lit "a,b")) as [H0 _].
  split.
  - apply H. vm_compute. lia.
  - apply H0. vm_compute. lia.
Defined.

(** With a header name that occurs twice, the first occurrence is not mapped
    to its own field. *)
Lemma parseCSV_duplicate_header :
  let text := lit "a,a" ++ [10%N] ++ lit "1,2" in
  parseCSV text = [{[ lit "a" := lit "2" ]}]
  ∧ Str.split_lines (Str.trim text) = [lit "a,a"; lit "1,2"]
  ∧ ¬ maps_positionally (Str.trim <$> Str.split_comma (lit "a,a"))
                         (Str.trim <$> Str.split_comma (lit "1,2"))
                         {[ lit "a" := lit "2" ]}.
Proof.
  split_and!.
  - vm_compute. reflexivity.
  - vm_compute. reflexivity.
  - intros Hmap. specialize (Hmap 0 (lit "a") eq_refl).
    rewrite lookup_singleton_eq in Hmap. by vm_compute in Hmap.
Qed.

End csv_facts.

(** ** The filter of loadData *)

Section load_facts.
Variable toLowerCase : jsstring → jsstring.

Lemma filter_fmap {A B} (f : A → B) (P : B → Prop) `{!∀ b, Decision (P b)}
    (l : list A) :
  filter P (f <$> l) = f <$> filter (P ∘ f) l.
Proof.
  induction l as [|a l IH]; [done|].
  rewrite fmap_cons, !filter_cons, IH. unfold compose. by case_decide.
Qed.

Lemma in_years_spec r : in_years (to_record r) ↔ year_in_range r.
Proof.
  unfold in_years, year_in_range, to_record, MIN_YEAR, MAX_YEAR. simpl.
  destruct (parseInt (r !! lit "year")) as [|[]|[|y|y]]; simpl;
    rewrite ?andb_True, ?Is_true_true, ?Z.leb_le; try done; try lia.
  all: intuition.
Qed.

Lemma has_score_spec r : has_score r ↔ ¬ score_missing r.
Proof.
  unfold has_score, score_missing.
  rewrite andb_True, !bool_decide_spec. tauto.
Qed.

Lemma made_cut_spec r : made_cut toLowerCase r ↔ ¬ position_excluded toLowerCase r.
Proof.
  unfold made_cut, position_excluded.
  rewrite negb_True, bool_decide_spec. done.
Qed.

Lemma named_and_scored_spec r :
  named_and_scored (to_record r) ↔ player_named r ∧ ¬ score_non_numeric r.
Proof.
  unfold named_and_scored, player_named, score_non_numeric, to_record. simpl.
  rewrite andb_True, !negb_True, bool_decide_spec.
  destruct (parseInt (r !! lit "score_to_par")); simpl; intuition congruence.
Qed.

Lemma survives_record r : survives toLowerCase r → record_of_row r (to_record r).
Proof.
  intros [(_ & Hscore & _ & Hyear) _]. unfold record_of_row, to_record. simpl.
  split_and!; [done|done| |done|done].
  unfold year_in_range in Hyear.
  destruct (parseInt (r !! lit "year")) as [| |y]; [done|done|].
  exists y. unfold MIN_YEAR in Hyear. by destruct y; try lia.
Qed.


End load_facts.


(** * Further properties *)

(** ** mulberry32: the seed *)

Section seed_facts.
Local Open Scope Z_scope.

Lemma nth_draw_closed_form seed n :
  0 <= seed ->
  seed + Z.of_nat (S n) * 0x6d2b79f5 < 2 ^ 53 ->
  nth_draw seed n
  = MkDraw (mix32 ((seed + Z.of_nat (S n) * 0x6d2b79f5) mod 2 ^ 32)) 32.
Proof.
  intros Hseed Hn. unfold nth_draw. rewrite seed_after_exact by lia.
  pose proof (mulberry32_call_mix (seed + Z.of_nat n * 0x6d2b79f5)) as Hmix.
  pose proof (mulberry32_call_uint32 (seed + Z.of_nat n * 0x6d2b79f5)) as [Hexp _].
  rewrite NumFacts.add_exact in Hmix by lia.
  destruct (mulberry32_call (seed + Z.of_nat n * 0x6d2b79f5)).1 as [u e].
  cbn [dnum dexp] in *.
  rewrite Hmix, Hexp. unfold Num.ToUint32. do 3 f_equal. lia.
Qed.

(** X1.  Two non-negative seeds that agree modulo 2^32 give the same
    value at the same call, as long as both captured states are still below
    2^53: only the low 32 bits of the seed matter. *)
Theorem mulberry32_low_bits (seed seed' : Z) (n : nat) :
  0 <= seed -> 0 <= seed' ->
  seed mod 2 ^ 32 = seed' mod 2 ^ 32 ->
  seed + Z.of_nat (S n) * 0x6d2b79f5 < 2 ^ 53 ->
  seed' + Z.of_nat (S n) * 0x6d2b79f5 < 2 ^ 53 ->
  nth_draw seed n = nth_draw seed' n.
Proof.
  intros Hs Hs' Hmod Hn Hn'. rewrite !nth_draw_closed_form by done.
  f_equal. f_equal.
  rewrite (Z.add_mod seed), (Z.add_mod seed') by lia. by rewrite Hmod.
Qed.

Lemma mulberry32_low_bits_witness :
  nth_draw 42 3 = nth_draw (42 + 2 ^ 32 * 400) 3.
Proof. apply mulberry32_low_bits; [lia|lia|reflexivity|reflexivity|reflexivity]. Defined.

End seed_facts.

(** ** buildPuzzle: groups and hands *)

Section grouping_facts.
Implicit Types (rows : list ResultRecord) (p : jsstring).

Lemma first_seen_snoc {A} `{EqDecision A} (l : list A) x :
  first_seen (l ++ [x]) = if decide (x ∈ l) then first_seen l else first_seen l ++ [x].
Proof.
  unfold first_seen. rewrite reverse_app. simpl.
  destruct (decide_rel elem_of x (reverse l)) as [Hin|Hout];
    rewrite elem_of_reverse in *.
  - by rewrite decide_True.
  - rewrite decide_False by done. by rewrite reverse_cons.
Qed.

Lemma elem_of_first_seen {A} `{EqDecision A} (l : list A) x :
  x ∈ first_seen l ↔ x ∈ l.
Proof. unfold first_seen. by rewrite elem_of_reverse, elem_of_remove_dups, elem_of_reverse. Qed.

Lemma add_row_keys m rows r :
  grouped m rows →
  (add_row m r).*1
  = if decide (player_name r ∈ m.*1) then m.*1 else m.*1 ++ [player_name r].
Proof.
  intros [Hnd Hget]. unfold add_row.
  destruct (JsMap.has (player_name r) m) eqn:Hhas.
  - pose proof Hhas as [events Hev]%has_true. rewrite Hev.
    assert (player_name r ∈ m.*1) as Hin.
    { apply dec_stable. intros Hk%get_None. congruence. }
    rewrite decide_True by done. by apply keys_set_old.
  - pose proof Hhas as Hnone%has_false. pose proof Hnone as Hkey%get_None.
    rewrite get_set_eq, decide_False by done.
    rewrite keys_set_old, keys_set_new; [done|done|].
    rewrite keys_set_new by done. apply elem_of_app. right. by left.
Qed.

Lemma grouped_keys m rows :
  grouped m rows → ∀ p, p ∈ m.*1 ↔ p ∈ player_name <$> rows.
Proof.
  intros [Hnd Hget] p. specialize (Hget p). split.
  - intros Hin. case_decide; [done|]. by apply get_None in Hget.
  - intros Hin. rewrite decide_True in Hget by done.
    apply dec_stable. intros Hk%get_None. congruence.
Qed.

Lemma foldl_add_row_keys rows :
  (foldl add_row [] rows).*1 = first_seen (player_name <$> rows).
Proof.
  induction rows as [|r rows IH] using rev_ind; [done|].
  rewrite foldl_snoc, (fmap_app player_name).
  change (player_name <$> [r]) with [player_name r]. rewrite first_seen_snoc.
  pose proof (foldl_add_row_grouped rows) as Hg.
  rewrite (add_row_keys _ rows) by done. rewrite IH.
  apply decide_ext. rewrite <-IH. by apply grouped_keys.
Qed.

Lemma entries_of_keys {K V} `{EqDecision K} (m : JsMap.t K V) (f : K → V) :
  (∀ k v, (k, v) ∈ m → v = f k) → m = (λ k, (k, f k)) <$> m.*1.
Proof.
  induction m as [|[k v] m IH]; intros Hf; [done|].
  rewrite !fmap_cons. simpl. f_equal.
  - f_equal. apply Hf. by left.
  - apply IH. intros k' v' Hin. apply Hf. by right.
Qed.

Lemma concat_one_bucket (keys : list jsstring) (f : jsstring → list ResultRecord) r :
  NoDup keys → player_name r ∈ keys →
  concat ((λ p, (if decide (player_name r = p) then [r] else []) ++ f p) <$> keys)
  ≡ₚ r :: concat (f <$> keys).
Proof.
  induction keys as [|k keys IH]; intros Hnd Hin; [by apply elem_of_nil in Hin|].
  apply NoDup_cons in Hnd as [Hk Hnd]. rewrite !fmap_cons. simpl.
  destruct (decide (player_name r = k)) as [Heq|Hne].
  - simpl. do 2 f_equiv.
    replace ((λ p, (if decide (player_name r = p) then [r] else []) ++ f p) <$> keys)
      with (f <$> keys); [done|].
    apply list_fmap_ext. intros _ p Hp%list_elem_of_lookup_2.
    rewrite decide_False; [done|]. congruence.
  - simpl. apply elem_of_cons in Hin as [?|Hin]; [done|].
    rewrite (IH Hnd Hin). by rewrite Permutation_middle.
Qed.

Lemma concat_buckets (keys : list jsstring) rows :
  NoDup keys → (∀ r, r ∈ rows → player_name r ∈ keys) →
  concat ((λ p, records_of p rows) <$> keys) ≡ₚ rows.
Proof.
  intros Hnd. induction rows as [|r rows IH]; intros Hin.
  - clear. by induction keys as [|k keys IHk].
  - etrans; [|apply Permutation_skip, IH; intros; apply Hin; by right].
    rewrite <-concat_one_bucket by (try done; apply Hin; by left).
    replace ((λ p, records_of p (r :: rows)) <$> keys)
      with ((λ p, (if decide (player_name r = p) then [r] else [])
                  ++ records_of p rows) <$> keys); [done|].
    apply list_fmap_ext. intros _ p _. unfold records_of.
    rewrite filter_cons. by case_decide.
Qed.

(** X2.  The loop over [rows] leaves in [byPlayer] one entry per distinct
    player, in order of first appearance, each holding that player's records
    in input order; every record is in exactly one bucket. *)
Theorem byPlayer_groups rows :
  foldl add_row [] rows
  = (λ p, (p, records_of p rows)) <$> first_seen (player_name <$> rows)
  ∧ NoDup (first_seen (player_name <$> rows))
  ∧ concat (foldl add_row [] rows).*2 ≡ₚ rows.
Proof.
  pose proof (foldl_add_row_grouped rows) as [Hnd Hget].
  assert (foldl add_row [] rows
          = (λ p, (p, records_of p rows)) <$> first_seen (player_name <$> rows)) as Heq.
  { rewrite <-foldl_add_row_keys. apply entries_of_keys.
    intros p events Hin%(elem_of_get _ _ _ Hnd).
    rewrite Hget in Hin. case_decide; by simplify_eq. }
  split_and!; [done|by rewrite <-foldl_add_row_keys|].
  rewrite Heq, <-list_fmap_compose. apply concat_buckets.
  - by rewrite <-foldl_add_row_keys.
  - intros r Hr. apply elem_of_first_seen, list_elem_of_fmap. eauto.
Qed.

End grouping_facts.

Section hands_facts.
Implicit Types (rows : list ResultRecord) (seed : Z) (σ : Store).

Lemma buildPuzzle_entry_records rows seed σ puzzle e :
  (buildPuzzle rows seed σ).1 = Return puzzle → e ∈ puzzle →
  CARDS_PER_GOLFER ≤ length (records_of (entry_player_name e) rows)
  ∧ ∃ picked, cards e = to_card <$> picked
              ∧ picked ⊆+ records_of (entry_player_name e) rows.
Proof.
  rewrite buildPuzzle_unfold.
  intros (selected & _ & _ & Hsub & Hall)%buildPuzzle_body_puzzle.
  intros [i Hi]%list_elem_of_lookup.
  destruct (Forall2_lookup_r _ _ _ _ _ Hall Hi)
    as ([p events] & Hsel & Hname & shuffled & Hperm & Hhand).
  apply list_elem_of_lookup_2, Hsub, elem_of_qualifying in Hsel as [Hev Hlen].
  simpl in *. rewrite Hname, <-Hev. split; [done|].
  exists (take CARDS_PER_GOLFER shuffled). split; [done|].
  rewrite <-Hperm. apply sublist_submseteq, sublist_take.
Qed.

(** X3.  In a returned puzzle every entry's player has at least
    [CARDS_PER_GOLFER] records in the input, and the entry's cards are the
    projections of records of that player, none of them dealt twice. *)
Theorem buildPuzzle_hands rows seed σ puzzle :
  (buildPuzzle rows seed σ).1 = Return puzzle →
  Forall (λ e,
            CARDS_PER_GOLFER ≤ length (records_of (entry_player_name e) rows)
            ∧ ∃ picked, cards e = to_card <$> picked
                        ∧ picked ⊆+ records_of (entry_player_name e) rows)
         puzzle.
Proof.
  intros Hret. apply Forall_forall. intros e He.
  by eapply buildPuzzle_entry_records.
Qed.

Lemma buildPuzzle_hands_witness :
  ∃ puzzle,
    (buildPuzzle sample_rows 99 []).1 = Return puzzle
    ∧ Forall (λ e,
                CARDS_PER_GOLFER
                ≤ length (records_of (entry_player_name e) sample_rows)
                ∧ ∃ picked, cards e = to_card <$> picked
                            ∧ picked ⊆+ records_of (entry_player_name e) sample_rows)
             puzzle.
Proof.
  eexists. split; [vm_compute; reflexivity|].
  apply (buildPuzzle_hands sample_rows 99 []). vm_compute. reflexivity.
Defined.

Lemma players_le_qualifying rows (players : list jsstring) :
  NoDup players →
  (∀ p, p ∈ players → CARDS_PER_GOLFER ≤ length (records_of p rows)) →
  length players ≤ length (qualifying rows).
Proof.
  intros Hnd Hall. rewrite <-(length_fmap fst (qualifying rows)).
  apply submseteq_length, NoDup_submseteq; [done|].
  intros p Hp. apply list_elem_of_fmap. exists (p, records_of p rows).
  split; [done|]. apply elem_of_qualifying. auto.
Qed.

(** X4.  When no more than [GOLFERS_PER_GAME] players have enough records,
    a returned puzzle shows exactly the players that have, whatever the
    seed. *)
Theorem buildPuzzle_all_qualifying rows seed σ puzzle :
  (∀ players : list jsstring,
     NoDup players →
     (∀ p, p ∈ players → CARDS_PER_GOLFER ≤ length (records_of p rows)) →
     length players ≤ GOLFERS_PER_GAME) →
  (buildPuzzle rows seed σ).1 = Return puzzle →
  ∀ p, p ∈ entry_player_name <$> puzzle
       ↔ CARDS_PER_GOLFER ≤ length (records_of p rows).
Proof.
  intros Hmost. rewrite buildPuzzle_unfold.
  intros (selected & Hlen & Hnd & Hsub & Hall)%buildPuzzle_body_puzzle.
  assert (entry_player_name <$> puzzle = selected.*1) as ->.
  { clear Hnd Hlen Hsub.
    induction Hall as [|entry e selected puzzle [Hname _] _ IH]; [done|].
    rewrite !fmap_cons. by f_equal. }
  assert (length (qualifying rows).*1 ≤ GOLFERS_PER_GAME) as Hq.
  { apply Hmost; [apply qualifying_NoDup|].
    intros p ([p' events] & -> & [-> ?]%elem_of_qualifying)%list_elem_of_fmap.
    done. }
  assert (selected.*1 ≡ₚ (qualifying rows).*1) as Hperm.
  { apply submseteq_length_Permutation.
    - apply NoDup_submseteq; [done|].
      intros p (entry & -> & Hin)%list_elem_of_fmap.
      apply list_elem_of_fmap. eauto.
    - rewrite (length_fmap fst selected), Hlen. done. }
  intros p. rewrite Hperm. split.
  - intros ([p' events] & -> & [-> ?]%elem_of_qualifying)%list_elem_of_fmap. done.
  - intros Hp. apply list_elem_of_fmap. exists (p, records_of p rows).
    split; [done|]. by apply elem_of_qualifying.
Qed.

Lemma buildPuzzle_all_qualifying_witness :
  ∃ puzzle,
    (buildPuzzle sample_rows 5 []).1 = Return puzzle
    ∧ (lit "Bob" ∈ entry_player_name <$> puzzle
       ↔ CARDS_PER_GOLFER ≤ length (records_of (lit "Bob") sample_rows)).
Proof.
  eexists. split; [vm_compute; reflexivity|].
  apply (buildPuzzle_all_qualifying sample_rows 5 []); [|vm_compute; reflexivity].
  intros players Hnd Hall.
  apply (players_le_qualifying sample_rows players Hnd Hall).
Defined.

End hands_facts.


(** ** parseCSV: fields *)

Section trim_facts.
Implicit Types (s : jsstring) (c : N).

Lemma trimStart_suffix s : Str.trimStart s `suffix_of` s.
Proof.
  induction s as [|c s IH]; simpl; [done|].
  case_match; [|done]. by apply suffix_cons_r.
Qed.

Lemma trimStart_head s c : head (Str.trimStart s) = Some c → Str.is_space c = false.
Proof.
  induction s as [|c' s IH]; simpl; [done|].
  destruct (Str.is_space c') eqn:Hc; [done|]. by intros [= <-].
Qed.

Lemma trimStart_id s :
  (∀ c, head s = Some c → Str.is_space c = false) → Str.trimStart s = s.
Proof. destruct s as [|c s]; [done|]. simpl. intros H. by rewrite (H c). Qed.

Lemma trimEnd_prefix s : Str.trimEnd s `prefix_of` s.
Proof.
  unfold Str.trimEnd. destruct (trimStart_suffix (reverse s)) as [k Hk].
  exists (reverse k). apply (inj reverse). by rewrite reverse_app, !reverse_involutive.
Qed.

Lemma trimEnd_last s c : last (Str.trimEnd s) = Some c → Str.is_space c = false.
Proof. unfold Str.trimEnd. rewrite last_reverse. apply trimStart_head. Qed.

Lemma trimEnd_id s :
  (∀ c, last s = Some c → Str.is_space c = false) → Str.trimEnd s = s.
Proof.
  intros H. unfold Str.trimEnd. rewrite trimStart_id; [apply reverse_involutive|].
  intros c. rewrite head_reverse. apply H.
Qed.

Lemma prefix_head s1 s2 c : s1 `prefix_of` s2 → head s1 = Some c → head s2 = Some c.
Proof. intros [k ->]. by destruct s1. Qed.

Lemma trim_trimmed s : trimmed (Str.trim s).
Proof.
  unfold Str.trim. split.
  - intros c Hc. eapply trimStart_head, prefix_head; [apply trimEnd_prefix|done].
  - apply trimEnd_last.
Qed.

Lemma trimmed_trim s : trimmed s → Str.trim s = s.
Proof. intros [Hh Hl]. unfold Str.trim. by rewrite trimStart_id, trimEnd_id. Qed.

Lemma trim_idemp s : Str.trim (Str.trim s) = Str.trim s.
Proof. apply trimmed_trim, trim_trimmed. Qed.

Lemma elem_of_trim s c : c ∈ Str.trim s → c ∈ s.
Proof.
  unfold Str.trim. intros Hc.
  destruct (trimEnd_prefix (Str.trimStart s)) as [k Hk].
  destruct (trimStart_suffix s) as [k' Hk'].
  rewrite Hk', Hk. apply elem_of_app. right. apply elem_of_app. by left.
Qed.

Lemma cons_first_app c (ps : list jsstring) p ps' :
  ps = p :: ps' → Str.cons_first c ps = (c :: p) :: ps'.
Proof. by intros ->. Qed.

Lemma split_comma_nonempty s : Str.split_comma s ≠ [].
Proof. destruct s as [|c s]; [done|]. simpl. case_match; [done|]. by destruct (Str.split_comma s). Qed.

Lemma elem_of_cons_first c (ps : list jsstring) p :
  p ∈ Str.cons_first c ps →
  (∃ p', p = c :: p' ∧ (p' ∈ ps ∨ ps = [] ∧ p' = [])) ∨ p ∈ ps.
Proof.
  destruct ps as [|p0 ps]; simpl.
  - intros ->%list_elem_of_singleton. left. exists []. auto.
  - intros [->|Hin]%elem_of_cons.
    + left. exists p0. split; [done|]. left. by left.
    + right. by right.
Qed.

(** The pieces of [split(',')] hold no comma, and hold only code units of
    the string. *)
Lemma split_comma_pieces s p :
  p ∈ Str.split_comma s → (0x2C%N ∉ p) ∧ (∀ c, c ∈ p → c ∈ s).
Proof.
  revert p. induction s as [|c s IH]; intros p; simpl.
  - intros ->%list_elem_of_singleton. split; [apply not_elem_of_nil|by intros ? ?%elem_of_nil].
  - destruct (N.eqb_spec c 0x2C) as [->|Hc].
    + intros [->|Hin]%elem_of_cons; [split; [apply not_elem_of_nil|by intros ? ?%elem_of_nil]|].
      destruct (IH _ Hin) as [Hno Hsub]. split; [done|]. intros c' ?. right. auto.
    + intros [(p' & -> & [Hin|[Hnil _]])|Hin]%elem_of_cons_first.
      * destruct (IH _ Hin) as [? Hsub]. split.
        -- rewrite not_elem_of_cons. split; [congruence|done].
        -- intros c' [->|?]%elem_of_cons; [by left|right; auto].
      * by apply split_comma_nonempty in Hnil.
      * destruct (IH _ Hin) as [? Hsub]. split; [done|]. intros c' ?. right. auto.
Qed.

Lemma split_comma_join s : join_comma (Str.split_comma s) = s.
Proof.
  induction s as [|c s IH]; simpl; [done|].
  pose proof (split_comma_nonempty s) as Hne.
  destruct (N.eqb_spec c 0x2C) as [->|Hc].
  - destruct (Str.split_comma s) as [|p ps] eqn:Hs; [done|].
    change (join_comma ([] :: p :: ps)) with (0x2C%N :: join_comma (p :: ps)).
    by rewrite IH.
  - destruct (Str.split_comma s) as [|p ps] eqn:Hs; [done|]. simpl.
    rewrite <-IH. by destruct ps.
Qed.

Lemma split_lines_pieces s p :
  p ∈ Str.split_lines s → (0xA%N ∉ p) ∧ (∀ c, c ∈ p → c ∈ s).
Proof.
  revert p. induction s as [s IH] using (induction_ltof1 _ length).
  unfold ltof in IH. intros p. destruct s as [|c s]; simpl.
  - intros ->%list_elem_of_singleton. split; [apply not_elem_of_nil|by intros ? ?%elem_of_nil].
  - assert (∀ p, p ∈ Str.split_lines s → (0xA%N ∉ p) ∧ (∀ c', c' ∈ p → c' ∈ c :: s)) as IHs.
    { intros p' Hp'. destruct (IH s ltac:(simpl; lia) p' Hp') as [? Hsub].
      split; [done|]. intros; right; auto. }
    assert (c ≠ 0xA%N → p ∈ Str.cons_first c (Str.split_lines s) →
            (0xA%N ∉ p) ∧ (∀ c', c' ∈ p → c' ∈ c :: s)) as Hcons.
    { intros Hc [(p' & -> & [Hin|[Hnil _]])|Hin]%elem_of_cons_first.
      - destruct (IHs _ Hin) as [? Hsub]. split.
        + rewrite not_elem_of_cons. split; [congruence|done].
        + intros c' [->|?]%elem_of_cons; [by left|auto].
      - by apply split_lines_nonempty in Hnil.
      - by apply IHs. }
    destruct (N.eqb_spec c 0xA) as [->|Hc].
    { intros [->|Hin]%elem_of_cons; [split; [apply not_elem_of_nil|by intros ? ?%elem_of_nil]|by apply IHs]. }
    destruct (N.eqb_spec c 0xD) as [->|Hc']; [|by apply Hcons].
    destruct s as [|c2 s2]; [by apply Hcons|].
    destruct (N.eqb_spec c2 0xA) as [->|Hc2]; [|by apply Hcons].
    intros [->|Hin]%elem_of_cons; [split; [apply not_elem_of_nil|by intros ? ?%elem_of_nil]|].
    destruct (IH s2 ltac:(simpl; lia) p Hin) as [? Hsub].
    split; [done|]. intros; right; right; auto.
Qed.

End trim_facts.

Section csv_value_facts.
Implicit Types (row : RowObject) (h v : jsstring).

Lemma fill_row_values vals j headers row h v :
  fill_row vals j headers row !! h = Some v →
  row !! h = Some v ∨ (h ∈ headers ∧ (v ∈ vals ∨ v = [])).
Proof.
  revert j row. induction headers as [|h0 headers IH]; intros j row; simpl; [auto|].
  intros [Hrow|[Hin Hv]]%IH.
  - rewrite assign_lookup in Hrow. case_decide as Hh; [|auto].
    destruct Hh as [-> _]. simplify_eq. right. split; [by left|].
    destruct (vals !! j) as [v'|] eqn:Hj; simpl; [|auto].
    left. by eapply list_elem_of_lookup_2.
  - right. split; [by right|done].
Qed.

Lemma clean_trim (line piece : jsstring) :
  (0xA%N ∉ line) → piece ∈ Str.split_comma line →
  trimmed (Str.trim piece) ∧ (0x2C%N ∉ Str.trim piece) ∧ (0xA%N ∉ Str.trim piece).
Proof.
  intros Hline [Hcomma Hsub]%split_comma_pieces. split_and!.
  - apply trim_trimmed.
  - by intros ?%elem_of_trim.
  - intros ?%elem_of_trim. auto.
Qed.

(** X5.  Every property name and every value of a row that [parseCSV] returns
    is trimmed and holds neither a comma nor a line feed: a field cannot
    contain the separators, quoted or not. *)
Theorem parseCSV_fields (text : jsstring) row h v :
  row ∈ parseCSV text → row !! h = Some v →
  (trimmed h ∧ (0x2C%N ∉ h) ∧ (0xA%N ∉ h))
  ∧ (trimmed v ∧ (0x2C%N ∉ v) ∧ (0xA%N ∉ v)).
Proof.
  unfold parseCSV. case_bool_decide as Hlen; [by intros ?%elem_of_nil|].
  set (lines := Str.split_lines (Str.trim text)) in *.
  intros (line & -> & Hline%subseteq_drop)%list_elem_of_fmap Hv.
  apply fill_row_values in Hv as [Hv|[Hh Hv]]; [by rewrite lookup_empty in Hv|].
  assert (∀ l, l ∈ lines → (0xA%N ∉ l)) as Hlf.
  { intros l Hl. by apply split_lines_pieces in Hl as [? _]. }
  split.
  - apply list_elem_of_fmap in Hh as (piece & -> & Hpiece).
    apply (clean_trim (lines !!! 0)); [|done].
    apply Hlf, list_elem_of_lookup_total_2. lia.
  - destruct Hv as [(piece & -> & Hpiece)%list_elem_of_fmap| ->].
    + by apply (clean_trim line); [apply Hlf|].
    + split_and!; [by split|apply not_elem_of_nil..].
Qed.

Lemma parseCSV_fields_witness :
  trimmed (lit "Ann") ∧ (0x2C%N ∉ lit "2021").
Proof.
  pose proof (parseCSV_fields
                (lit "name , year" ++ [13; 10]%N ++ lit " Ann ,2021,x")
                {[ lit "name" := lit "Ann"; lit "year" := lit "2021" ]}) as H.
  split.
  - apply (H (lit "name") (lit "Ann")); [vm_compute; by left|by vm_compute].
  - apply (H (lit "year") (lit "2021")); [vm_compute; by left|by vm_compute].
Defined.

End csv_value_facts.

Section pipeline_facts.
Variable toLowerCase : jsstring → jsstring.
Implicit Types (text : jsstring) (seed : Z) (σ : Store).

Lemma elem_of_loadData_filter (rows : list RowObject) rec :
  rec ∈ loadData_filter toLowerCase rows →
  ∃ r, r ∈ rows ∧ survives toLowerCase r ∧ rec = to_record r.
Proof.
  unfold loadData_filter.
  intros [Hyears [Hnamed (r & -> & [Hcut [Hscore Hr]%list_elem_of_filter]%list_elem_of_filter)%list_elem_of_fmap]%list_elem_of_filter]%list_elem_of_filter.
  exists r. split_and!; [done| |done].
  apply in_years_spec in Hyears. apply named_and_scored_spec in Hnamed as [? ?].
  apply (made_cut_spec toLowerCase) in Hcut. apply has_score_spec in Hscore.
  by repeat split.
Qed.

Lemma loadData_filter_no_rows : loadData_filter toLowerCase [] = [].
Proof. done. Qed.

Lemma buildPuzzle_no_rows seed σ :
  buildPuzzle [] seed σ
  = (Throw (lit "Need at least 4 golfers with 4+ events. Found 0."), σ ++ [seed]).
Proof. done. Qed.

End pipeline_facts.

(** ** From the CSV text to the puzzle *)

Section pipeline_theorems.
Variable toLowerCase : jsstring → jsstring.
Implicit Types (text : jsstring) (seed : Z) (σ : Store).

(** X6.  Whatever the CSV text, a puzzle built from it names only
    players with a non-empty trimmed name and shows only cards whose year is
    an integer within [MIN_YEAR, MAX_YEAR], whose score is a number and whose
    event name is trimmed. *)
Theorem load_and_build_cards text seed σ puzzle :
  (load_and_build toLowerCase text seed σ).1 = Return puzzle →
  Forall (λ e,
            entry_player_name e ≠ [] ∧ trimmed (entry_player_name e)
            ∧ Forall (λ c,
                        (∃ y, card_year c = Finite y
                              ∧ (MIN_YEAR ≤ y ≤ MAX_YEAR)%Z)
                        ∧ card_score_to_par c ≠ NaN
                        ∧ trimmed (card_event_name c))
                     (cards e))
         puzzle.
Proof.
  unfold load_and_build. intros Hret. apply Forall_forall. intros e He.
  destruct (buildPuzzle_entry_records _ _ _ _ _ Hret He)
    as (Hlen & picked & Hcards & Hpicked).
  set (rows := loadData_filter toLowerCase (parseCSV text)) in *.
  assert (∀ rec, rec ∈ records_of (entry_player_name e) rows →
            player_name rec = entry_player_name e
            ∧ ∃ r, survives toLowerCase r ∧ rec = to_record r) as Hrec.
  { intros rec [Hname Hin]%list_elem_of_filter. split; [done|].
    apply elem_of_loadData_filter in Hin as (r & _ & ? & ?). eauto. }
  split_and!.
  - destruct (records_of (entry_player_name e) rows) as [|rec recs] eqn:Hrecs;
      [unfold CARDS_PER_GOLFER in Hlen; simpl in Hlen; lia|].
    destruct (Hrec rec ltac:(left)) as (<- & r & [_ Hnamed] & ->). done.
  - destruct (records_of (entry_player_name e) rows) as [|rec recs] eqn:Hrecs;
      [unfold CARDS_PER_GOLFER in Hlen; simpl in Hlen; lia|].
    destruct (Hrec rec ltac:(left)) as (<- & r & _ & ->). apply trim_trimmed.
  - rewrite Hcards. apply Forall_fmap, Forall_forall. intros rec Hin.
    destruct (Hrec rec) as (_ & r & Hsurv & ->).
    { eapply elem_of_submseteq; [exact Hin|exact Hpicked]. }
    destruct (survives_record toLowerCase r Hsurv) as (_ & _ & (y & Hy & _ & ?) & _ & ?).
    split_and!; [by exists y|done|apply trim_trimmed].
Qed.

Lemma parseCSV_no_column text (row : RowObject) h :
  h ∉ Str.trim <$> Str.split_comma (Str.split_lines (Str.trim text) !!! 0) →
  row ∈ parseCSV text → row !! h = None.
Proof.
  intros Hh. unfold parseCSV. case_bool_decide; [by intros ?%elem_of_nil|].
  intros (line & -> & _)%list_elem_of_fmap.
  apply eq_None_not_Some. intros [Hsome|[? _]]%fill_row_dom; [|done].
  rewrite lookup_empty in Hsome. by destruct Hsome.
Qed.

(** X7.  A CSV text of fewer than two lines, or whose header line has
    no [score_to_par] column, leaves no record: the build throws, reporting
    0 golfers, before any draw. *)
Theorem load_and_build_no_data text seed σ :
  length (Str.split_lines (Str.trim text)) < 2
  ∨ lit "score_to_par"
    ∉ Str.trim <$> Str.split_comma (Str.split_lines (Str.trim text) !!! 0) →
  load_and_build toLowerCase text seed σ
  = (Throw (lit "Need at least 4 golfers with 4+ events. Found 0."), σ ++ [seed]).
Proof.
  intros Hcase. unfold load_and_build.
  assert (loadData_filter toLowerCase (parseCSV text) = []) as ->; [|done].
  destruct Hcase as [Hlen|Hcol].
  - unfold parseCSV. by rewrite bool_decide_eq_true_2.
  - unfold loadData_filter.
    assert (filter has_score (parseCSV text) = []) as ->; [|done].
    pose proof (λ row, parseCSV_no_column text row _ Hcol) as Hnone.
    induction (parseCSV text) as [|row rows IH]; [done|].
    rewrite filter_cons, decide_False.
    + apply IH. intros; apply Hnone; by right.
    + unfold has_score. rewrite (Hnone row) by by left.
      rewrite andb_True, !bool_decide_spec. tauto.
Qed.

End pipeline_theorems.

Lemma load_and_build_no_data_witness :
  load_and_build toLowerCase_ascii
    (lit "player_name,year" ++ [10%N] ++ lit "Ann,2021") 7 []
  = (Throw (lit "Need at least 4 golfers with 4+ events. Found 0."), [7%Z]).
Proof.
  apply (load_and_build_no_data toLowerCase_ascii _ 7 []). right.
  apply (bool_decide_unpack _). by vm_compute.
Defined.

Lemma load_and_build_cards_witness :
  ∃ puzzle,
    (load_and_build toLowerCase_ascii sample_csv 1 []).1 = Return puzzle
    ∧ Forall (λ e,
                entry_player_name e ≠ [] ∧ trimmed (entry_player_name e)
                ∧ Forall (λ c,
                            (∃ y, card_year c = Finite y
                                  ∧ (MIN_YEAR ≤ y ≤ MAX_YEAR)%Z)
                            ∧ card_score_to_par c ≠ NaN
                            ∧ trimmed (card_event_name c))
                         (cards e))
             puzzle.
Proof.
  eexists. split; [vm_compute; reflexivity|].
  apply (load_and_build_cards toLowerCase_ascii sample_csv 1 []).
  vm_compute. reflexivity.
Defined.

Section format_injective.
Local Open Scope Z_scope.

(** X8.  [formatScore] gives different labels to different scores, on the
    integers below 2^53 in magnitude. *)
Theorem formatScore_inj (n m : Z) :
  Z.abs n < 2 ^ 53 → Z.abs m < 2 ^ 53 → n ≠ m → formatScore n ≠ formatScore m.
Proof.
  intros Hn Hm Hne Heq. apply Hne. revert Heq. clear Hne.
  assert (∀ k, 0 <= k → Str.digits_value (Str.digits k) = k) as Hval
    by (intros k Hk; by destruct (digits_spec k Hk) as (_ & ? & _)).
  rewrite !formatScore_numeral by done.
  destruct (Z.eqb_spec n 0) as [->|Hn0], (Z.eqb_spec m 0) as [->|Hm0]; [done|..].
  - case_match; by intros [=].
  - case_match; by intros [=].
  - destruct (Z.ltb_spec 0 n), (Z.ltb_spec 0 m).
    + intros [= Heq]. rewrite <-(Hval n), <-(Hval m) by lia. by rewrite Heq.
    + intros [=].
    + intros [=].
    + intros [= Heq]. apply (f_equal Str.digits_value) in Heq.
      rewrite !Hval in Heq by lia. lia.
Qed.

End format_injective.

Lemma formatScore_inj_witness : formatScore 3 ≠ formatScore (-3).
Proof. apply (formatScore_inj 3 (-3)); lia. Defined.

(** ** The session *)

Module GameFacts.
Import Game.

Section array_facts.
Implicit Types (picks : list (option Number)) (i j : nat) (v : Number).

Lemma read_write_eq picks i v : read (write i v picks) i = Some v.
Proof.
  unfold read, write. case_bool_decide as Hi.
  - by rewrite list_lookup_insert_eq.
  - rewrite lookup_app_r by lia. rewrite lookup_app_r; rewrite length_replicate; [|lia].
    by rewrite Nat.sub_diag.
Qed.

Lemma read_write_ne picks i j v : i ≠ j → read (write i v picks) j = read picks j.
Proof.
  intros Hne. unfold read, write. case_bool_decide as Hi.
  - by rewrite list_lookup_insert_ne.
  - destruct (decide (j < length picks)) as [Hj|Hj].
    + by rewrite lookup_app_l.
    + rewrite (lookup_ge_None_2 picks j) by lia. rewrite lookup_app_r by lia.
      destruct (decide (j - length picks < i - length picks)) as [Hlt|Hge].
      * rewrite lookup_app_l by (rewrite length_replicate; lia).
        by rewrite lookup_replicate_2.
      * rewrite lookup_app_r by (rewrite length_replicate; lia).
        rewrite length_replicate.
        by rewrite lookup_ge_None_2 by (simpl; lia).
Qed.

Lemma length_write picks i v : length (write i v picks) = length picks `max` S i.
Proof.
  unfold write. case_bool_decide.
  - rewrite length_insert. lia.
  - rewrite !length_app, length_replicate. simpl. lia.
Qed.

Lemma read_ge picks i : length picks ≤ i → read picks i = None.
Proof. intros Hi. unfold read. by rewrite lookup_ge_None_2. Qed.

Lemma omap_all_None {A B} (f : A → option B) (l : list A) :
  (∀ x, x ∈ l → f x = None) → omap f l = [].
Proof.
  induction l as [|x l IH]; intros Hf; [done|]. simpl.
  rewrite (Hf x) by by left. apply IH. intros; apply Hf; by right.
Qed.

Lemma omap_fmap_compose {A B C} (f : B → option C) (g : A → B) (l : list A) :
  omap f (g <$> l) = omap (f ∘ g) l.
Proof.
  induction l as [|x l IH]; [done|].
  rewrite fmap_cons. change (omap f (g x :: (g <$> l)))
    with (match f (g x) with Some y => y :: omap f (g <$> l) | None => omap f (g <$> l) end).
  by rewrite IH.
Qed.

(** The defined elements, in index order. *)
Lemma defined_reads picks n :
  length picks ≤ n → defined picks = omap (read picks) (seq 0 n).
Proof.
  unfold defined. revert n. induction picks as [|p picks IH]; intros n Hn.
  - symmetry. apply omap_all_None. intros i _. apply read_ge. simpl. lia.
  - destruct n as [|n]; [simpl in Hn; lia|].
    cbn [seq]. rewrite <-fmap_S_seq. cbn [omap list_omap].
    rewrite (omap_fmap_compose (read (p :: picks)) S).
    change (read (p :: picks) 0) with p. change (id p) with p.
    rewrite (IH n) by (simpl in Hn; lia). done.
Qed.

Lemma omap_one_more {A B} `{EqDecision A} (f f' : A → option B) (l : list A) (a : A) (b : B) :
  NoDup l → a ∈ l → f a = None → f' a = Some b →
  (∀ x, x ≠ a → f' x = f x) →
  length (omap f' l) = S (length (omap f l)).
Proof.
  intros Hnd Ha Hfa Hf'a Hother.
  induction l as [|x l IH]; [by apply elem_of_nil in Ha|].
  apply NoDup_cons in Hnd as [Hx Hnd]. cbn [omap list_omap].
  destruct (decide (x = a)) as [->|Hne].
  - rewrite Hfa, Hf'a. simpl. f_equal. f_equal. apply list_omap_ext.
    apply Forall2_same_length_lookup_2; [done|]. intros k y z Hy Hz. simplify_eq.
    apply Hother. intros ->. apply Hx. by eapply list_elem_of_lookup_2.
  - apply elem_of_cons in Ha as [?|Ha]; [done|].
    rewrite (Hother x Hne). destruct (f x); simpl; by rewrite IH.
Qed.

Lemma count_write picks i v :
  read picks i = None →
  length (defined (write i v picks)) = S (length (defined picks)).
Proof.
  intros Hi. set (n := length picks `max` S i).
  rewrite (defined_reads picks n), (defined_reads (write i v picks) n)
    by (rewrite ?length_write; lia).
  apply (omap_one_more _ _ _ i v); [apply NoDup_seq| |done|apply read_write_eq|].
  - apply elem_of_seq. lia.
  - intros j Hj. by apply read_write_ne.
Qed.

End array_facts.

Section pick_facts.
Implicit Types (w : World) (p : Page) (st : State) (v : Number) (r : nat)
  (cardEl : nat * nat) (g : GridContent).

(** The scorebug leaves the grid and the results alone. *)
Lemma updateScorebug_frame st p :
  grid (updateScorebug st p) = grid p
  ∧ resultsModal (updateScorebug st p) = resultsModal p
  ∧ finalTotal (updateScorebug st p) = finalTotal p
  ∧ vsPar (updateScorebug st p) = vsPar p
  ∧ playAgainBtn_focused (updateScorebug st p) = playAgainBtn_focused p.
Proof.
  unfold updateScorebug. destruct (scorebugEl p), (scorebugValue p); try done.
  by case_bool_decide.
Qed.

Lemma pickCard_locked r v cardEl w :
  is_Some (read (picks (state w)) r) → pickCard r v cardEl w = w.
Proof. intros Hr. unfold pickCard. by rewrite bool_decide_eq_true_2. Qed.

Lemma pickCard_free r v cardEl w :
  read (picks (state w)) r = None →
  let w' := pickCard r v cardEl w in
  let shown := bool_decide (length (defined (picks (state w))) = 3) in
  picks (state w') = write r v (picks (state w))
  ∧ puzzle (state w') = puzzle (state w)
  ∧ grid (page w') = mark_grid cardEl (grid (page w))
  ∧ finalTotal (page w')
    = (if shown then format (total (picks (state w'))) else finalTotal (page w))
  ∧ resultsModal (page w')
    = (if shown then (λ classes, classes ∖ {[lit "hidden"]}) <$> resultsModal (page w)
       else resultsModal (page w))
  ∧ playAgainBtn_focused (page w')
    = (if shown then true else playAgainBtn_focused (page w)).
Proof.
  intros Hr w' shown. subst w' shown. unfold pickCard.
  rewrite bool_decide_eq_false_2 by (rewrite Hr; by intros [? ?]).
  cbn [state page picks puzzle]. rewrite count_write by done.
  set (st := MkState _ _ _). set (p := set_grid _ _).
  destruct (updateScorebug_frame st p) as (Hg & Hm & Hf & _ & Hfoc).
  destruct (decide (length (defined (picks (state w))) = 3)) as [H3|H3].
  - rewrite !bool_decide_eq_true_2 by lia. cbn [showResults grid finalTotal resultsModal playAgainBtn_focused].
    rewrite Hg, Hm. by destruct (page w).
  - rewrite !bool_decide_eq_false_2 by lia. rewrite Hg, Hm, Hf, Hfoc.
    by destruct (page w).
Qed.

Lemma listener_at_mark cardEl cardEl' g :
  listener_at cardEl' (mark_grid cardEl g) = listener_at cardEl' g.
Proof.
  destruct g as [rows|message]; [|done]. simpl.
  destruct (decide (cardEl.1 = cardEl'.1)) as [<-|Hne].
  - rewrite list_lookup_alter_eq. destruct (rows !! cardEl.1) as [row|]; [|done].
    simpl. rewrite list_lookup_fmap.
    destruct (decide (cardEl.2 = cardEl'.2)) as [<-|Hne].
    + rewrite list_lookup_alter_eq. by destruct (row_cards row !! cardEl.2).
    + rewrite list_lookup_alter_ne by done.
      by destruct (row_cards row !! cardEl'.2).
  - by rewrite list_lookup_alter_ne.
Qed.

Lemma listening_mark puzzle cardEl g :
  listening puzzle g → listening puzzle (mark_grid cardEl g).
Proof. intros Hg c. by rewrite listener_at_mark. Qed.

Lemma listening_render puzzle :
  listening puzzle (Rows (imap (render_row []) puzzle)).
Proof.
  intros [r c]. unfold card_at. simpl.
  rewrite list_lookup_imap. destruct (puzzle !! r) as [e|]; [|done]. simpl.
  rewrite list_lookup_fmap. by destruct (cards e !! c).
Qed.

Lemma sign_class_in sum : sign_class sum ∈ sign_classes.
Proof.
  unfold sign_class, sign_classes. rewrite !elem_of_union, !elem_of_singleton.
  destruct (negative sum), (positive sum); tauto.
Qed.

Lemma difference_absorb (T classes : gset jsstring) :
  (classes ∖ T) ∖ T = classes ∖ T.
Proof. apply set_eq. intros x. rewrite !elem_of_difference. tauto. Qed.

Lemma difference_union_absorb (T classes : gset jsstring) c :
  c ∈ T → (classes ∖ T ∪ {[c]}) ∖ T = classes ∖ T.
Proof.
  intros Hc. apply set_eq. intros x.
  rewrite !elem_of_difference, elem_of_union, elem_of_difference, elem_of_singleton.
  split; [|tauto]. intros [[?| ->] ?]; tauto.
Qed.

Lemma toggle_absorb (name : jsstring) (b b2 : bool) (classes : gset jsstring) :
  toggle name b (toggle name b2 classes) = toggle name b classes.
Proof.
  apply set_eq. intros x. unfold toggle. destruct b, b2;
    rewrite ?elem_of_union, ?elem_of_difference, ?elem_of_union,
      ?elem_of_difference, ?elem_of_singleton;
    destruct (decide (x = name)); tauto.
Qed.

(** What [updateScorebug] makes of the scorebug depends on the scorebug
    alone, and not on what an earlier [updateScorebug] made of it. *)
Lemma updateScorebug_part st p q :
  scorebug_part q = scorebug_part p →
  scorebug_part (updateScorebug st q) = scorebug_part (updateScorebug st p).
Proof.
  unfold scorebug_part, updateScorebug. destruct p, q. simpl.
  intros [= -> -> ->]. repeat case_match; simplify_eq/=; done.
Qed.

Lemma updateScorebug_absorb st st0 p :
  scorebug_part (updateScorebug st (updateScorebug st0 p))
  = scorebug_part (updateScorebug st p).
Proof.
  unfold scorebug_part, updateScorebug.
  destruct p as [? ? ? ? ? [classes|] [text|] playAgain]; simpl; try done.
  destruct (bool_decide (length (defined (picks st0)) = 0)); simpl;
    destruct (bool_decide (length (defined (picks st)) = 0)); simpl;
    rewrite ?difference_absorb, ?(difference_union_absorb _ _ _ (sign_class_in _));
    (destruct playAgain; [simpl; by rewrite toggle_absorb|done]).
Qed.

Lemma pickCard_free_scorebug r v cardEl w :
  read (picks (state w)) r = None →
  scorebug_part (page (pickCard r v cardEl w))
  = scorebug_part (updateScorebug (state (pickCard r v cardEl w)) (page w)).
Proof.
  intros Hr. unfold pickCard.
  rewrite bool_decide_eq_false_2 by (rewrite Hr; by intros [? ?]).
  cbn [state page]. set (st := MkState _ _ _).
  rewrite <-(updateScorebug_part st (page w)
               (set_grid (mark_grid cardEl (grid (page w))) (page w)))
    by by destruct (page w).
  by case_bool_decide.
Qed.

End pick_facts.

Section click_facts.
Implicit Types (w : World) (p : Page) (st : State) (v : Number) (r : nat)
  (cardEl : nat * nat) (g : GridContent) (puzzle : Puzzle)
  (clicks : list (nat * nat)).

Lemma first_pick_snoc puzzle clicks cardEl r :
  first_pick puzzle (clicks ++ [cardEl]) r
  = match first_pick puzzle clicks r with
    | Some v => Some v
    | None =>
        card ← card_at puzzle cardEl;
        if decide (cardEl.1 = r) then Some (card_score_to_par card) else None
    end.
Proof.
  induction clicks as [|c clicks IH]; simpl.
  - destruct (card_at puzzle cardEl); [|done]. simpl. by case_decide.
  - destruct (card_at puzzle c); [|done].
    destruct (decide (c.1 = r)); [done|exact IH].
Qed.

Lemma card_at_row puzzle cardEl card :
  card_at puzzle cardEl = Some card → cardEl.1 < length puzzle.
Proof.
  unfold card_at. destruct (puzzle !! cardEl.1) eqn:He; [|done].
  intros _. by eapply lookup_lt_Some.
Qed.

Lemma defined_scores (picks : list (option Number)) (f : nat → option Number) n :
  (∀ r, read picks r = f r) → length picks ≤ n →
  defined picks = omap f (seq 0 n).
Proof.
  intros Hf Hn. rewrite (defined_reads picks n) by done.
  apply list_omap_ext, Forall2_same_length_lookup_2; [done|].
  intros k x y Hx Hy. simplify_eq. apply Hf.
Qed.

Lemma length_omap_le {A B} (f : A → option B) (l : list A) :
  length (omap f l) ≤ length l.
Proof.
  induction l as [|x l IH]; [done|]. cbn [omap list_omap].
  destruct (f x); cbn [length]; lia.
Qed.

Lemma omap_ext_fun {A B} (f g : A → option B) (l : list A) :
  (∀ x, f x = g x) → omap f l = omap g l.
Proof.
  intros Hfg. apply list_omap_ext, Forall2_same_length_lookup_2; [done|].
  intros k x y Hx Hy. simplify_eq. apply Hfg.
Qed.

End click_facts.

Section game_facts.
Variable toLowerCase : jsstring → jsstring.
Implicit Types (w : World) (p : Page) (st : State) (v : Number) (r : nat)
  (cardEl : nat * nat) (g : GridContent) (puzzle : Puzzle)
  (clicks : list (nat * nat)) (events : list Event).

Lemma run_snoc w events e :
  run toLowerCase w (events ++ [e])
  = step toLowerCase (run toLowerCase w events) e.
Proof. unfold run. by rewrite foldl_app. Qed.

(** What a run of clicks on a grid of four rows keeps true. *)
Lemma clicks_keep puzzle w clicks :
  length puzzle = 4 → picks (state w) = [] → listening puzzle (grid (page w)) →
  let w' := run toLowerCase w (Click <$> clicks) in
  let scores := omap (first_pick puzzle clicks) (seq 0 4) in
  (∀ r, read (picks (state w')) r = first_pick puzzle clicks r)
  ∧ length (picks (state w')) ≤ 4
  ∧ listening puzzle (grid (page w'))
  ∧ (scores = [] → scorebug_part (page w') = scorebug_part (page w))
  ∧ (scores ≠ [] →
     scorebug_part (page w') = scorebug_part (updateScorebug (state w') (page w)))
  ∧ (if bool_decide (length scores = 4) then
       finalTotal (page w') = format (foldl plus (Finite 0) scores)
       ∧ resultsModal (page w')
         = (λ classes, classes ∖ {[lit "hidden"]}) <$> resultsModal (page w)
       ∧ playAgainBtn_focused (page w') = true
     else
       finalTotal (page w') = finalTotal (page w)
       ∧ resultsModal (page w') = resultsModal (page w)
       ∧ playAgainBtn_focused (page w') = playAgainBtn_focused (page w)).
Proof.
  intros Hlen Hpicks Hlisten. cbv zeta.
  induction clicks as [|c clicks IH] using rev_ind.
  { simpl. rewrite Hpicks. split_and!; try done. simpl; lia. }
  rewrite fmap_app. change (Click <$> [c]) with [Click c].
  rewrite run_snoc. cbn [step].
  set (wk := run toLowerCase w (Click <$> clicks)) in *.
  destruct IH as (I1 & I2 & I3 & I4 & I5 & I6).
  pose proof (defined_scores _ _ 4 I1 I2) as Hdef.
  assert ((∀ r, first_pick puzzle (clicks ++ [c]) r = first_pick puzzle clicks r) →
          click c wk = wk →
          (∀ r, read (picks (state (click c wk))) r = first_pick puzzle (clicks ++ [c]) r)
          ∧ length (picks (state (click c wk))) ≤ 4
          ∧ listening puzzle (grid (page (click c wk)))
          ∧ (omap (first_pick puzzle (clicks ++ [c])) (seq 0 4) = [] →
             scorebug_part (page (click c wk)) = scorebug_part (page w))
          ∧ (omap (first_pick puzzle (clicks ++ [c])) (seq 0 4) ≠ [] →
             scorebug_part (page (click c wk))
             = scorebug_part (updateScorebug (state (click c wk)) (page w)))
          ∧ (if bool_decide
                  (length (omap (first_pick puzzle (clicks ++ [c])) (seq 0 4)) = 4)
             then
               finalTotal (page (click c wk))
               = format (foldl plus (Finite 0)
                           (omap (first_pick puzzle (clicks ++ [c])) (seq 0 4)))
               ∧ resultsModal (page (click c wk))
                 = (λ classes, classes ∖ {[lit "hidden"]}) <$> resultsModal (page w)
               ∧ playAgainBtn_focused (page (click c wk)) = true
             else
               finalTotal (page (click c wk)) = finalTotal (page w)
               ∧ resultsModal (page (click c wk)) = resultsModal (page w)
               ∧ playAgainBtn_focused (page (click c wk))
                 = playAgainBtn_focused (page w))) as Hsame.
  { intros Hfp ->. rewrite (omap_ext_fun _ _ _ Hfp). split_and!; try done.
    intros r. by rewrite Hfp. }
  destruct (card_at puzzle c) as [card|] eqn:Hcard; cycle 1.
  { apply Hsame.
    - intros r. rewrite first_pick_snoc, Hcard. by destruct (first_pick puzzle clicks r).
    - unfold click. by rewrite (I3 c), Hcard. }
  destruct (read (picks (state wk)) c.1) as [v|] eqn:Hread.
  { apply Hsame.
    - intros r. rewrite first_pick_snoc, Hcard. cbn [mbind option_bind].
      destruct (first_pick puzzle clicks r) eqn:Hr; [done|].
      destruct (decide (c.1 = r)) as [<-|?]; [|done].
      rewrite I1 in Hread. congruence.
    - unfold click. rewrite (I3 c), Hcard. cbn [fmap option_fmap option_map].
      apply pickCard_locked. eauto. }
  clear Hsame. unfold click. rewrite (I3 c), Hcard. cbn [fmap option_fmap option_map].
  destruct (pickCard_free c.1 (card_score_to_par card) c wk Hread)
    as (Hp & _ & Hg & Hft & Hrm & Hfoc).
  pose proof (pickCard_free_scorebug c.1 (card_score_to_par card) c wk Hread) as Hsb.
  set (w2 := pickCard c.1 (card_score_to_par card) c wk) in *.
  assert (∀ r, read (picks (state w2)) r = first_pick puzzle (clicks ++ [c]) r) as J1.
  { intros r. rewrite Hp, first_pick_snoc, Hcard. cbn [mbind option_bind].
    destruct (decide (c.1 = r)) as [<-|Hne].
    - by rewrite read_write_eq, <-I1, Hread.
    - rewrite read_write_ne, I1 by done. by destruct (first_pick puzzle clicks r). }
  assert (length (picks (state w2)) ≤ 4) as J2.
  { rewrite Hp, length_write. apply card_at_row in Hcard. lia. }
  pose proof (defined_scores _ _ 4 J1 J2) as Hdef2.
  assert (length (omap (first_pick puzzle (clicks ++ [c])) (seq 0 4))
          = S (length (omap (first_pick puzzle clicks) (seq 0 4)))) as Hcount.
  { rewrite <-Hdef2, <-Hdef, Hp. by apply count_write. }
  pose proof (length_omap_le (first_pick puzzle (clicks ++ [c])) (seq 0 4)) as Hle.
  rewrite length_seq in Hle.
  split_and!; [done|done|by rewrite Hg; apply listening_mark| | |].
  - intros Hnil. by rewrite Hnil in Hcount.
  - intros _. rewrite Hsb.
    destruct (decide (omap (first_pick puzzle clicks) (seq 0 4) = [])) as [Hnil|Hsome].
    + by apply updateScorebug_part, I4.
    + rewrite <-(updateScorebug_absorb (state w2) (state wk) (page w)).
      by apply updateScorebug_part, I5.
  - rewrite Hft, Hrm, Hfoc, Hdef. unfold total. rewrite Hdef2.
    destruct (decide (length (omap (first_pick puzzle clicks) (seq 0 4)) = 3)) as [H3|H3].
    + rewrite !bool_decide_eq_true_2 by lia.
      rewrite bool_decide_eq_false_2 in I6 by lia. by destruct I6 as (_ & -> & _).
    + rewrite !bool_decide_eq_false_2 by lia.
      rewrite bool_decide_eq_false_2 in I6 by lia. done.
Qed.

Lemma buildPuzzle_four rows seed σ puzzle :
  (buildPuzzle rows seed σ).1 = Return puzzle → length puzzle = 4.
Proof.
  rewrite buildPuzzle_unfold.
  intros (selected & Hlen & _ & _ & Hall)%buildPuzzle_body_puzzle.
  by rewrite <-(Forall2_length _ _ _ Hall).
Qed.

Lemma load_and_build_four text seed σ0 puzzle σ :
  load_and_build toLowerCase text seed σ0 = (Return puzzle, σ) → length puzzle = 4.
Proof.
  intros Hload.
  apply (buildPuzzle_four (loadData_filter toLowerCase (parseCSV text)) seed σ0).
  unfold load_and_build in Hload. by rewrite Hload.
Qed.

(** The world when a puzzle has been built from the text that arrived. *)
Lemma loaded_Return w seed text puzzle σ :
  load_and_build toLowerCase text seed (store w) = (Return puzzle, σ) →
  let st := MkState (Some puzzle) (picks (state w)) (Game.seed (state w)) in
  loaded toLowerCase seed text w
  = MkWorld st (set_grid (Rows (imap (render_row (picks (state w))) puzzle))
                         (updateScorebug st (page w))) σ.
Proof. intros Hload. unfold loaded. by rewrite Hload. Qed.

(** X10.  When the CSV text arrives with no pick made and a puzzle is
    built from it, then after any clicks the pick of each row is the score of
    the first card clicked in that row.  Once each of the four rows has a
    pick, the results hold the label of the sum of the four picks, the results
    modal has lost [hidden] and the play-again button has the focus; until
    then the results are as they were. *)
Theorem four_picks w seed text puzzle σ clicks :
  picks (state w) = [] →
  load_and_build toLowerCase text seed (store w) = (Return puzzle, σ) →
  let w' := run toLowerCase w (Loaded seed text :: (Click <$> clicks)) in
  let scores := omap (first_pick puzzle clicks) (seq 0 4) in
  (∀ r, read (picks (state w')) r = first_pick puzzle clicks r)
  ∧ (if bool_decide (length scores = 4) then
       finalTotal (page w') = format (foldl plus (Finite 0) scores)
       ∧ resultsModal (page w')
         = (λ classes, classes ∖ {[lit "hidden"]}) <$> resultsModal (page w)
       ∧ playAgainBtn_focused (page w') = true
     else
       finalTotal (page w') = finalTotal (page w)
       ∧ resultsModal (page w') = resultsModal (page w)
       ∧ playAgainBtn_focused (page w') = playAgainBtn_focused (page w)).
Proof.
  intros Hpicks Hload w' scores. subst w'. cbn [run foldl step].
  rewrite (loaded_Return _ _ _ _ _ Hload), Hpicks.
  set (st := MkState _ _ _). set (w1 := MkWorld _ _ _).
  destruct (clicks_keep puzzle w1 clicks (load_and_build_four _ _ _ _ _ Hload)
              eq_refl (listening_render puzzle)) as (I1 & _ & _ & _ & _ & I6).
  split; [exact I1|]. cbn [page w1 set_grid finalTotal resultsModal
                            playAgainBtn_focused] in I6.
  destruct (updateScorebug_frame st (page w)) as (_ & Hrm & Hft & _ & Hfoc).
  by rewrite Hrm, Hft, Hfoc in I6.
Qed.

(** X11.  When the CSV text arrives with no pick made and a puzzle is
    built from it, on a page that has the scorebug and its value: after any
    clicks the scorebug shows the dash if no row has a pick and the label of
    the sum of the picks otherwise; of the three sign classes it carries the
    one of that sum and no other (none if no row has a pick); its play-again
    button is hidden unless all four rows have a pick. *)
Theorem scorebug_follows w seed text puzzle σ clicks classes label :
  picks (state w) = [] →
  load_and_build toLowerCase text seed (store w) = (Return puzzle, σ) →
  scorebugEl (page w) = Some classes → scorebugValue (page w) = Some label →
  let w' := run toLowerCase w (Loaded seed text :: (Click <$> clicks)) in
  let scores := omap (first_pick puzzle clicks) (seq 0 4) in
  let sum := foldl plus (Finite 0) scores in
  scorebugValue (page w')
  = Some (if bool_decide (scores = []) then [0x2014%N] else format sum)
  ∧ scorebugEl (page w')
    = Some (if bool_decide (scores = []) then classes ∖ sign_classes
            else classes ∖ sign_classes ∪ {[sign_class sum]})
  ∧ scorebugPlayAgain (page w')
    = toggle (lit "hidden") (negb (bool_decide (length scores = 4)))
        <$> scorebugPlayAgain (page w).
Proof.
  intros Hpicks Hload Hel Hval w' scores sum. subst w'. cbn [run foldl step].
  rewrite (loaded_Return _ _ _ _ _ Hload), Hpicks.
  set (st := MkState _ _ _). set (w1 := MkWorld _ _ _).
  destruct (clicks_keep puzzle w1 clicks (load_and_build_four _ _ _ _ _ Hload)
              eq_refl (listening_render puzzle)) as (I1 & I2 & _ & I4 & I5 & _).
  pose proof (defined_scores _ _ 4 I1 I2) as Hdef. fold scores in I4, I5, Hdef.
  set (w2 := run toLowerCase w1 (Click <$> clicks)) in *.
  assert (scorebug_part (page w2) = scorebug_part (updateScorebug (state w2) (page w)))
    as Hpart.
  { destruct (decide (scores = [])) as [Hnil|Hsome].
    - rewrite (I4 Hnil). subst w1. cbn [page].
      transitivity (scorebug_part (updateScorebug st (page w)));
        [by destruct (updateScorebug st (page w))|].
      unfold scorebug_part, updateScorebug. rewrite Hel, Hval, Hdef, Hnil. done.
    - rewrite (I5 Hsome). subst w1. cbn [page].
      rewrite <-(updateScorebug_absorb (state w2) st (page w)).
      apply updateScorebug_part. by destruct (updateScorebug st (page w)). }
  unfold scorebug_part, updateScorebug in Hpart. rewrite Hel, Hval, Hdef in Hpart.
  destruct (decide (scores = [])) as [Hnil|Hsome].
  - rewrite (bool_decide_eq_true_2 (scores = [])) by done.
    rewrite bool_decide_eq_true_2 in Hpart by by rewrite Hnil.
    injection Hpart as H1 H2 H3. split_and!; [exact H2|exact H1|exact H3].
  - rewrite (bool_decide_eq_false_2 (scores = [])) by done.
    rewrite bool_decide_eq_false_2 in Hpart by by destruct scores.
    injection Hpart as H1 H2 H3. split_and!; [exact H2|exact H1|exact H3].
Qed.

Lemma step_keeps_pick w e r v :
  keeps_game e → read (picks (state w)) r = Some v →
  read (picks (state (step toLowerCase w e))) r = Some v.
Proof.
  intros He Hr. destruct e as [now|c| |now|seed text|status|message]; try done.
  - cbn [step]. unfold click. destruct (listener_at c (grid (page w))) as [s|]; [|done].
    destruct (read (picks (state w)) c.1) as [v'|] eqn:Hc.
    + rewrite pickCard_locked by eauto. done.
    + destruct (pickCard_free c.1 s c w Hc) as (-> & _).
      rewrite read_write_ne; [done|]. intros <-. congruence.
  - cbn [step]. unfold loaded.
    by destruct (load_and_build toLowerCase text seed (store w)) as [[puzzle|message] σ].
Qed.

(** X12.  Whatever happens short of a new game (clicks, closing the
    results, data arriving or failing to), a row's pick stays what it is. *)
Theorem picks_locked w events r v :
  Forall keeps_game events →
  read (picks (state w)) r = Some v →
  read (picks (state (run toLowerCase w events))) r = Some v.
Proof.
  intros Hev. revert w. induction Hev as [|e events He _ IH]; intros w Hr; [done|].
  apply IH. by apply step_keeps_pick.
Qed.

Lemma render_fresh puzzle :
  imap (render_row []) puzzle
  = (λ e, MkRowEl false (face_down <$> cards e)) <$> puzzle.
Proof. by rewrite <-imap_const. Qed.

(** X13.  A click on a play-again button followed by the arrival of a CSV
    text from which a puzzle can be built: the state holds that puzzle, no
    pick and the new seed; the grid has one row per golfer, none picked, all
    cards face down, each with a listener holding its score; there are four
    rows; the results modal is hidden; the scorebug, when the page has it,
    shows the dash and none of the sign classes, with its play-again button
    hidden. *)
Theorem play_again_deals w now text puzzle σ :
  load_and_build toLowerCase text now (store w) = (Return puzzle, σ) →
  let w' := run toLowerCase w [PlayAgain now; Loaded now text] in
  state w' = MkState (Some puzzle) [] now
  ∧ store w' = σ
  ∧ length puzzle = 4
  ∧ grid (page w')
    = Rows ((λ e, MkRowEl false (face_down <$> cards e)) <$> puzzle)
  ∧ resultsModal (page w')
    = (λ classes, classes ∪ {[lit "hidden"]}) <$> resultsModal (page w)
  ∧ (is_Some (scorebugEl (page w)) → is_Some (scorebugValue (page w)) →
     scorebugValue (page w') = Some [0x2014%N]
     ∧ scorebugEl (page w')
       = (λ classes, classes ∖ sign_classes) <$> scorebugEl (page w)
     ∧ scorebugPlayAgain (page w')
       = (λ classes, classes ∪ {[lit "hidden"]}) <$> scorebugPlayAgain (page w)).
Proof.
  intros Hload w'. subst w'. cbn [run foldl step].
  rewrite (loaded_Return (handlePlayAgain now w) _ _ _ _ Hload).
  unfold handlePlayAgain. cbn [initGame store state page picks seed grid set_grid].
  rewrite render_fresh. split_and!; try done.
  - by eapply load_and_build_four.
  - cbn [set_grid resultsModal].
    by destruct (updateScorebug_frame (MkState (Some puzzle) [] now)
                   (closeResultsModal (page w))) as (_ & -> & _).
  - intros [classes Hel] [t Hval]. unfold updateScorebug.
    destruct (page w) as [? ? ? ? ? ? ? playAgain]. simpl in *. subst. simpl.
    by split_and!.
Qed.

(** X14.  When the data fails to load (a rejected fetch, a status that is
    not ok, or a text from which no puzzle can be built) the state is left as
    it is, the grid holds the error message and the scorebug value, if there,
    the dash; clicks after that do nothing. *)
Theorem failed_load_stops w e message clicks :
  e = Rejected message
  ∨ (∃ status, e = NotOk status
               ∧ message = lit "Failed to load data/golf_results.csv: "
                           ++ Str.of_int status)
  ∨ (∃ seed text, e = Loaded seed text
                  ∧ (load_and_build toLowerCase text seed (store w)).1
                    = Throw message) →
  let w' := run toLowerCase w (e :: (Click <$> clicks)) in
  w' = step toLowerCase w e
  ∧ state w' = state w
  ∧ grid (page w') = LoadError message
  ∧ scorebugValue (page w') = (λ _, [0x2014%N]) <$> scorebugValue (page w)
  ∧ resultsModal (page w') = resultsModal (page w)
  ∧ finalTotal (page w') = finalTotal (page w).
Proof.
  intros He w'.
  assert (∀ w0, grid (page w0) = LoadError message →
                run toLowerCase w0 (Click <$> clicks) = w0) as Hdead.
  { intros w0 Hg. induction clicks as [|c clicks IH]; [done|].
    cbn [fmap list_fmap run foldl step]. unfold click. rewrite Hg. exact IH. }
  assert (state (step toLowerCase w e) = state w
          ∧ grid (page (step toLowerCase w e)) = LoadError message
          ∧ scorebugValue (page (step toLowerCase w e))
            = (λ _, [0x2014%N]) <$> scorebugValue (page w)
          ∧ resultsModal (page (step toLowerCase w e)) = resultsModal (page w)
          ∧ finalTotal (page (step toLowerCase w e)) = finalTotal (page w))
    as (Hst & Hg & Hsb & Hrm & Hft).
  { destruct He as [->|[(status & -> & ->)|(seed & text & -> & Hthrow)]];
      [done|done|].
    cbn [step]. unfold loaded.
    destruct (load_and_build toLowerCase text seed (store w)) as [[puzzle|m] σ];
      simpl in Hthrow; [done|]. by injection Hthrow as ->. }
  subst w'. change (run toLowerCase w (e :: (Click <$> clicks)))
    with (run toLowerCase (step toLowerCase w e) (Click <$> clicks)).
  by rewrite (Hdead _ Hg).
Qed.

(** X15.  A card of the old grid that is clicked after a play-again
    button, before the new data has arrived, gives its score to its row of
    the new game: when the new puzzle is rendered that row holds the pick and
    none of its cards has a listener. *)
Theorem stale_click w c v now text puzzle σ :
  listener_at c (grid (page w)) = Some v →
  load_and_build toLowerCase text now (store w) = (Return puzzle, σ) →
  let w' := run toLowerCase w [PlayAgain now; Click c; Loaded now text] in
  Game.puzzle (state w') = Some puzzle
  ∧ read (picks (state w')) c.1 = Some v
  ∧ ∀ col, listener_at (c.1, col) (grid (page w')) = None.
Proof.
  intros Hl Hload w'. subst w'. cbn [run foldl step].
  set (w1 := handlePlayAgain now w).
  assert (listener_at c (grid (page w1)) = Some v) as Hl1
    by (subst w1; unfold handlePlayAgain; by destruct (page w)).
  assert (read (picks (state w1)) c.1 = None) as Hfree by done.
  unfold click. rewrite Hl1.
  destruct (pickCard_free c.1 v c w1 Hfree) as (Hp & _).
  assert (store (pickCard c.1 v c w1) = store w) as Hstore.
  { unfold pickCard. by rewrite bool_decide_eq_false_2 by (rewrite Hfree; by intros [? ?]). }
  rewrite (loaded_Return _ now text puzzle σ) by by rewrite Hstore.
  cbn [state picks Game.puzzle page grid set_grid].
  rewrite Hp. split_and!; [done|apply read_write_eq|].
  intros col. cbn [listener_at fst snd].
  rewrite list_lookup_imap. destruct (puzzle !! c.1) as [e|]; [|done].
  cbn [fmap option_fmap option_map mbind option_bind render_row row_cards].
  rewrite list_lookup_fmap, read_write_eq.
  by destruct (cards e !! col).
Qed.

End game_facts.

Lemma four_picks_witness :
  let w := MkWorld (MkState None [] 1) sample_page [] in
  let clicks := [(0, 1); (1, 0); (0, 2); (9, 9); (2, 2); (3, 3)] in
  let w' := run toLowerCase_ascii w (Loaded 1 sample_csv :: (Click <$> clicks)) in
  let scores := omap (first_pick sample_puzzle clicks) (seq 0 4) in
  (∀ r, read (picks (state w')) r = first_pick sample_puzzle clicks r)
  ∧ (if bool_decide (length scores = 4) then
       finalTotal (page w') = format (foldl plus (Finite 0) scores)
       ∧ resultsModal (page w')
         = (λ classes, classes ∖ {[lit "hidden"]}) <$> resultsModal (page w)
       ∧ playAgainBtn_focused (page w') = true
     else
       finalTotal (page w') = finalTotal (page w)
       ∧ resultsModal (page w') = resultsModal (page w)
       ∧ playAgainBtn_focused (page w') = playAgainBtn_focused (page w)).
Proof.
  apply (four_picks toLowerCase_ascii (MkWorld (MkState None [] 1) sample_page [])
           1 sample_csv sample_puzzle [27473487196%Z]
           [(0, 1); (1, 0); (0, 2); (9, 9); (2, 2); (3, 3)]);
    [reflexivity|by vm_compute].
Defined.

Lemma scorebug_follows_witness :
  let w := MkWorld (MkState None [] 1) sample_page [] in
  let clicks := [(0, 1); (3, 1)] in
  let w' := run toLowerCase_ascii w (Loaded 1 sample_csv :: (Click <$> clicks)) in
  let scores := omap (first_pick sample_puzzle clicks) (seq 0 4) in
  let sum := foldl plus (Finite 0) scores in
  scorebugValue (page w')
  = Some (if bool_decide (scores = []) then [0x2014%N] else format sum)
  ∧ scorebugEl (page w')
    = Some (if bool_decide (scores = []) then {[lit "scorebug"]} ∖ sign_classes
            else {[lit "scorebug"]} ∖ sign_classes ∪ {[sign_class sum]})
  ∧ scorebugPlayAgain (page w')
    = toggle (lit "hidden") (negb (bool_decide (length scores = 4)))
        <$> scorebugPlayAgain (page w).
Proof.
  apply (scorebug_follows toLowerCase_ascii
           (MkWorld (MkState None [] 1) sample_page []) 1 sample_csv sample_puzzle
           [27473487196%Z] [(0, 1); (3, 1)] {[lit "scorebug"]} []);
    [reflexivity|by vm_compute|reflexivity|reflexivity].
Defined.

Lemma picks_locked_witness :
  let w := run toLowerCase_ascii (MkWorld (MkState None [] 1) sample_page [])
             [Loaded 1 sample_csv] in
  read (picks (state (run toLowerCase_ascii (click (0, 1) w)
                        [Click (0, 2); CloseModal; Click (1, 0); Rejected (lit "offline");
                         Click (0, 3)])))
       0
  = Some (Finite (-2)).
Proof.
  apply (picks_locked toLowerCase_ascii); [|by vm_compute].
  repeat constructor.
Defined.

Lemma play_again_deals_witness :
  let w := MkWorld (MkState None [Some (Finite 3)] 0) sample_page [] in
  let w' := run toLowerCase_ascii w [PlayAgain 1; Loaded 1 sample_csv] in
  state w' = MkState (Some sample_puzzle) [] 1
  ∧ store w' = [27473487196%Z]
  ∧ length sample_puzzle = 4
  ∧ grid (page w')
    = Rows ((λ e, MkRowEl false (face_down <$> cards e)) <$> sample_puzzle)
  ∧ resultsModal (page w')
    = (λ classes, classes ∪ {[lit "hidden"]}) <$> resultsModal (page w)
  ∧ (is_Some (scorebugEl (page w)) → is_Some (scorebugValue (page w)) →
     scorebugValue (page w') = Some [0x2014%N]
     ∧ scorebugEl (page w')
       = (λ classes, classes ∖ sign_classes) <$> scorebugEl (page w)
     ∧ scorebugPlayAgain (page w')
       = (λ classes, classes ∪ {[lit "hidden"]}) <$> scorebugPlayAgain (page w)).
Proof.
  apply (play_again_deals toLowerCase_ascii
           (MkWorld (MkState None [Some (Finite 3)] 0) sample_page []) 1 sample_csv
           sample_puzzle [27473487196%Z]).
  by vm_compute.
Defined.

Lemma failed_load_stops_witness :
  let w := MkWorld (MkState None [] 5) sample_page [] in
  let w' := run toLowerCase_ascii w
              (Loaded 5 (lit "player_name") :: (Click <$> [(0, 0); (1, 2)])) in
  w' = step toLowerCase_ascii w (Loaded 5 (lit "player_name"))
  ∧ state w' = state w
  ∧ grid (page w')
    = LoadError (lit "Need at least 4 golfers with 4+ events. Found 0.")
  ∧ scorebugValue (page w') = (λ _, [0x2014%N]) <$> scorebugValue (page w)
  ∧ resultsModal (page w') = resultsModal (page w)
  ∧ finalTotal (page w') = finalTotal (page w).
Proof.
  apply (failed_load_stops toLowerCase_ascii). right. right.
  exists 5%Z, (lit "player_name"). split; [reflexivity|by vm_compute].
Defined.

Lemma stale_click_witness :
  let w := run toLowerCase_ascii (MkWorld (MkState None [] 1) sample_page [])
             [Loaded 1 sample_csv] in
  let w' := run toLowerCase_ascii w [PlayAgain 7; Click (2, 3); Loaded 7 sample_csv] in
  ∃ puzzle,
    Game.puzzle (state w') = Some puzzle
    ∧ read (picks (state w')) 2 = Some (Finite 1)
    ∧ ∀ col, listener_at (2, col) (grid (page w')) = None.
Proof.
  eexists.
  apply (stale_click toLowerCase_ascii
           (run toLowerCase_ascii (MkWorld (MkState None [] 1) sample_page [])
              [Loaded 1 sample_csv])
           (2, 3) (Finite 1) 7 sample_csv _ [27473487196%Z; 27473487202%Z]);
    by vm_compute.
Defined.

End GameFacts.

(** ** parseInt *)

Section digit_facts.
Implicit Types (s id : jsstring).

Lemma take_digits_digits s : Forall (λ c, Str.is_digit c = true) (Str.take_digits s).
Proof.
  induction s as [|c s IH]; simpl; [constructor|].
  destruct (Str.is_digit c) eqn:Hc; by constructor.
Qed.

Lemma take_digits_drop s : Str.take_digits s ++ drop (length (Str.take_digits s)) s = s.
Proof.
  induction s as [|c s IH]; simpl; [done|].
  destruct (Str.is_digit c); simpl; [by rewrite IH|done].
Qed.

Lemma take_digits_app id s :
  Forall (λ c, Str.is_digit c = true) id →
  (∀ c, head s = Some c → Str.is_digit c = false) →
  Str.take_digits (id ++ s) = id.
Proof.
  intros Hid Hs. induction Hid as [|c id Hc _ IH]; simpl.
  - destruct s as [|c s]; [done|]. simpl. by rewrite (Hs c).
  - by rewrite Hc, IH.
Qed.

Lemma trimStart_spaces (ws s : jsstring) :
  Forall (λ c, Str.is_space c = true) ws →
  (∀ c, head s = Some c → Str.is_space c = false) →
  Str.trimStart (ws ++ s) = s.
Proof.
  intros Hws Hs. induction Hws as [|c ws Hc _ IH]; simpl.
  - by apply trimStart_id.
  - by rewrite Hc.
Qed.

Lemma digits_nonempty (n : Z) : Str.digits n ≠ [].
Proof. apply digits_from_nonempty. Qed.

Lemma digit_not_sign c :
  Str.is_digit c = true →
  Str.is_space c = false ∧ (c =? 0x2D)%N = false ∧ (c =? 0x2B)%N = false.
Proof.
  unfold Str.is_digit, Str.is_space. intros [H1 H2]%andb_true_iff.
  apply N.leb_le in H1, H2. split_and!.
  - apply orb_false_iff. split.
    + apply bool_decide_eq_false_2. rewrite !elem_of_cons, elem_of_nil. lia.
    + apply andb_false_iff. left. apply N.leb_gt. lia.
  - apply N.eqb_neq. lia.
  - apply N.eqb_neq. lia.
Qed.

(** [parseInt(s, 10)] on white space, then a decimal numeral (for [z >= 0]
    also with a plus sign before it), then any text that does not start
    with a digit. *)
Lemma parseInt_numeral_within (z : Z) (ws rest : jsstring) :
  Forall (λ c, Str.is_space c = true) ws →
  (∀ c, head rest = Some c → Str.is_digit c = false) →
  parseInt (Some (ws ++ Str.numeral z ++ rest)) = of_integer z
  ∧ ((0 <= z)%Z →
     parseInt (Some (ws ++ 0x2B%N :: Str.numeral z ++ rest)) = of_integer z).
Proof.
  intros Hws Hrest.
  assert (∀ n, (0 <= n)%Z →
               ∃ c ds, Str.digits n = c :: ds ∧ Str.is_digit c = true
                       ∧ Str.take_digits (Str.digits n ++ rest) = Str.digits n
                       ∧ Str.digits_value (Str.digits n) = n) as Hdig.
  { intros n Hn. destruct (digits_spec n Hn) as (Hall & Hval & _).
    pose proof (digits_nonempty n) as Hne.
    destruct (Str.digits n) as [|c ds] eqn:Hd; [done|]. exists c, ds.
    split_and!; [done| |by apply take_digits_app|done].
    by apply Forall_cons in Hall as [? _]. }
  unfold parseInt, ToString. cbn [default from_option]. unfold id. split.
  - unfold Str.numeral. destruct (Z.ltb_spec z 0) as [Hneg|Hpos].
    + rewrite trimStart_spaces by (done || by intros c [= <-]).
      cbn [app]. rewrite N.eqb_refl. cbv beta iota zeta.
      destruct (Hdig (- z)%Z ltac:(lia)) as (c & ds & Hd & _ & -> & ->).
      rewrite Hd. f_equal. lia.
    + destruct (Hdig z Hpos) as (c & ds & Hd & Hc & Htake & Hval).
      destruct (digit_not_sign c Hc) as (Hsp & Hm & Hp).
      rewrite trimStart_spaces by (done || rewrite Hd; by intros ? [= <-]).
      rewrite Hd in *. cbn [app]. rewrite Hm, Hp. cbv beta iota zeta.
      change (c :: ds ++ rest) with ((c :: ds) ++ rest). rewrite Htake, Hval.
      f_equal. lia.
  - intros Hpos. unfold Str.numeral. rewrite (proj2 (Z.ltb_ge z 0)) by done.
    rewrite trimStart_spaces by (done || by intros c [= <-]).
    change ((0x2B%N =? 0x2D)%N) with false. rewrite N.eqb_refl. cbv beta iota zeta.
    destruct (Hdig z Hpos) as (c & ds & Hd & _ & -> & ->).
    rewrite Hd. f_equal. lia.
Qed.

(** The Number for a safe integer is that integer. *)
Lemma of_integer_safe (z : Z) : (Z.abs z < 2 ^ 53)%Z → of_integer z = Finite z.
Proof.
  intros Hz. unfold of_integer. rewrite NumFacts.fl_exact by done.
  by rewrite (proj2 (Z.leb_gt _ _))
    by (change (2 ^ 1024)%Z with (2 ^ 53 * 2 ^ 971)%Z; lia).
Qed.

(** X9.  The [.map] callback of [loadData] reads a year and a score that
    [String] wrote, for integers below 2^53 in magnitude: from a row whose
    [year] is white space, then [String(y)], then any text that does not
    start with a digit, and whose [score_to_par] is the same for [s] (for
    [s >= 0] also with a plus sign before the digits, as [formatScore]
    writes it), the record has the year [y] and the score [s], and the row
    passes the filter on [score_to_par]. *)
Theorem to_record_reads (r : RowObject) (y s : Z) (ws ws' rest rest' : jsstring) :
  (Z.abs y < 2 ^ 53)%Z → (Z.abs s < 2 ^ 53)%Z →
  Forall (λ c, Str.is_space c = true) ws →
  Forall (λ c, Str.is_space c = true) ws' →
  (∀ c, head rest = Some c → Str.is_digit c = false) →
  (∀ c, head rest' = Some c → Str.is_digit c = false) →
  r !! lit "year" = Some (ws ++ Str.of_int y ++ rest) →
  r !! lit "score_to_par" = Some (ws' ++ Str.of_int s ++ rest')
  ∨ ((0 <= s)%Z
     ∧ r !! lit "score_to_par" = Some (ws' ++ 0x2B%N :: Str.of_int s ++ rest')) →
  has_score r = true
  ∧ year (to_record r) = Finite y
  ∧ score_to_par (to_record r) = Finite s.
Proof.
  intros Hy Hs Hws Hws' Hrest Hrest' Hyear Hscore.
  destruct (parseInt_numeral_within y ws rest Hws Hrest) as [Hpy _].
  destruct (parseInt_numeral_within s ws' rest' Hws' Hrest') as [Hps Hplus].
  rewrite of_int_numeral in Hyear, Hscore by done.
  rewrite of_integer_safe in Hpy, Hps, Hplus by done.
  pose proof (digits_nonempty s) as Hne. pose proof (digits_nonempty (- s)) as Hne'.
  unfold has_score, to_record. cbn [year score_to_par]. rewrite Hyear, Hpy.
  split_and!.
  - apply andb_true_iff. split; apply bool_decide_eq_true_2.
    + destruct Hscore as [->|[_ ->]]; intros [= Hnil];
        apply app_eq_nil in Hnil as [_ Hnil]; [|done].
      apply app_eq_nil in Hnil as [Hnil _]. unfold Str.numeral in Hnil.
      by destruct (s <? 0)%Z.
    + by destruct Hscore as [->|[_ ->]].
  - by destruct y.
  - destruct Hscore as [->|[Hpos ->]]; [done|by apply Hplus].
Qed.

End digit_facts.

Lemma to_record_reads_witness :
  let r : RowObject :=
    {[ lit "year" := [0x20%N; 0x9%N] ++ Str.of_int 2021 ++ lit ".5";
       lit "score_to_par" := lit "+" ++ Str.of_int 7 ++ lit " (T12)" ]} in
  has_score r = true
  ∧ year (to_record r) = Finite 2021
  ∧ score_to_par (to_record r) = Finite 7.
Proof.
  intros r.
  apply (to_record_reads r 2021 7 [0x20%N; 0x9%N] [] (lit ".5") (lit " (T12)")).
  - lia.
  - lia.
  - by repeat constructor.
  - constructor.
  - by intros c [= <-].
  - by intros c [= <-].
  - by vm_compute.
  - right. split; [lia|by vm_compute].
Defined.

(** ** The roster script *)

Module RosterFacts.
Import Roster.

Section regex_facts.
Implicit Types (s pre id : jsstring).

Lemma match_here_Some s id :
  match_here s = Some id ↔
  s = 0x2F%N :: id ++ lit ".png" ∧ id ≠ [] ∧ Forall (λ c, Str.is_digit c = true) id.
Proof.
  unfold match_here. split.
  - destruct s as [|c s]; [done|]. destruct (N.eqb_spec c 0x2F) as [->|]; [|done].
    case_bool_decide as Hm; [|done]. destruct Hm as [Hne Hpng]. intros [= <-].
    split_and!; [|done|apply take_digits_digits].
    by rewrite <-Hpng, take_digits_drop.
  - intros (-> & Hne & Hid). rewrite N.eqb_refl. cbv zeta.
    rewrite (take_digits_app id) by (done || by intros c [= <-]).
    rewrite drop_app_length. by rewrite bool_decide_eq_true_2.
Qed.

Lemma regex_match_Some s id :
  regex_match s = Some id ↔
  ∃ pre, s = pre ++ 0x2F%N :: id ++ lit ".png"
         ∧ id ≠ [] ∧ Forall (λ c, Str.is_digit c = true) id.
Proof.
  split.
  - induction s as [|c s IH].
    + by cbn.
    + cbn [regex_match]. destruct (match_here (c :: s)) as [group|] eqn:Hm.
      * intros [= ->]. apply match_here_Some in Hm as (-> & ? & ?). by exists [].
      * intros (pre & -> & ? & ?)%IH. by exists (c :: pre).
  - intros (pre & -> & Hne & Hid). induction pre as [|c pre IH].
    + cbn [regex_match app].
      by rewrite (proj2 (match_here_Some (0x2F%N :: id ++ lit ".png") id)).
    + cbn [regex_match app].
      destruct (match_here (c :: pre ++ 0x2F%N :: id ++ lit ".png")) as [group|] eqn:Hm;
        [|exact IH].
      apply match_here_Some in Hm as ([= -> Heq] & _ & Hgroup). exfalso.
      assert (0x2F%N ∈ group ++ lit ".png") as [Hin|Hin]%elem_of_app.
      { rewrite <-Heq. apply elem_of_app. right. by left. }
      * by apply (proj1 (Forall_forall _ _) Hgroup) in Hin.
      * by apply (bool_decide_pack _) in Hin.
Qed.

(** X16.  [extractPersonIdFromImgUrl] returns an id exactly on a string
    that ends with a slash, one or more decimal digits and [.png]; the id is
    those digits.  On anything that is not a string it returns [null]. *)
Theorem extractPersonIdFromImgUrl_spec (imgURL : Value) id :
  extractPersonIdFromImgUrl imgURL = Some id ↔
  ∃ pre, imgURL = Text (pre ++ 0x2F%N :: id ++ lit ".png")
         ∧ id ≠ [] ∧ Forall (λ c, Str.is_digit c = true) id.
Proof.
  unfold extractPersonIdFromImgUrl. split.
  - destruct imgURL as [| | |s|]; try done. case_bool_decide; [done|].
    intros (pre & -> & ? & ?)%regex_match_Some. by exists pre.
  - intros (pre & -> & Hne & Hid).
    rewrite bool_decide_eq_false_2 by by destruct pre.
    apply regex_match_Some. by exists pre.
Qed.

End regex_facts.

Section lookup_facts.
Implicit Types (lookup : RowObject) (p : Player) (key : jsstring)
  (ps : list Player).

Lemma add_player_lookup lookup p key :
  key ≠ lit "__proto__" →
  add_player lookup p !! key = from_option Some (lookup !! key) (named key p).
Proof.
  intros Hkey. unfold add_player, named.
  destruct (extractPersonIdFromImgUrl (imgURL p)) as [id|];
    [|by destruct (andb _ _)].
  destruct (truthy (name p)); [|done]. simpl.
  rewrite assign_lookup. case_bool_decide as Hk.
  - rewrite decide_True; [done|]. split; [done|]. by rewrite Hk.
  - rewrite decide_False; [done|]. by intros [? _].
Qed.

Lemma add_player_proto lookup p :
  lookup !! lit "__proto__" = None → add_player lookup p !! lit "__proto__" = None.
Proof.
  intros Hnone. unfold add_player.
  destruct (extractPersonIdFromImgUrl (imgURL p)) as [id|]; [|done].
  destruct (truthy (name p)); [|done].
  rewrite assign_lookup, decide_False; [done|]. by intros [? ?].
Qed.

Lemma add_players_Some lookup (players : list (option Player)) :
  add_players lookup players
  = (λ ps, foldl add_player lookup ps) <$> mapM id players.
Proof.
  revert lookup. induction players as [|[p|] players IH]; intros lookup; [done| |done].
  cbn [add_players]. rewrite IH. cbn [mapM]. simpl.
  by destruct (mapM id players).
Qed.

Lemma foldl_add_player_lookup lookup ps key :
  key ≠ lit "__proto__" →
  foldl add_player lookup ps !! key
  = from_option Some (lookup !! key) (last (omap (named key) ps)).
Proof.
  intros Hkey. induction ps as [|p ps IH] using rev_ind; [done|].
  rewrite foldl_app. cbn [foldl]. rewrite add_player_lookup by done.
  rewrite omap_app. cbn [omap list_omap]. destruct (named key p) as [id|].
  - by rewrite last_snoc.
  - by rewrite app_nil_r.
Qed.

Lemma foldl_add_player_proto lookup ps :
  lookup !! lit "__proto__" = None →
  foldl add_player lookup ps !! lit "__proto__" = None.
Proof.
  revert lookup. induction ps as [|p ps IH]; intros lookup Hnone; [done|].
  apply IH. by apply add_player_proto.
Qed.


End lookup_facts.

End RosterFacts.

(** ** Reading back a CSV text *)

Section csv_round_trip.
Implicit Types (f l s : jsstring) (fs header : list jsstring)
  (ls : list jsstring) (rows : list (list jsstring)).

Lemma split_comma_field f rest :
  (0x2C%N ∉ f) → Str.split_comma (f ++ 0x2C%N :: rest) = f :: Str.split_comma rest.
Proof.
  induction f as [|c f IH]; intros Hf; simpl.
  - done.
  - apply not_elem_of_cons in Hf as [Hc Hf].
    rewrite (proj2 (N.eqb_neq c 0x2C)) by done. by rewrite IH.
Qed.

Lemma split_comma_single f : (0x2C%N ∉ f) → Str.split_comma f = [f].
Proof.
  induction f as [|c f IH]; intros Hf; simpl; [done|].
  apply not_elem_of_cons in Hf as [Hc Hf].
  rewrite (proj2 (N.eqb_neq c 0x2C)) by done. by rewrite IH.
Qed.

Lemma split_comma_join_comma fs :
  fs ≠ [] → Forall (λ f, 0x2C%N ∉ f) fs → Str.split_comma (join_comma fs) = fs.
Proof.
  intros Hne Hfs. induction Hfs as [|f fs Hf Hfs IH]; [done|].
  destruct fs as [|f' fs]; [by apply split_comma_single|].
  change (join_comma (f :: f' :: fs)) with (f ++ 0x2C%N :: join_comma (f' :: fs)).
  rewrite split_comma_field by done. by rewrite IH.
Qed.

Lemma split_lines_single l : (0xA%N ∉ l) → Str.split_lines l = [l].
Proof.
  induction l as [|c l IH]; intros Hl; [done|].
  apply not_elem_of_cons in Hl as [Hc Hl]. cbn [Str.split_lines].
  rewrite (proj2 (N.eqb_neq c 0xA)) by done. rewrite (IH Hl).
  destruct (c =? 0xD)%N; [|done].
  destruct l as [|c' l]; [done|].
  apply not_elem_of_cons in Hl as [Hc' _].
  by rewrite (proj2 (N.eqb_neq c' 0xA)) by done.
Qed.

Lemma split_lines_line l rest :
  (0xA%N ∉ l) → last l ≠ Some 0xD%N →
  Str.split_lines (l ++ 0xA%N :: rest) = l :: Str.split_lines rest.
Proof.
  induction l as [|c l IH]; intros Hl Hlast; [done|].
  apply not_elem_of_cons in Hl as [Hc Hl]. cbn [Str.split_lines app].
  rewrite (proj2 (N.eqb_neq c 0xA)) by done.
  assert (l ≠ [] → last l ≠ Some 0xD%N) as Hlast'.
  { intros Hne. by destruct l. }
  destruct (N.eqb_spec c 0xD) as [->|Hcr].
  - destruct l as [|c' l]; [done|].
    apply not_elem_of_cons in Hl as [Hc' Hl]. cbn [app].
    rewrite (proj2 (N.eqb_neq c' 0xA)) by done.
    change (c' :: l ++ 0xA%N :: rest) with ((c' :: l) ++ 0xA%N :: rest).
    rewrite IH; [done| |by apply Hlast'].
    by apply not_elem_of_cons.
  - destruct l as [|c' l]; [done|]. by rewrite IH by (done || by apply Hlast').
Qed.

Lemma split_lines_join_lines ls :
  ls ≠ [] → Forall (λ l, (0xA%N ∉ l) ∧ last l ≠ Some 0xD%N) ls →
  Str.split_lines (join_lines ls) = ls.
Proof.
  intros Hne Hls. induction Hls as [|l ls [Hl Hlast] Hls IH]; [done|].
  destruct ls as [|l' ls]; [by apply split_lines_single|].
  change (join_lines (l :: l' :: ls)) with (l ++ 0xA%N :: join_lines (l' :: ls)).
  rewrite split_lines_line by done. by rewrite IH.
Qed.

Lemma comma_not_space : Str.is_space 0x2C = false.
Proof. done. Qed.

Lemma join_comma_trimmed fs : Forall clean fs → trimmed (join_comma fs).
Proof.
  intros Hfs. induction Hfs as [|f fs [[Hh Hl] _] Hfs IH]; [done|].
  destruct fs as [|f' fs]; [done|].
  change (join_comma (f :: f' :: fs)) with (f ++ 0x2C%N :: join_comma (f' :: fs)).
  destruct IH as [_ IHl]. split.
  - intros c. destruct f as [|c' f]; simpl.
    + by intros [= <-].
    + apply Hh.
  - intros c. rewrite last_app. rewrite last_cons.
    destruct (last (join_comma (f' :: fs))) as [c'|] eqn:Hlast; simpl.
    + intros [= <-]. by apply IHl.
    + by intros [= <-].
Qed.

Lemma join_comma_no_lf fs : Forall clean fs → 0xA%N ∉ join_comma fs.
Proof.
  intros Hfs. induction Hfs as [|f fs (_ & _ & Hlf) Hfs IH]; [apply not_elem_of_nil|].
  destruct fs as [|f' fs]; [done|].
  change (join_comma (f :: f' :: fs)) with (f ++ 0x2C%N :: join_comma (f' :: fs)).
  rewrite not_elem_of_app, not_elem_of_cons. done.
Qed.

Lemma trimmed_no_cr l : trimmed l → last l ≠ Some 0xD%N.
Proof. intros [_ Hl] Hcr. by apply Hl in Hcr. Qed.

Lemma join_lines_trimmed ls :
  Forall trimmed ls →
  (∀ l, head ls = Some l → l ≠ []) → (∀ l, last ls = Some l → l ≠ []) →
  trimmed (join_lines ls).
Proof.
  intros Hls Hfirst Hlast. split.
  - destruct Hls as [|l ls [Hh _] Hls]; [done|].
    intros c. destruct ls as [|l' ls]; [apply Hh|].
    change (join_lines (l :: l' :: ls)) with (l ++ 0xA%N :: join_lines (l' :: ls)).
    destruct l as [|c' l]; [by destruct (Hfirst [] eq_refl)|]. apply Hh.
  - clear Hfirst. induction Hls as [|l ls [_ Hl] Hls IH]; [done|].
    destruct ls as [|l' ls]; [apply Hl|].
    change (join_lines (l :: l' :: ls)) with (l ++ 0xA%N :: join_lines (l' :: ls)).
    intros c. rewrite last_app, last_cons.
    assert (last (join_lines (l' :: ls)) ≠ None) as Hne.
    { clear IH Hl. revert Hlast. generalize l'. clear.
      induction ls as [|l'' ls IH]; intros l' Hlast.
      - rewrite last_None. apply (Hlast l'). done.
      - change (join_lines (l' :: l'' :: ls))
          with (l' ++ 0xA%N :: join_lines (l'' :: ls)).
        rewrite last_app, last_cons.
        by destruct (last (join_lines (l'' :: ls))). }
    destruct (last (join_lines (l' :: ls))) as [c'|] eqn:Hc; [|done]. simpl.
    intros [= <-]. apply IH; [|done]. intros l0 Hl0. apply Hlast.
    by rewrite last_cons, Hl0.
Qed.

Lemma fill_row_zip vals headers j row :
  NoDup headers → lit "__proto__" ∉ headers → length headers ≤ length vals - j →
  fill_row vals j headers row = list_to_map (zip headers (drop j vals)) ∪ row.
Proof.
  intros Hnd Hproto. revert j row.
  induction Hnd as [|h headers Hh Hnd IH]; intros j row Hlen.
  - simpl. by rewrite (left_id ∅ _).
  - simpl in Hlen. cbn [fill_row].
    apply not_elem_of_cons in Hproto as [Hp Hproto].
    rewrite IH by (done || lia).
    destruct (lookup_lt_is_Some_2 vals j ltac:(lia)) as [v Hv].
    rewrite Hv. cbn [default from_option]. unfold assign. rewrite decide_False by done.
    rewrite (drop_S _ _ _ Hv).
    change (zip (h :: headers) (v :: drop (S j) vals))
      with ((h, v) :: zip headers (drop (S j) vals)).
    rewrite list_to_map_cons, <-insert_union_l, insert_union_r; [done|].
    apply not_elem_of_list_to_map_1. intros Hin. apply Hh.
    apply list_elem_of_fmap in Hin as ([h' v'] & -> & Hin).
    by apply elem_of_zip_l in Hin.
Qed.

Lemma is_clean_clean f : is_clean f = true → clean f.
Proof.
  unfold is_clean. rewrite !andb_true_iff, !bool_decide_eq_true.
  intros [[[Hh Hl] ?] ?]. split_and!; [|done|done]. split.
  - intros c Hc. rewrite Hc in Hh. by apply negb_true_iff.
  - intros c Hc. rewrite Hc in Hl. by apply negb_true_iff.
Qed.

Lemma fmap_trim_clean fs : Forall clean fs → Str.trim <$> fs = fs.
Proof.
  intros Hfs. induction Hfs as [|f fs [Hf _] _ IH]; [done|].
  by rewrite fmap_cons, IH, trimmed_trim.
Qed.

Lemma parseCSV_lines (hline : jsstring) (lines : list jsstring) :
  Forall (λ l, trimmed l ∧ (0xA%N ∉ l)) (hline :: lines) →
  hline ≠ [] → lines ≠ [] → (∀ l, last lines = Some l → l ≠ []) →
  parseCSV (join_lines (hline :: lines))
  = (λ line, fill_row (Str.trim <$> Str.split_comma line) 0
                      (Str.trim <$> Str.split_comma hline) ∅) <$> lines.
Proof.
  intros Hlines Hfirst Hsome Hlast.
  assert (trimmed (join_lines (hline :: lines))) as Htext.
  { apply join_lines_trimmed.
    - eapply Forall_impl; [exact Hlines|]. by intros l [? _].
    - by intros l [= <-].
    - intros l. rewrite last_cons. destruct (last lines) as [l'|] eqn:Hl.
      + intros [= <-]. by apply Hlast.
      + apply last_None in Hl. by destruct lines. }
  unfold parseCSV. rewrite (trimmed_trim _ Htext).
  rewrite split_lines_join_lines; [|done|].
  2:{ eapply Forall_impl; [exact Hlines|]. intros l [? ?].
      by split; [|apply trimmed_no_cr]. }
  rewrite bool_decide_eq_false_2 by (destruct lines; simpl; [done|lia]).
  done.
Qed.

Lemma line_of_fields fs : Forall clean fs → trimmed (join_comma fs) ∧ (0xA%N ∉ join_comma fs).
Proof. intros Hfs. by split; [apply join_comma_trimmed|apply join_comma_no_lf]. Qed.

Lemma fields_of_line fs :
  fs ≠ [] → Forall clean fs → Str.trim <$> Str.split_comma (join_comma fs) = fs.
Proof.
  intros Hne Hfs. rewrite split_comma_join_comma; [by apply fmap_trim_clean|done|].
  eapply Forall_impl; [exact Hfs|]. by intros f (_ & ? & _).
Qed.

Lemma row_of_fields header fields :
  NoDup header → lit "__proto__" ∉ header → Forall clean header → header ≠ [] →
  length fields = length header → Forall clean fields →
  fill_row (Str.trim <$> Str.split_comma (join_comma fields)) 0
           (Str.trim <$> Str.split_comma (join_comma header)) ∅
  = list_to_map (zip header fields).
Proof.
  intros Hnd Hproto Hheader Hne Hlen Hfields.
  rewrite !fields_of_line by (done || intros ->; by destruct header).
  rewrite fill_row_zip by (done || lia). by rewrite drop_0, (right_id ∅ _).
Qed.

(** X18.  [parseCSV] reads back a table written with commas and line
    feeds.  For a header of distinct clean names, none of them [__proto__],
    and at least one row, each row with as many clean fields as the header,
    the header line and the last line not empty: it returns, row by row, the
    object that maps each header name to the field of the row at its
    position. *)
Theorem parseCSV_to_csv header rows :
  NoDup header → lit "__proto__" ∉ header → Forall clean header →
  Forall (λ fields, length fields = length header ∧ Forall clean fields) rows →
  join_comma header ≠ [] → rows ≠ [] →
  (∀ fields, last rows = Some fields → join_comma fields ≠ []) →
  parseCSV (to_csv header rows)
  = (λ fields, list_to_map (zip header fields)) <$> rows.
Proof.
  intros Hnd Hproto Hheader Hrows Hfirst Hsome Hlast.
  assert (header ≠ []) as Hne by by intros ->.
  unfold to_csv. rewrite parseCSV_lines.
  - rewrite <-list_fmap_compose. apply Forall_fmap_ext.
    eapply Forall_impl; [exact Hrows|]. intros fields [Hlen Hf]. simpl.
    by apply row_of_fields.
  - apply Forall_cons. split; [by apply line_of_fields|].
    apply Forall_fmap. eapply Forall_impl; [exact Hrows|]. intros fields [_ Hf].
    by apply line_of_fields.
  - done.
  - by destruct rows.
  - intros l. rewrite fmap_last.
    destruct (last rows) as [fields|] eqn:Hf; [|done]. intros [= <-]. by apply Hlast.
Qed.

End csv_round_trip.

Section load_round_trip.
Variable toLowerCase : jsstring → jsstring.

Lemma numeral_chars z c :
  c ∈ Str.numeral z → Str.is_digit c = true ∨ c = 0x2D%N.
Proof.
  unfold Str.numeral. destruct (Z.ltb_spec z 0).
  - intros [->|Hc]%elem_of_cons; [by right|left].
    destruct (digits_spec (- z)%Z ltac:(lia)) as (Hall & _).
    by apply (proj1 (Forall_forall _ _) Hall).
  - intros Hc. left. destruct (digits_spec z ltac:(lia)) as (Hall & _).
    by apply (proj1 (Forall_forall _ _) Hall).
Qed.

Lemma numeral_nonempty z : Str.numeral z ≠ [].
Proof.
  unfold Str.numeral. destruct (z <? 0)%Z; [done|]. apply digits_nonempty.
Qed.

Lemma numeral_clean z : clean (Str.numeral z).
Proof.
  assert (∀ c, c ∈ Str.numeral z →
               Str.is_space c = false ∧ c ≠ 0x2C%N ∧ c ≠ 0xA%N) as Hc.
  { intros c [Hd| ->]%numeral_chars; [|done].
    destruct (digit_not_sign c Hd) as (? & _). split; [done|].
    unfold Str.is_digit in Hd. apply andb_true_iff in Hd as [H1 H2].
    apply N.leb_le in H1, H2. lia. }
  split_and!.
  - split.
    + intros c Hh. apply Hc. destruct (Str.numeral z); [done|].
      injection Hh as ->. by left.
    + intros c Hl. apply Hc. apply last_Some in Hl as [l' ->].
      apply elem_of_app. right. by left.
  - intros Hin. by destruct (Hc _ Hin) as (_ & ? & _).
  - intros Hin. by destruct (Hc _ Hin) as (_ & _ & ?).
Qed.

Lemma parseInt_numeral z : parseInt (Some (Str.numeral z)) = of_integer z.
Proof.
  assert (∀ n, (0 <= n)%Z →
               ∃ c ds, Str.digits n = c :: ds ∧ Str.is_digit c = true
                       ∧ Str.take_digits (Str.digits n) = Str.digits n
                       ∧ Str.digits_value (Str.digits n) = n) as Hdig.
  { intros n Hn. destruct (digits_spec n Hn) as (Hall & Hval & _).
    pose proof (digits_nonempty n) as Hne.
    destruct (Str.digits n) as [|c ds] eqn:Hd; [done|]. exists c, ds.
    split_and!; [done| | |done].
    - by apply Forall_cons in Hall as [? _].
    - rewrite <-(app_nil_r (c :: ds)) at 1. by apply take_digits_app. }
  unfold parseInt, ToString. cbn [default from_option]. unfold id.
  rewrite trimStart_id.
  2:{ destruct (numeral_clean z) as [[Hh _] _]. exact Hh. }
  unfold Str.numeral. destruct (Z.ltb_spec z 0) as [Hneg|Hpos].
  - rewrite N.eqb_refl. cbv beta iota zeta.
    destruct (Hdig (- z)%Z ltac:(lia)) as (c & ds & Hd & _ & -> & ->).
    rewrite Hd. f_equal. lia.
  - destruct (Hdig z Hpos) as (c & ds & Hd & Hc & Htake & Hval).
    destruct (digit_not_sign c Hc) as (_ & Hm & Hp).
    rewrite Hd in *. rewrite Hm, Hp. cbv beta iota zeta. rewrite Htake, Hval.
    f_equal. lia.
Qed.

Lemma filter_all {A} (P : A → Prop) `{!∀ a, Decision (P a)} (l : list A) :
  Forall P l → filter P l = l.
Proof.
  intros Hl. induction Hl as [|a l Ha _ IH]; [done|].
  by rewrite filter_cons, decide_True, IH.
Qed.

Lemma written_row w field v :
  (field, v) ∈ zip HEADER (fields_of w) →
  (list_to_map (zip HEADER (fields_of w)) : RowObject) !! field = Some v.
Proof.
  apply elem_of_list_to_map_1. apply (bool_decide_unpack _). by vm_compute.
Qed.

(** X19.  [loadData] reads back what a writer of [golf_results.csv] wrote.
    For a non-empty list of results whose player (not empty), event and
    position are clean fields, whose year is within [MIN_YEAR, MAX_YEAR],
    whose score is below 2^53 in magnitude (so that [String] writes its
    decimal numeral) and whose position in lower case is not an excluded
    one: from the text with the header line and one line per result,
    [parseCSV] and the filters give the results back, in order, each with
    its names as written, its year and its score. *)
Theorem loadData_reads_back (ws : list Written) :
  ws ≠ [] →
  Forall (λ w, clean (w_player w) ∧ w_player w ≠ [] ∧ clean (w_event w)
               ∧ (MIN_YEAR ≤ w_year w ≤ MAX_YEAR)%Z
               ∧ (Z.abs (w_score w) < 2 ^ 53)%Z
               ∧ clean (w_position w)
               ∧ toLowerCase (w_position w) ∉ EXCLUDED_POSITIONS) ws →
  loadData_filter toLowerCase (parseCSV (to_csv HEADER (fields_of <$> ws)))
  = read_back <$> ws.
Proof.
  intros Hne Hws.
  assert (Forall clean HEADER) as Hheader
    by (repeat constructor; by apply is_clean_clean).
  assert (Forall (λ w, Forall clean (fields_of w)) ws) as Hfields.
  { eapply Forall_impl; [exact Hws|]. intros w (? & _ & ? & Hy & Hs & ? & _).
    unfold MIN_YEAR, MAX_YEAR in Hy.
    unfold fields_of. rewrite !of_int_numeral by lia.
    repeat apply Forall_cons_2; done || apply numeral_clean. }
  assert (parseCSV (to_csv HEADER (fields_of <$> ws))
          = (λ w, list_to_map (zip HEADER (fields_of w))) <$> ws) as ->.
  { unfold to_csv. rewrite parseCSV_lines.
    - rewrite <-!list_fmap_compose. apply Forall_fmap_ext.
      eapply Forall_impl; [exact Hfields|]. intros w Hw. unfold compose.
      apply (row_of_fields HEADER (fields_of w)); try done;
        apply (bool_decide_unpack _); by vm_compute.
    - apply Forall_cons. split; [by apply line_of_fields|].
      rewrite <-list_fmap_compose. apply Forall_fmap.
      eapply Forall_impl; [exact Hfields|]. intros w Hw. unfold compose.
      by apply line_of_fields.
    - done.
    - by destruct ws.
    - intros l. rewrite <-list_fmap_compose, fmap_last.
      destruct (last ws) as [w|] eqn:Hw; [|done]. intros [= <-].
      apply last_Some_elem_of in Hw.
      apply (proj1 (Forall_forall _ _) Hws) in Hw as (_ & Hp & _).
      unfold compose, fields_of. cbn [join_comma]. by destruct (w_player w). }
  assert (∀ w field v, (field, v) ∈ zip HEADER (fields_of w) →
            (list_to_map (zip HEADER (fields_of w)) : RowObject) !! field = Some v)
    as Hrow by (intros; by apply written_row).
  unfold loadData_filter.
  rewrite (filter_all has_score), (filter_all (made_cut toLowerCase)).
  - rewrite <-list_fmap_compose.
    assert (to_record ∘ (λ w, list_to_map (zip HEADER (fields_of w))) <$> ws
            = read_back <$> ws) as ->.
    { apply Forall_fmap_ext. eapply Forall_impl; [exact Hws|].
      intros w ([Hp _] & _ & [He _] & Hy & Hs & _).
      unfold compose, to_record, read_back.
      rewrite (Hrow w (lit "player_name") (w_player w)),
        (Hrow w (lit "event_name") (w_event w)),
        (Hrow w (lit "year") (Str.of_int (w_year w))),
        (Hrow w (lit "score_to_par") (Str.of_int (w_score w)))
        by (unfold HEADER, fields_of; cbn [zip_with]; rewrite !elem_of_cons; tauto).
      cbn [or_empty default from_option]. unfold id.
      unfold MIN_YEAR, MAX_YEAR in Hy.
      rewrite !trimmed_trim by done.
      rewrite !of_int_numeral, !parseInt_numeral by lia.
      unfold of_integer at 1.
      rewrite NumFacts.fl_exact by lia.
      rewrite (proj2 (Z.leb_gt _ _)) by lia.
      by destruct (w_year w) as [|y|y]; [lia|..]. }
    rewrite (filter_all (λ r : ResultRecord, named_and_scored r) (read_back <$> ws));
      [rewrite filter_all; [done|]|].
    + apply Forall_fmap. eapply Forall_impl; [exact Hws|].
      intros w (_ & _ & _ & Hy & _). unfold in_years, read_back, geb, leb. simpl.
      apply andb_True. split; apply Is_true_true, Z.leb_le; lia.
    + apply Forall_fmap. eapply Forall_impl; [exact Hws|].
      intros w (_ & Hp & _). unfold named_and_scored, read_back. simpl.
      apply andb_True. split.
      * apply negb_True. by rewrite bool_decide_spec.
      * unfold of_integer. by case_match.
  - apply Forall_fmap. eapply Forall_impl; [exact Hws|].
    intros w (_ & _ & _ & _ & _ & [Hpos _] & Hex). unfold made_cut, compose.
    cbn beta zeta.
    rewrite (Hrow w (lit "position") (w_position w))
      by (unfold HEADER, fields_of; cbn [zip_with]; rewrite !elem_of_cons; tauto).
    cbn [or_empty default from_option]. unfold id. rewrite trimmed_trim by done.
    apply negb_True. by rewrite bool_decide_spec.
  - apply Forall_fmap. eapply Forall_impl; [exact Hws|].
    intros w (_ & _ & _ & _ & Hs & _). unfold has_score, compose. cbn beta.
    rewrite (Hrow w (lit "score_to_par") (Str.of_int (w_score w)))
      by (unfold HEADER, fields_of; cbn [zip_with]; rewrite !elem_of_cons; tauto).
    apply andb_True. split; apply bool_decide_spec; [|done].
    intros [= Hnil]. rewrite of_int_numeral in Hnil by done.
    by apply numeral_nonempty in Hnil.
Qed.

End load_round_trip.

Lemma loadData_reads_back_witness :
  loadData_filter toLowerCase_ascii
    (parseCSV (to_csv HEADER
                 (fields_of <$> [MkWritten (lit "Ann Lee") (lit "The Open") 2021 (-3) (lit "T2");
                                 MkWritten (lit "Bob") (lit "Masters") 2024 12 []])))
  = [MkRecord (lit "Ann Lee") (lit "The Open") (Finite 2021) (Finite (-3));
     MkRecord (lit "Bob") (lit "Masters") (Finite 2024) (Finite 12)].
Proof.
  rewrite (loadData_reads_back toLowerCase_ascii
             [MkWritten (lit "Ann Lee") (lit "The Open") 2021 (-3) (lit "T2");
              MkWritten (lit "Bob") (lit "Masters") 2024 12 []]).
  - reflexivity.
  - done.
  - repeat apply Forall_cons_2; [..|apply Forall_nil_2];
      (split_and!;
       first [by apply is_clean_clean | done
             | apply (bool_decide_unpack _); by vm_compute]).
Defined.

Lemma parseCSV_to_csv_witness :
  parseCSV (to_csv [lit "player_name"; lit "year"]
                   [[lit "Ann Lee"; lit "2021"]; [lit "Bob"; []]])
  = [ {[lit "player_name" := lit "Ann Lee"; lit "year" := lit "2021"]};
      {[lit "player_name" := lit "Bob"; lit "year" := []]} ].
Proof.
  rewrite (parseCSV_to_csv [lit "player_name"; lit "year"]
             [[lit "Ann Lee"; lit "2021"]; [lit "Bob"; []]]).
  - by rewrite <-!insert_empty.
  - apply (bool_decide_unpack _). by vm_compute.
  - apply (bool_decide_unpack _). by vm_compute.
  - repeat constructor; by apply is_clean_clean.
  - repeat constructor; by apply is_clean_clean.
  - done.
  - done.
  - by intros fields [= <-].
Defined.

(** ** The shuffle: every ordering *)

Section any_order.
Context {T : Type}.
Implicit Types (out arr target pre : list T) (x : T) (ds : list Draw)
  (steps : list (nat * Draw)).

Lemma draw_to_spec (i j : nat) :
  j ≤ i → (Z.of_nat i < 2 ^ 26)%Z →
  unit_draw (draw_to i j)
  ∧ Z.to_nat (floor_mul (draw_to i j) (Z.of_nat i + 1)) = j.
Proof.
  intros Hj Hi. unfold unit_draw, floor_mul, draw_to. cbn [dnum dexp].
  set (n := (Z.of_nat i + 1)%Z).
  set (q := ((Z.of_nat j * 2 ^ 26 + Z.of_nat i) / n)%Z).
  assert (n * q <= Z.of_nat j * 2 ^ 26 + Z.of_nat i < n * q + n)%Z as [Hlo Hhi].
  { unfold q. split.
    - apply Z.mul_div_le. lia.
    - pose proof (Z.mul_succ_div_gt (Z.of_nat j * 2 ^ 26 + Z.of_nat i) n ltac:(lia)).
      lia. }
  assert (0 <= q)%Z as Hq0 by (apply Z.div_pos; lia).
  assert (q < 2 ^ 26)%Z as Hq by nia.
  split; [split_and!; lia|].
  rewrite NumFacts.fl_exact by (rewrite Z.abs_eq by nia; nia).
  rewrite <-(Z.div_unique (q * n) (2 ^ 26) (Z.of_nat j) (q * n - Z.of_nat j * 2 ^ 26));
    [lia|lia|lia].
Qed.

Lemma swap_app_l i j pre x :
  i < length pre → j < length pre → swap i j (pre ++ [x]) = swap i j pre ++ [x].
Proof.
  intros Hi Hj. unfold swap. rewrite !lookup_app_l by done.
  destruct (pre !! i) as [a|]; [|done]. destruct (pre !! j) as [b|]; [|done].
  rewrite insert_app_l by done. rewrite insert_app_l by (by rewrite length_insert).
  done.
Qed.

Lemma foldl_exchange_app_l steps pre x :
  Forall (λ step : nat * Draw, step.1 < length pre ∧ unit_draw step.2) steps →
  foldl exchange (pre ++ [x]) steps = foldl exchange pre steps ++ [x].
Proof.
  intros Hsteps. revert pre Hsteps.
  induction steps as [|[i d] steps IH]; intros pre Hsteps; [done|].
  apply Forall_cons in Hsteps as [[Hi Hd] Hsteps]. simpl in Hi, Hd.
  cbn [foldl]. unfold exchange at 2 4. cbn [fst snd].
  pose proof (floor_mul_range d (Z.of_nat i + 1) Hd ltac:(lia)) as Hj.
  rewrite swap_app_l by lia. apply IH.
  eapply Forall_impl; [exact Hsteps|]. intros step [? ?].
  by rewrite swap_length.
Qed.

Lemma swap_last i j out x :
  i = length out - 1 → out !! j = Some x → swap i j out !! i = Some x.
Proof.
  intros Hi Hj. unfold swap.
  pose proof (lookup_lt_Some _ _ _ Hj) as Hlen.
  destruct (lookup_lt_is_Some_2 out i ltac:(lia)) as [a Ha]. rewrite Ha, Hj.
  destruct (decide (i = j)) as [->|Hne].
  - rewrite list_lookup_insert_eq by (rewrite length_insert; lia). congruence.
  - rewrite list_lookup_insert_ne by done.
    by rewrite list_lookup_insert_eq by lia.
Qed.

Lemma fisher_yates_any_order target arr :
  target ≡ₚ arr → (Z.of_nat (length arr) <= 2 ^ 26)%Z →
  ∃ ds, length ds = length arr - 1 ∧ Forall unit_draw ds
        ∧ fisher_yates ds arr = target.
Proof.
  revert arr. induction target as [|x target IH] using rev_ind; intros arr Hperm Hlen.
  { destruct arr as [|y arr]; [|by apply Permutation_nil_cons in Hperm]. exists [].
    split_and!; [done|constructor|done]. }
  assert (length arr = S (length target)) as Harr.
  { rewrite <-(Permutation_length Hperm), length_app. simpl. lia. }
  remember (length target) as i eqn:Hi.
  assert (x ∈ arr) as [j Hj]%list_elem_of_lookup.
  { rewrite <-Hperm. apply elem_of_app. right. by left. }
  assert (j ≤ i) as Hji by (apply lookup_lt_Some in Hj; lia).
  destruct (draw_to_spec i j Hji ltac:(lia)) as [Hunit Hfloor].
  set (out := swap i j arr).
  assert (out = take i out ++ [x]) as Hout.
  { assert (length out = S i) as Hlo by (unfold out; by rewrite swap_length).
    assert (out !! i = Some x) as Hx by (apply swap_last; [lia|done]).
    rewrite <-(take_drop i out) at 1. f_equal.
    rewrite (drop_S _ _ _ Hx), drop_ge by lia. done. }
  destruct (IH (take i out)) as (ds & Hds & Hall & Hfy).
  { apply (Permutation_app_inv_r [x]). rewrite <-Hout, Hperm. unfold out.
    symmetry. apply swap_Permutation. }
  { rewrite length_take. lia. }
  assert (length (take i out) = i) as Hpre.
  { rewrite length_take. unfold out. rewrite swap_length. lia. }
  destruct (decide (i = 0)) as [Hi0|Hi0].
  { exists []. split_and!; [simpl; lia|constructor|].
    destruct target; [|simpl in Hi; lia].
    destruct arr as [|y [|? ?]]; [simpl in Harr; lia| |simpl in Harr; lia].
    destruct j; [|lia]. simpl in Hj. by simplify_eq. }
  exists (draw_to i j :: ds). split_and!.
  - simpl. rewrite Hds, Hpre. lia.
  - by constructor.
  - unfold fisher_yates in *. rewrite Harr.
    replace (S i - 1) with (S (i - 1)) by lia.
    rewrite seq_S, reverse_app. simpl.
    replace (S (i - 1)) with i by lia.
    unfold exchange at 2. cbn [fst snd]. rewrite Hfloor. fold out.
    rewrite Hout, foldl_exchange_app_l.
    + rewrite Hpre in Hfy. by rewrite Hfy.
    + apply Forall_forall. intros [i' d] Hin.
      pose proof (elem_of_zip_l _ _ _ _ Hin) as Hi'.
      pose proof (elem_of_zip_r _ _ _ _ Hin) as Hd.
      rewrite elem_of_reverse, elem_of_seq in Hi'. simpl.
      split; [lia|]. by apply (proj1 (Forall_forall _ _) Hall).
Qed.

Lemma calls_replay ds : calls replay (length ds) ds = (ds, []).
Proof.
  induction ds as [|d ds IH]; [done|]. cbn [length calls].
  unfold mbind, State_bind. cbn [replay]. by rewrite IH.
Qed.

(** X21.  [shuffleWithRng] can return every ordering of its input: for
    an array of at most 2^26 elements and any permutation of it there are
    draws in [0, 1), one less than there are elements, on which the shuffle
    returns that permutation, from the generator that replays them and from
    any other that makes them. *)
Theorem shuffleWithRng_any_order arr target :
  target ≡ₚ arr → (Z.of_nat (length arr) <= 2 ^ 26)%Z →
  ∃ ds, length ds = length arr - 1 ∧ Forall unit_draw ds
        ∧ (shuffleWithRng arr replay ds).1 = target
        ∧ ∀ W (rng : Rng W) (w : W),
            (calls rng (length arr - 1) w).1 = ds →
            (shuffleWithRng arr rng w).1 = target.
Proof.
  intros Hperm Hlen.
  destruct (fisher_yates_any_order target arr Hperm Hlen) as (ds & Hds & Hall & Hfy).
  exists ds. split_and!; [done|done| |].
  - by rewrite shuffleWithRng_fisher_yates, <-Hds, calls_replay.
  - intros W rng w Hcalls. by rewrite shuffleWithRng_fisher_yates, Hcalls.
Qed.

End any_order.

Lemma shuffleWithRng_any_order_witness :
  ∃ ds, length ds = 2 ∧ Forall unit_draw ds
        ∧ (shuffleWithRng [lit "Ann"; lit "Bob"; lit "Cy"] replay ds).1
          = [lit "Cy"; lit "Ann"; lit "Bob"]
        ∧ ∀ W (rng : Rng W) (w : W),
            (calls rng 2 w).1 = ds →
            (shuffleWithRng [lit "Ann"; lit "Bob"; lit "Cy"] rng w).1
            = [lit "Cy"; lit "Ann"; lit "Bob"].
Proof.
  apply (shuffleWithRng_any_order [lit "Ann"; lit "Bob"; lit "Cy"]
           [lit "Cy"; lit "Ann"; lit "Bob"]).
  - apply (Permutation_cons_append [lit "Ann"; lit "Bob"] (lit "Cy")).
  - by vm_compute.
Defined.

(** ** buildPuzzle: what the outcome depends on *)

Section invariance.
Implicit Types (rows : list ResultRecord) (seed : Z) (σ : Store) (p : jsstring).

Lemma foldl_add_row_entries rows :
  foldl add_row [] rows
  = (λ p, (p, records_of p rows)) <$> first_seen (player_name <$> rows).
Proof.
  pose proof (foldl_add_row_grouped rows) as [Hnd Hget].
  rewrite <-foldl_add_row_keys. apply entries_of_keys.
  intros p events Hin%(elem_of_get _ _ _ Hnd).
  rewrite Hget in Hin. case_decide; by simplify_eq.
Qed.

Lemma qualifying_entries rows :
  qualifying rows
  = (λ p, (p, records_of p rows))
      <$> filter (λ p, CARDS_PER_GOLFER ≤ length (records_of p rows))
                 (first_seen (player_name <$> rows)).
Proof.
  unfold qualifying, JsMap.entries. rewrite foldl_add_row_entries.
  by rewrite (filter_fmap (λ p, (p, records_of p rows))).
Qed.

Lemma buildPuzzle_qualifying rows1 rows2 seed σ :
  qualifying rows1 = qualifying rows2 →
  buildPuzzle rows1 seed σ = buildPuzzle rows2 seed σ.
Proof.
  intros Hq. rewrite !buildPuzzle_unfold. unfold buildPuzzle_body.
  change (filter (λ entry, CARDS_PER_GOLFER ≤ length entry.2)
                 (JsMap.entries (foldl add_row [] rows1)))
    with (qualifying rows1).
  change (filter (λ entry, CARDS_PER_GOLFER ≤ length entry.2)
                 (JsMap.entries (foldl add_row [] rows2)))
    with (qualifying rows2).
  by rewrite Hq.
Qed.

Lemma remove_dups_filter {A} `{EqDecision A} (P : A → Prop) `{!∀ a, Decision (P a)}
    (l : list A) :
  remove_dups (filter P l) = filter P (remove_dups l).
Proof.
  induction l as [|a l IH]; [done|]. cbn [remove_dups].
  rewrite filter_cons. destruct (decide (P a)) as [Ha|Ha].
  - cbn [remove_dups].
    destruct (decide_rel elem_of a l) as [Hin|Hin],
      (decide_rel elem_of a (filter P l)) as [Hin'|Hin'].
    + done.
    + destruct Hin'. by apply list_elem_of_filter.
    + destruct Hin. by apply list_elem_of_filter in Hin' as [_ ?].
    + rewrite filter_cons, decide_True by done. by rewrite IH.
  - destruct (decide_rel elem_of a l) as [Hin|Hin]; [done|].
    rewrite filter_cons, decide_False by done. done.
Qed.

Lemma first_seen_filter {A} `{EqDecision A} (P : A → Prop) `{!∀ a, Decision (P a)}
    (l : list A) :
  first_seen (filter P l) = filter P (first_seen l).
Proof.
  unfold first_seen. by rewrite <-filter_reverse, remove_dups_filter, filter_reverse.
Qed.

Lemma records_of_filter (Q : jsstring → Prop) `{!∀ p, Decision (Q p)} rows p :
  Q p → records_of p (filter (λ r, Q (player_name r)) rows) = records_of p rows.
Proof.
  intros Hp. unfold records_of. induction rows as [|r rows IH]; [done|].
  rewrite !filter_cons. destruct (decide (player_name r = p)) as [Heq|Hne].
  - rewrite decide_True by by rewrite Heq. rewrite filter_cons, decide_True by done.
    by rewrite IH.
  - case_decide; [|done]. rewrite filter_cons, decide_False by done. done.
Qed.

(** X22.  The records of players with fewer than [CARDS_PER_GOLFER]
    records have no influence: [buildPuzzle] returns (or throws) the same,
    and leaves the same generator state, when they are removed from the
    input. *)
Theorem buildPuzzle_ignores_short rows seed σ :
  buildPuzzle (of_qualifying rows) seed σ = buildPuzzle rows seed σ.
Proof.
  apply buildPuzzle_qualifying. rewrite !qualifying_entries. unfold of_qualifying.
  pose proof (filter_fmap player_name
                (λ p, CARDS_PER_GOLFER ≤ length (records_of p rows)) rows) as Hnames.
  unfold compose in Hnames. rewrite <-Hnames, first_seen_filter, list_filter_filter.
  clear Hnames.
  assert (∀ p, CARDS_PER_GOLFER ≤ length (records_of p rows) →
               records_of p (filter (λ r, CARDS_PER_GOLFER
                                          ≤ length (records_of (player_name r) rows)) rows)
               = records_of p rows) as Hrec.
  { intros p Hp.
    exact (records_of_filter (λ p, CARDS_PER_GOLFER ≤ length (records_of p rows))
             rows p Hp). }
  rewrite (list_filter_iff _ (λ p, CARDS_PER_GOLFER ≤ length (records_of p rows))).
  - apply list_fmap_ext. intros _ p [Hp _]%list_elem_of_lookup_2%list_elem_of_filter.
    f_equal. by apply Hrec.
  - intros p. split; [tauto|]. intros Hp. split; [|done]. by rewrite Hrec.
Qed.

(** X23.  Two inputs in which the players first appear in the same
    order and each player has the same records in the same order give the
    same outcome: how the records of different players are interleaved does
    not matter. *)
Theorem buildPuzzle_interleaving rows1 rows2 seed σ :
  first_seen (player_name <$> rows1) = first_seen (player_name <$> rows2) →
  (∀ p, records_of p rows1 = records_of p rows2) →
  buildPuzzle rows1 seed σ = buildPuzzle rows2 seed σ.
Proof.
  intros Hfirst Hrec. apply buildPuzzle_qualifying.
  rewrite !qualifying_entries, Hfirst.
  rewrite (list_filter_iff _ (λ p, CARDS_PER_GOLFER ≤ length (records_of p rows2)))
    by (intros p; by rewrite Hrec).
  apply list_fmap_ext. intros _ p _. by rewrite Hrec.
Qed.

End invariance.

Lemma buildPuzzle_interleaving_witness :
  buildPuzzle [sample_record "Ann" 0; sample_record "Bob" 0; sample_record "Ann" 1] 5 []
  = buildPuzzle [sample_record "Ann" 0; sample_record "Ann" 1; sample_record "Bob" 0] 5 [].
Proof.
  apply buildPuzzle_interleaving; [by vm_compute|].
  intros p. unfold records_of. rewrite !filter_cons, !filter_nil.
  repeat case_decide; try done; exfalso; simplify_eq/=.
Defined.

(** ** The session: bounds of the total *)

Module GameBounds.
Import Game GameFacts.

Section bounds.
Variable toLowerCase : jsstring → jsstring.
Local Open Scope Z_scope.

Lemma plus_Finite (x y : Z) :
  Z.abs (x + y) < 2 ^ 53 → plus (Finite x) (Finite y) = Finite (x + y).
Proof.
  intros Hxy. unfold plus, of_integer. rewrite NumFacts.fl_exact by done.
  rewrite (proj2 (Z.leb_gt _ _)); [done|].
  assert (2 ^ 53 < 2 ^ 1024) by (apply Z.pow_lt_mono_r; lia). lia.
Qed.

Lemma foldl_plus_bounds (lo hi : Z) (l : list Number) (a : Z) (n0 : nat) :
  - 2 ^ 50 <= lo → hi <= 2 ^ 50 →
  Forall (λ v, ∃ s, v = Finite s ∧ lo <= s <= hi) l →
  (n0 + length l ≤ 4)%nat →
  Z.of_nat n0 * lo <= a <= Z.of_nat n0 * hi →
  ∃ t, foldl plus (Finite a) l = Finite t
       ∧ Z.of_nat (n0 + length l) * lo <= t <= Z.of_nat (n0 + length l) * hi.
Proof.
  intros Hlo Hhi Hl. revert a n0.
  induction Hl as [|v l (s & -> & Hs) _ IH]; intros a n0 Hlen Ha.
  - exists a. by rewrite Nat.add_0_r.
  - cbn [foldl]. cbn [length] in Hlen. rewrite plus_Finite by nia.
    destruct (IH (a + s) (S n0)) as (t & Ht & Hbound); [lia|nia|].
    exists t. split; [done|].
    by replace (n0 + length (Finite s :: l))%nat with (S n0 + length l)%nat
      by (simpl; lia).
Qed.

Lemma first_pick_card (puzzle : Puzzle) clicks r v :
  first_pick puzzle clicks r = Some v →
  ∃ e card, e ∈ puzzle ∧ card ∈ cards e ∧ v = card_score_to_par card.
Proof.
  induction clicks as [|c clicks IH]; [done|]. cbn [first_pick].
  destruct (card_at puzzle c) as [card|] eqn:Hcard; [|exact IH].
  destruct (decide (c.1 = r)) as [Hr|Hr]; [|exact IH]. intros [= <-].
  unfold card_at in Hcard. destruct (puzzle !! c.1) as [e|] eqn:He; [|done].
  exists e, card. split_and!; [|by eapply list_elem_of_lookup_2|done].
  by eapply list_elem_of_lookup_2.
Qed.

Lemma omap_Forall {A B} (f : A → option B) (P : B → Prop) (l : list A) :
  (∀ x y, f x = Some y → P y) → Forall P (omap f l).
Proof.
  intros Hf. induction l as [|x l IH]; [constructor|]. cbn [omap list_omap].
  destruct (f x) eqn:Hx; [|done]. constructor; [by eapply Hf|done].
Qed.

(** X20.  When every record that survives the filters has an integer
    score between [lo] and [hi] (both within 2^50 of zero), the total shown
    when the fourth row gets its pick is the label of an integer between
    [4 * lo] and [4 * hi]. *)
Theorem final_total_bounds w seed text puzzle σ clicks (lo hi : Z) :
  picks (state w) = [] →
  load_and_build toLowerCase text seed (store w) = (Return puzzle, σ) →
  Forall (λ r, ∃ s, score_to_par r = Finite s ∧ lo <= s <= hi)
         (loadData_filter toLowerCase (parseCSV text)) →
  - 2 ^ 50 <= lo → hi <= 2 ^ 50 →
  let w' := run toLowerCase w (Loaded seed text :: (Click <$> clicks)) in
  length (defined (picks (state w'))) = 4%nat →
  ∃ t, finalTotal (page w') = formatScore t ∧ 4 * lo <= t <= 4 * hi.
Proof.
  intros Hpicks Hload Hrows Hlo Hhi w'. subst w'.
  change (run toLowerCase w (Loaded seed text :: (Click <$> clicks)))
    with (run toLowerCase (loaded toLowerCase seed text w) (Click <$> clicks)).
  rewrite (loaded_Return _ _ _ _ _ _ Hload), Hpicks.
  set (st := MkState _ _ _). set (w1 := MkWorld _ _ _).
  destruct (clicks_keep toLowerCase puzzle w1 clicks
              (load_and_build_four _ _ _ _ _ _ Hload)
              eq_refl (listening_render puzzle)) as (I1 & I2 & _ & _ & _ & I6).
  rewrite (defined_scores _ _ 4 I1 I2). intros H4.
  rewrite bool_decide_eq_true_2 in I6 by done. destruct I6 as (-> & _).
  destruct (foldl_plus_bounds lo hi (omap (first_pick puzzle clicks) (seq 0 4)) 0 0)
    as (t & -> & Ht); [done|done| |lia|lia|].
  - apply omap_Forall. intros r v (e & card & He & Hcard & ->)%first_pick_card.
    unfold load_and_build in Hload.
    destruct (buildPuzzle_entry_records
                (loadData_filter toLowerCase (parseCSV text)) seed (store w) puzzle e)
      as (_ & picked & Hcards & Hsub); [by rewrite Hload|done|].
    rewrite Hcards in Hcard. apply list_elem_of_fmap in Hcard as (rec & -> & Hrec).
    eapply elem_of_submseteq in Hrec; [|exact Hsub].
    unfold records_of in Hrec. apply list_elem_of_filter in Hrec as [_ Hrec].
    by apply (proj1 (Forall_forall _ _) Hrows) in Hrec.
  - exists t. split; [done|]. rewrite H4 in Ht. simpl in Ht. lia.
Qed.

End bounds.

Lemma final_total_bounds_witness :
  let w := MkWorld (MkState None [] 1) sample_page [] in
  let w' := run toLowerCase_ascii w
              (Loaded 1 sample_csv :: (Click <$> [(0, 3); (1, 3); (2, 3); (3, 3)])) in
  ∃ t, finalTotal (page w') = formatScore t ∧ (4 * -2 <= t <= 4 * 1)%Z.
Proof.
  apply (final_total_bounds toLowerCase_ascii
           (MkWorld (MkState None [] 1) sample_page []) 1 sample_csv sample_puzzle
           [27473487196%Z] [(0, 3); (1, 3); (2, 3); (3, 3)] (-2) 1);
    [reflexivity|by vm_compute| |done|done|by vm_compute].
  set (rows := loadData_filter toLowerCase_ascii (parseCSV sample_csv)).
  vm_compute in rows. subst rows.
  repeat (apply Forall_cons_2; [eexists; split; [reflexivity|lia]|]).
  apply Forall_nil_2.
Defined.

End GameBounds.

(** ** The session: the grid *)

Module ShownFacts.
Import Game GameFacts Shown.

Section shown.
Variable toLowerCase : jsstring → jsstring.

Lemma first_click_snoc puzzle clicks cardEl r :
  first_click puzzle (clicks ++ [cardEl]) r
  = match first_click puzzle clicks r with
    | Some col => Some col
    | None =>
        if bool_decide (is_Some (card_at puzzle cardEl) ∧ cardEl.1 = r)
        then Some cardEl.2 else None
    end.
Proof.
  induction clicks as [|c clicks IH]; cbn [app first_click].
  - destruct (card_at puzzle cardEl) as [card|].
    + destruct (decide (cardEl.1 = r)).
      * by rewrite bool_decide_eq_true_2 by eauto.
      * by rewrite bool_decide_eq_false_2 by tauto.
    + rewrite bool_decide_eq_false_2; [done|]. by intros [[? ?] _].
  - destruct (card_at puzzle c); [|done].
    destruct (decide (c.1 = r)); [done|exact IH].
Qed.

Lemma first_click_pick puzzle clicks r :
  is_Some (first_click puzzle clicks r) ↔ is_Some (first_pick puzzle clicks r).
Proof.
  induction clicks as [|c clicks IH]; simpl.
  - split; by intros [? ?].
  - destruct (card_at puzzle c); [|done].
    destruct (decide (c.1 = r)); [|done]. split; eauto.
Qed.

Lemma mark_shown_row golfer col card :
  cards golfer !! col = Some card →
  mark_row col (shown_row golfer None) = shown_row golfer (Some col).
Proof.
  intros Hcard. unfold mark_row, shown_row. cbn [row_cards]. f_equal.
  apply list_eq. intros c. rewrite list_lookup_fmap, list_lookup_imap.
  destruct (decide (c = col)) as [->|Hne].
  - rewrite list_lookup_alter_eq, list_lookup_fmap, Hcard. simpl.
    by rewrite bool_decide_eq_true_2.
  - rewrite list_lookup_alter_ne, list_lookup_fmap by done.
    destruct (cards golfer !! c); [|done]. simpl.
    by rewrite bool_decide_eq_false_2.
Qed.

(** X24.  When the CSV text arrives with no pick made and a puzzle is
    built from it, then after any clicks the grid has one row per golfer: a
    row in which no card was clicked has all its cards face down; a row in
    which a card was clicked has [row-picked], all its cards flipped, and
    [picked] on the card that was clicked first and on no other.  Every card
    keeps its listener. *)
Theorem grid_after_clicks w seed text puzzle σ clicks :
  picks (state w) = [] →
  load_and_build toLowerCase text seed (store w) = (Return puzzle, σ) →
  let w' := run toLowerCase w (Loaded seed text :: (Click <$> clicks)) in
  grid (page w')
  = Rows (imap (λ r golfer, shown_row golfer (first_click puzzle clicks r)) puzzle).
Proof.
  intros Hpicks Hload w'. subst w'.
  change (run toLowerCase w (Loaded seed text :: (Click <$> clicks)))
    with (run toLowerCase (loaded toLowerCase seed text w) (Click <$> clicks)).
  rewrite (loaded_Return _ _ _ _ _ _ Hload), Hpicks.
  set (st := MkState _ _ _). set (w1 := MkWorld _ _ _).
  induction clicks as [|c clicks IH] using rev_ind.
  { cbn [fmap list_fmap run foldl w1 page set_grid grid first_click]. f_equal. }
  destruct (clicks_keep toLowerCase puzzle w1 clicks
              (load_and_build_four _ _ _ _ _ _ Hload)
              eq_refl (listening_render puzzle)) as (I1 & _ & I3 & _).
  rewrite fmap_app. change (Click <$> [c]) with [Click c].
  rewrite run_snoc. cbn [step].
  set (wk := run toLowerCase w1 (Click <$> clicks)) in *.
  assert ((∀ r, first_click puzzle (clicks ++ [c]) r = first_click puzzle clicks r) →
          click c wk = wk →
          grid (page (click c wk))
          = Rows (imap (λ r golfer,
                          shown_row golfer (first_click puzzle (clicks ++ [c]) r))
                       puzzle)) as Hsame.
  { intros Hfc ->. rewrite IH. f_equal. apply imap_ext. intros r golfer _.
    by rewrite Hfc. }
  destruct (card_at puzzle c) as [card|] eqn:Hcard; cycle 1.
  { apply Hsame.
    - intros r. rewrite first_click_snoc, Hcard.
      rewrite bool_decide_eq_false_2 by (by intros [[? ?] _]).
      by destruct (first_click puzzle clicks r).
    - unfold click. by rewrite (I3 c), Hcard. }
  destruct (read (picks (state wk)) c.1) as [v|] eqn:Hread.
  { apply Hsame.
    - intros r. rewrite first_click_snoc.
      destruct (first_click puzzle clicks r) eqn:Hr; [done|].
      rewrite bool_decide_eq_false_2; [done|]. intros [_ <-].
      rewrite I1 in Hread.
      destruct (proj2 (first_click_pick puzzle clicks c.1)) as [? ?]; [eauto|].
      congruence.
    - unfold click. rewrite (I3 c), Hcard. cbn [fmap option_fmap option_map].
      apply pickCard_locked. eauto. }
  clear Hsame. unfold click. rewrite (I3 c), Hcard. cbn [fmap option_fmap option_map].
  destruct (pickCard_free c.1 (card_score_to_par card) c wk Hread)
    as (_ & _ & -> & _).
  rewrite IH. cbn [mark_grid]. f_equal.
  assert (first_click puzzle clicks c.1 = None) as Hfree.
  { apply eq_None_not_Some. intros Hsome%first_click_pick.
    rewrite <-I1, Hread in Hsome. by destruct Hsome. }
  unfold card_at in Hcard. destruct (puzzle !! c.1) as [golfer|] eqn:Hg; [|done].
  simpl in Hcard.
  apply list_eq. intros r. rewrite list_lookup_imap.
  destruct (decide (r = c.1)) as [->|Hne].
  - rewrite list_lookup_alter_eq, list_lookup_imap, Hg. simpl.
    rewrite Hfree, first_click_snoc, Hfree.
    rewrite bool_decide_eq_true_2.
    + f_equal. by eapply mark_shown_row.
    + split; [|done]. unfold card_at. rewrite Hg. simpl. eauto.
  - rewrite list_lookup_alter_ne, list_lookup_imap by done.
    destruct (puzzle !! r) as [golfer'|]; [|done]. simpl. do 2 f_equal.
    rewrite first_click_snoc. destruct (first_click puzzle clicks r); [done|].
    rewrite bool_decide_eq_false_2; [done|]. intros [_ ?]. by apply Hne.
Qed.

End shown.

Lemma grid_after_clicks_witness :
  let w := MkWorld (MkState None [] 1) sample_page [] in
  let clicks := [(0, 1); (0, 2); (7, 0); (2, 3)] in
  grid (page (run toLowerCase_ascii w (Loaded 1 sample_csv :: (Click <$> clicks))))
  = Rows (imap (λ r golfer, shown_row golfer (first_click sample_puzzle clicks r))
               sample_puzzle).
Proof.
  apply (grid_after_clicks toLowerCase_ascii
           (MkWorld (MkState None [] 1) sample_page []) 1 sample_csv sample_puzzle
           [27473487196%Z] [(0, 1); (0, 2); (7, 0); (2, 3)]);
    [reflexivity|by vm_compute].
Defined.

End ShownFacts.
